(** * A 3D coupled wave solver with curvature coupling: model and properties

    Shallow embedding of [coupling_simulation.py].  Numbers are IEEE-754
    binary64 values (Rocq's primitive [float]), arrays are nested lists in
    C order, numpy's exceptions are an error monad, and numpy's global
    random generator is a state threaded through the run and the sweep.
    Plotting, GIF capture, logging and directory creation consume values and
    never feed back into them; they are left out, except that the save/skip
    decision of the sweep is kept as a log. *)

From Stdlib Require Import String.
From Stdlib Require Import ZArith List Lia Bool Floats.
From Stdlib Require Uint63.
Import ListNotations.

#[local] Set Warnings "-inexact-float".
#[local] Open Scope float_scope.

(* ------------------------------------------------------------------ *)
(** ** Exceptions and the state of the random generator *)

Inductive exn : Type :=
| ValueError (msg : string).

Inductive result (A : Type) : Type :=
| Ok (a : A)
| Raise (e : exn).

Arguments Ok {A} a.
Arguments Raise {A} e.

Definition bind {A B : Type} (m : result A) (k : A -> result B) : result B :=
  match m with
  | Ok a => k a
  | Raise e => Raise e
  end.

Notation "x <- m ;; k" := (bind m (fun x => k))
  (at level 61, m at next level, right associativity).
Notation "' pat <- m ;; k" := (bind m (fun x => match x with pat => k end))
  (at level 61, pat pattern, m at next level, right associativity).

(** The functions the program takes from libm and numpy whose results are
    fixed by those libraries and not by this program. *)
Class Extern : Type := {
  cos : float -> float;                 (* np.cos on a scalar *)
  sin : float -> float;                 (* np.sin, elementwise *)
  np_sum : list float -> float;         (* np.sum of the flattened array *)
  rng : Type;                           (* state of numpy's global generator *)
  seed : Z -> rng;                      (* np.random.seed *)
  random_sample : rng -> float * rng    (* one double of np.random.rand *)
}.

(* ------------------------------------------------------------------ *)
(** ** Arrays *)

Abbreviation array1 := (list float) (only parsing).
Abbreviation array2 := (list (list float)) (only parsing).
Abbreviation array3 := (list (list (list float))) (only parsing).

Fixpoint map2 {A B C : Type} (f : A -> B -> C) (l1 : list A) (l2 : list B) : list C :=
  match l1, l2 with
  | a :: l1', b :: l2' => f a b :: map2 f l1' l2'
  | _, _ => []
  end.

Fixpoint map3 {A B C D : Type} (f : A -> B -> C -> D)
  (l1 : list A) (l2 : list B) (l3 : list C) : list D :=
  match l1, l2, l3 with
  | a :: l1', b :: l2', c :: l3' => f a b c :: map3 f l1' l2' l3'
  | _, _, _ => []
  end.

(** Elementwise operations on 3D arrays. *)
Definition amap (f : float -> float) (A : array3) : array3 :=
  map (map (map f)) A.
Definition amap2 (f : float -> float -> float) (A B : array3) : array3 :=
  map2 (map2 (map2 f)) A B.
Definition amap3 (f : float -> float -> float -> float) (A B C : array3) : array3 :=
  map3 (map3 (map3 f)) A B C.

Definition flat (A : array3) : list float := concat (concat A).

(** [A[i, j, k]], with [0] outside the array. *)
Definition cell (A : array3) (i j k : nat) : float :=
  nth k (nth j (nth i A []) []) 0.

Definition row_shape (n3 : nat) (r : array1) : Prop := length r = n3.
Definition plane_shape (n2 n3 : nat) (P : array2) : Prop :=
  length P = n2 /\ Forall (row_shape n3) P.
Definition has_shape (n1 n2 n3 : nat) (A : array3) : Prop :=
  length A = n1 /\ Forall (plane_shape n2 n3) A.

(** Slices of one axis. *)
Section Slices.
Context {A : Type}.

Definition sl_hi (l : list A) : list A := skipn 2 l.                 (* l[2:] *)
Definition sl_mid (l : list A) : list A := removelast (tl l).        (* l[1:-1] *)
Definition sl_lo (l : list A) : list A := firstn (length l - 2) l.   (* l[:-2] *)

(** [d[1:-1] += u] *)
Definition iadd_mid (add : A -> A -> A) (d u : list A) : list A :=
  firstn 1 d ++ map2 add (sl_mid d) u ++ skipn (Nat.max 1 (length d - 1)) d.
End Slices.

(* ------------------------------------------------------------------ *)
(** ** The parts of Python and numpy the program uses *)

(** Python's [int] to [float] conversion (exact below 2^53 in magnitude). *)
Definition Z2float (z : Z) : float :=
  if (z <? 0)%Z then - of_uint63 (Uint63.of_Z (- z)) else of_uint63 (Uint63.of_Z z).

(** [x ** 2] *)
Definition sq (x : float) : float := x * x.

(** Python's builtin [max(a, b)]: [b] only when [b > a]. *)
Definition pymax (a b : float) : float := if a <? b then b else a.

Module np.

Definition pi : float := 3.141592653589793.

Definition zeros (n : Z) : result (list float) :=
  if (n <? 0)%Z then Raise (ValueError "negative dimensions are not allowed")
  else Ok (repeat 0 (Z.to_nat n)).

Definition zeros_like (A : array3) : array3 := amap (fun _ => 0) A.

(** [np.linspace(start, stop, num)] with the default [endpoint=True]. *)
Definition linspace (start stop : float) (num : Z) : result array1 :=
  if (num <? 0)%Z then Raise (ValueError "Number of samples must be non-negative")
  else
    let div := (num - 1)%Z in
    let delta := stop - start in
    let y := map (fun i => Z2float (Z.of_nat i)) (seq 0 (Z.to_nat num)) in
    let y :=
      if (0 <? div)%Z then
        let step := delta / Z2float div in
        if step =? 0 then map (fun v => (v / Z2float div) * delta) y
        else map (fun v => v * step) y
      else map (fun v => v * delta) y in
    let y := map (fun v => v + start) y in
    Ok (if (1 <? num)%Z then removelast y ++ [stop] else y).

(** [np.meshgrid(x, y, z, indexing='ij')] *)
Definition meshgrid (x y z : array1) : array3 * array3 * array3 :=
  (map (fun xi => repeat (repeat xi (length z)) (length y)) x,
   repeat (map (fun yj => repeat yj (length z)) y) (length x),
   repeat (repeat z (length y)) (length x)).

(** One cell of [np.clip]: [min(max(x, lo), hi)], a NaN [x] is returned. *)
Definition clip1 (x lo hi : float) : float :=
  let y := if is_nan x then x else if lo <? x then x else lo in
  if is_nan y then y else if y <? hi then y else hi.

Definition clip (A : array3) (lo hi : float) : array3 :=
  amap (fun x => clip1 x lo hi) A.

Definition isfinite_all (A : array3) : bool := forallb is_finite (flat A).

Definition abs (A : array3) : array3 := amap PrimFloat.abs A.

(** [np.maximum] on two scalars; a NaN wins. *)
Definition maximum (a b : float) : float :=
  if (b <=? a) || is_nan a then a else b.

(** [np.max] of a whole array: an empty array has no maximum. *)
Definition max (A : array3) : result float :=
  match flat A with
  | [] => Raise (ValueError "zero-size array to reduction operation maximum which has no identity")
  | x :: xs => Ok (fold_left maximum xs x)
  end.

Section Random.
Context {ext : Extern}.

Fixpoint draw_list {A : Type} (one : rng -> A * rng) (n : nat) (s : rng) : list A * rng :=
  match n with
  | O => ([], s)
  | S n' =>
      let (a, s1) := one s in
      let (l, s2) := draw_list one n' s1 in
      (a :: l, s2)
  end.

(** [np.random.rand(n1, n2, n3)]: the doubles are drawn in C order. *)
Definition rand (n1 n2 n3 : Z) (s : rng) : result (array3 * rng) :=
  if ((n1 <? 0) || (n2 <? 0) || (n3 <? 0))%Z
  then Raise (ValueError "negative dimensions are not allowed")
  else Ok (draw_list (draw_list (draw_list random_sample (Z.to_nat n3)) (Z.to_nat n2))
             (Z.to_nat n1) s).

Definition sum (A : array3) : float := np_sum (flat A).
End Random.

End np.

(* ------------------------------------------------------------------ *)
(** ** Parameters *)

Record CoupledParams3D : Type := {
  alpha : float;
  beta : float;
  c : float;
  omega : float;
  nx : Z;
  ny : Z;
  nz : Z;
  dx : float;
  dy : float;
  dz : float;
  dt : float;
  time_steps : Z;
  mass : float;
  damping : float;
  output_dir : string;
  realtime_interval : Z;
  enable_realtime_plotting : bool;
  random_init : bool
}.

(* ------------------------------------------------------------------ *)
(** ** Curvature field *)

Definition define_ricci_3d (params : CoupledParams3D) : result array3 :=
  x_vals <- np.linspace (Z2float (- params.(nx)) / 2) (Z2float params.(nx) / 2) params.(nx) ;;
  y_vals <- np.linspace (Z2float (- params.(ny)) / 2) (Z2float params.(ny) / 2) params.(ny) ;;
  z_vals <- np.linspace (Z2float (- params.(nz)) / 2) (Z2float params.(nz) / 2) params.(nz) ;;
  let '(X, Y, Z_) := np.meshgrid x_vals y_vals z_vals in
  let r2 := amap2 PrimFloat.add (amap2 PrimFloat.add (amap sq X) (amap sq Y)) (amap sq Z_) in
  let smoothing := 1e3 in
  let R_field := amap (fun v => params.(mass) / v) (amap (fun v => v + smoothing) r2) in
  let R_field := amap (fun v => v * 1e-6) R_field in
  Ok R_field.

(* ------------------------------------------------------------------ *)
(** ** Laplacian *)

Definition second_diff (h2 : float) (hi mid lo : float) : float :=
  ((hi - 2 * mid) + lo) / h2.

Definition laplacian_3d (E : array3) (dx dy dz : float) : array3 :=
  let d2E := np.zeros_like E in
  (* x-direction *)
  let d2E :=
    iadd_mid (map2 (map2 PrimFloat.add)) d2E
      (map3 (map3 (map3 (second_diff (sq dx)))) (sl_hi E) (sl_mid E) (sl_lo E)) in
  (* y-direction *)
  let d2E :=
    map2 (iadd_mid (map2 PrimFloat.add)) d2E
      (map (fun P => map3 (map3 (second_diff (sq dy))) (sl_hi P) (sl_mid P) (sl_lo P)) E) in
  (* z-direction *)
  let d2E :=
    map2 (map2 (iadd_mid PrimFloat.add)) d2E
      (map (map (fun r => map3 (second_diff (sq dz)) (sl_hi r) (sl_mid r) (sl_lo r))) E) in
  d2E.

(* ------------------------------------------------------------------ *)
(** ** Field initialization *)

Section Program.
Context {ext : Extern}.

(** Returns [(E, E_prev)] and the state in which it leaves the generator. *)
Definition initialize_field_3d (params : CoupledParams3D) (s : rng)
  : result ((array3 * array3) * rng) :=
  if params.(random_init) then
    let s := seed 42 in
    '(r, s) <- np.rand params.(nx) params.(ny) params.(nz) s ;;
    let E_init := amap (fun u => 1e-10 * (u - 0.5)) r in
    let E_prev := E_init in
    Ok ((E_init, E_prev), s)
  else
    x_vals <- np.linspace 0 np.pi params.(nx) ;;
    y_vals <- np.linspace 0 np.pi params.(ny) ;;
    z_vals <- np.linspace 0 np.pi params.(nz) ;;
    let '(X, Y, Z_) := np.meshgrid x_vals y_vals z_vals in
    let E_init :=
      amap2 mul (amap2 mul (amap (fun v => 1e-10 * v) (amap sin X)) (amap sin Y))
        (amap sin Z_) in
    let E_prev := E_init in
    Ok ((E_init, E_prev), s).

(* ---------------------------------------------------------------- *)
(** ** One run *)

Record loop_state : Type := {
  E : array3;
  E_prev : array3;
  max_amplitudes : list float;
  energy_over_time : list float
}.

(** [l[t] = v] for [t] inside the list. *)
Fixpoint list_set (l : list float) (t : nat) (v : float) : list float :=
  match l, t with
  | [], _ => []
  | _ :: l', O => v :: l'
  | x :: l', S t' => x :: list_set l' t' v
  end.

Definition range (n : Z) : list Z := map Z.of_nat (seq 0 (Z.to_nat n)).

(** The field the loop body computes at step [t], after the damping and
    before the clamp. *)
Definition E_new_damped (params : CoupledParams3D) (R_field : array3) (t : Z)
    (E E_prev : array3) : array3 :=
  let dt2 := sq params.(dt) in
  let c2 := sq params.(c) in
  let alpha_c2 := params.(alpha) * c2 in
  (* PDE source *)
  let source_val := params.(beta) * cos (params.(omega) * params.(dt) * Z2float t) in
  let lapl := laplacian_3d E params.(dx) params.(dy) params.(dz) in
  let PDE_term :=
    amap (fun v => v + c2 * source_val)
      (amap2 sub (amap (fun v => c2 * v) lapl)
                 (amap (fun v => alpha_c2 * v) (amap2 mul R_field E))) in
  let E_new :=
    amap2 add (amap2 sub (amap (fun v => 2 * v) E) E_prev)
              (amap (fun v => dt2 * v) PDE_term) in
  (* Damping *)
  amap (fun v => v * params.(damping)) E_new.

(** The same field after the clamp, the one the stability check reads. *)
Definition E_new (params : CoupledParams3D) (R_field : array3) (t : Z)
    (E E_prev : array3) : array3 :=
  (* Clamp extremes *)
  np.clip (E_new_damped params R_field t E E_prev) (-1e5) 1e5.

(** How the loop ended; the program itself returns no such flag. *)
Inductive status : Type :=
| Completed
| Diverged (t : Z).

Fixpoint pde_loop (params : CoupledParams3D) (R_field : array3)
    (ts : list Z) (st : loop_state) : result (status * loop_state) :=
  match ts with
  | [] => Ok (Completed, st)
  | t :: ts' =>
      let E_new := E_new params R_field t st.(E) st.(E_prev) in
      (* Check for stability *)
      if negb (np.isfinite_all E_new) then Ok (Diverged t, st)
      else
        let E_prev' := st.(E) in
        let E' := E_new in
        (* Track metrics *)
        m <- np.max (np.abs E') ;;
        let max_amplitudes' := list_set st.(max_amplitudes) (Z.to_nat t) m in
        let energy' :=
          list_set st.(energy_over_time) (Z.to_nat t) (0.5 * np.sum (amap sq E')) in
        pde_loop params R_field ts'
          {| E := E'; E_prev := E_prev';
             max_amplitudes := max_amplitudes'; energy_over_time := energy' |}
  end.

(** The run with the way its loop ended. *)
Definition run_with_status (params : CoupledParams3D) (s : rng)
  : result (status * loop_state * array3 * rng) :=
  (* Build curvature and fields *)
  R_field <- define_ricci_3d params ;;
  '((E0, E_prev0), s) <- initialize_field_3d params s ;;
  max_amplitudes0 <- np.zeros params.(time_steps) ;;
  energy_over_time0 <- np.zeros params.(time_steps) ;;
  (* PDE iteration *)
  '(fin, st) <- pde_loop params R_field (range params.(time_steps))
                  {| E := E0; E_prev := E_prev0;
                     max_amplitudes := max_amplitudes0;
                     energy_over_time := energy_over_time0 |} ;;
  Ok (fin, st, R_field, s).

(** [alpha_val] and [beta_val] only name the GIF file. *)
Definition run_single_sim_realtime (params : CoupledParams3D)
    (alpha_val beta_val : float) (s : rng)
  : result ((array3 * list float * list float * array3) * rng) :=
  '(_, st, R_field, s) <- run_with_status params s ;;
  Ok ((st.(E), st.(max_amplitudes), st.(energy_over_time), R_field), s).

(* ---------------------------------------------------------------- *)
(** ** Parameter sweep with thresholded saves *)

Definition summary_row : Type := float * float * float * option float.

Record sweep_state : Type := {
  summary : list summary_row;
  last_saved_amp : option float;
  decisions : list bool      (* per run, in order: were the final plots saved *)
}.

Definition should_save (last_saved_amp : option float)
    (final_maxE save_threshold : float) : bool :=
  match last_saved_amp with
  | None => true
  | Some last =>
      let rel_diff := abs (final_maxE - last) / pymax last 1e-30 in
      save_threshold <? rel_diff
  end.

Definition sweep_body (base_params : CoupledParams3D) (save_threshold : float)
    (alpha_ beta_ : float) (w : sweep_state * rng) : result (sweep_state * rng) :=
  let '(ws, s) := w in
  (* Build fresh params for this run *)
  let sim_params :=
    {| alpha := alpha_; beta := beta_;
       c := base_params.(c); omega := base_params.(omega);
       nx := base_params.(nx); ny := base_params.(ny); nz := base_params.(nz);
       dx := base_params.(dx); dy := base_params.(dy); dz := base_params.(dz);
       dt := base_params.(dt); time_steps := base_params.(time_steps);
       mass := base_params.(mass);
       damping := base_params.(damping);
       output_dir := base_params.(output_dir);
       realtime_interval := base_params.(realtime_interval);
       enable_realtime_plotting := base_params.(enable_realtime_plotting);
       random_init := base_params.(random_init) |} in
  '((final_E, max_amps, energy_arr, _), s) <-
      run_single_sim_realtime sim_params alpha_ beta_ s ;;
  final_maxE <- np.max (np.abs final_E) ;;
  let last_amp :=
    match max_amps with
    | [] => None
    | _ => Some (last max_amps 0)
    end in
  (* Decide if we should save final plots *)
  let save := should_save ws.(last_saved_amp) final_maxE save_threshold in
  let last_saved_amp' := if save then Some final_maxE else ws.(last_saved_amp) in
  Ok ({| summary := ws.(summary) ++ [(alpha_, beta_, final_maxE, last_amp)];
         last_saved_amp := last_saved_amp';
         decisions := ws.(decisions) ++ [save] |}, s).

Fixpoint for_each {A S : Type} (body : A -> S -> result S) (l : list A) (s : S)
  : result S :=
  match l with
  | [] => Ok s
  | a :: l' => s' <- body a s ;; for_each body l' s'
  end.

(** The Python function returns [summary]; the decisions are what it did
    to the output directory. *)
Definition param_sweep_3d (alpha_list beta_list : list float)
    (base_params : CoupledParams3D) (save_threshold : float) (s : rng)
  : result (sweep_state * rng) :=
  for_each
    (fun alpha_ => for_each (sweep_body base_params save_threshold alpha_) beta_list)
    alpha_list
    ({| summary := []; last_saved_amp := None; decisions := [] |}, s).

End Program.

(* ------------------------------------------------------------------ *)
(** ** Cell-level readings of the array code *)

(** [i] lies in the slice [1:-1] of an axis of length [n]. *)
Definition interior (n i : nat) : bool := (1 <=? i)%nat && (i + 1 <? n)%nat.


(** The grid of a parameter set. *)
Definition grid (params : CoupledParams3D) (A : array3) : Prop :=
  has_shape (Z.to_nat params.(nx)) (Z.to_nat params.(ny)) (Z.to_nat params.(nz)) A.

(** [1e5] as a sign, a mantissa and an exponent. *)
Definition hi_bound : spec_float := S754_finite false 6871947673600000 (-36).

(** The state in which a run enters its loop: the initial fields and two
    metric arrays of [time_steps] zeros. *)
Definition entry_state (params : CoupledParams3D) (E0 E_prev0 : array3) : loop_state :=
  {| E := E0; E_prev := E_prev0;
     max_amplitudes := repeat 0 (Z.to_nat params.(time_steps));
     energy_over_time := repeat 0 (Z.to_nat params.(time_steps)) |}.

(** The step indices [t, t+1, ..., t+n-1]. *)
Definition steps_from (t : Z) (n : nat) : list Z :=
  map (fun i => (t + Z.of_nat i)%Z) (seq 0 n).

(** Every entry is finite and at most [1e5] in magnitude. *)
Definition amp_bounded (A : array3) : Prop :=
  Forall (fun x => is_finite x = true /\ (abs x <=? 1e5) = true) (flat A).

(** The save decision in the words of the design: save when nothing was
    saved before, or when the relative change of the final amplitude against
    the last saved one exceeds the threshold. *)
Definition save_rule (last_saved_amp : option float)
    (final_maxE save_threshold : float) : Prop :=
  last_saved_amp = None \/
  exists last, last_saved_amp = Some last /\
    (save_threshold <? abs (final_maxE - last) / pymax last 1e-30) = true.

(** The decisions and the last saved amplitude that the rule yields along a
    sequence of final amplitudes. *)
Fixpoint save_trace (last_saved_amp : option float) (save_threshold : float)
    (amps : list float) : list bool * option float :=
  match amps with
  | [] => ([], last_saved_amp)
  | final_maxE :: amps' =>
      let save := should_save last_saved_amp final_maxE save_threshold in
      let '(ds, last) :=
        save_trace (if save then Some final_maxE else last_saved_amp)
          save_threshold amps' in
      (save :: ds, last)
  end.

Definition row_final_maxE (row : summary_row) : float := snd (fst row).
Definition row_last_amp (row : summary_row) : option float := snd row.
Definition row_pair (row : summary_row) : float * float :=
  (fst (fst (fst row)), snd (fst (fst row))).

(* ------------------------------------------------------------------ *)
(** ** A concrete instance to run the model on

    Stand-ins for libm and numpy: short Taylor polynomials, a left-to-right
    sum, and a generator that walks a table of doubles in [[0, 1)]. *)

Definition ref_cos (x : float) : float := 1 - x * x / 2 + x * x * x * x / 24.

Definition ref_sin (x : float) : float :=
  let y := x - x * x * x / 6 in
  if abs y <=? 1 then y else 0.

Definition ref_table : list float :=
  [0; 0.25; 0.5; 0.75; 0.125; 0.625; 0.375; 0.875].

Definition ref_ext : Extern := {|
  cos := ref_cos;
  sin := ref_sin;
  np_sum := fun l => fold_left add l 0;
  rng := nat;
  seed := Z.to_nat;
  random_sample := fun s => (nth (s mod 8) ref_table 0, S s)
|}.

(** The reference configuration of the program on a 3 x 3 x 3 grid. *)
Definition small_params (steps : Z) : CoupledParams3D := {|
  alpha := 1e-6; beta := 1e-7; c := 5e3; omega := 0.5;
  nx := 3; ny := 3; nz := 3; dx := 0.05; dy := 0.05; dz := 0.05;
  dt := 5e-10; time_steps := steps; mass := 5e24; damping := 0.98;
  output_dir := "3d_extended_run"; realtime_interval := 50;
  enable_realtime_plotting := false; random_init := true |}.

(** Couplings so large that the second step computes [inf - inf]. *)
Definition unstable_params : CoupledParams3D := {|
  alpha := 1e290; beta := -1e305; c := 5e3; omega := 0.5;
  nx := 3; ny := 3; nz := 3; dx := 0.05; dy := 0.05; dz := 0.05;
  dt := 5e-10; time_steps := 3; mass := 5e24; damping := 0.98;
  output_dir := "3d_extended_run"; realtime_interval := 50;
  enable_realtime_plotting := false; random_init := true |}.



(** The curvature field, the initial field and the state after one step of
    the reference configuration, computed once. *)
Definition small_R : array3 :=
  Eval vm_compute in
    match define_ricci_3d (small_params 2) with
    | Ok R_field => R_field
    | Raise _ => []
    end.

Definition small_F0 : array3 :=
  Eval vm_compute in
    match initialize_field_3d (ext := ref_ext) (small_params 2) 0%nat with
    | Ok ((E0, _), _) => E0
    | Raise _ => []
    end.

Definition small_st1 : loop_state :=
  Eval vm_compute in
    match pde_loop (ext := ref_ext) (small_params 2) small_R (range 1)
            (entry_state (small_params 2) small_F0 small_F0) with
    | Ok (_, st) => st
    | Raise _ => entry_state (small_params 2) small_F0 small_F0
    end.

(** The same for the unstable configuration. *)
Definition unstable_F0 : array3 :=
  Eval vm_compute in
    match initialize_field_3d (ext := ref_ext) unstable_params 0%nat with
    | Ok ((E0, _), _) => E0
    | Raise _ => []
    end.

Definition unstable_st1 : loop_state :=
  Eval vm_compute in
    match pde_loop (ext := ref_ext) unstable_params small_R (range 1)
            (entry_state unstable_params unstable_F0 unstable_F0) with
    | Ok (_, st) => st
    | Raise _ => entry_state unstable_params unstable_F0 unstable_F0
    end.

(** Two outcomes that agree except for the state in which they leave the
    random generator. *)
Definition same_outcome {ext : Extern} {A : Type} (r1 r2 : result (A * rng)) : Prop :=
  match r1, r2 with
  | Ok (a1, _), Ok (a2, _) => a1 = a2
  | Raise e1, Raise e2 => e1 = e2
  | _, _ => False
  end.

(** The decisions and the last saved amplitude follow the rule along the
    rows recorded so far. *)
Definition traced {ext : Extern} (save_threshold : float) (w : sweep_state * rng) : Prop :=
  ((fst w).(decisions), (fst w).(last_saved_amp)) =
    save_trace None save_threshold (map row_final_maxE (fst w).(summary)).

(** A sweep of two by two pairs over the reference configuration. *)
Definition small_sweep : sweep_state :=
  Eval vm_compute in
    match param_sweep_3d (ext := ref_ext) [1e-6; 2e-6] [1e-7; 2e-7] (small_params 2)
            0.01 0%nat with
    | Ok (ws, _) => ws
    | Raise _ => {| summary := []; last_saved_amp := None; decisions := [] |}
    end.

(* ------------------------------------------------------------------ *)
(** ** Binary64 numbers as integers

    A finite binary64 number is an integer multiple of [2^emin]; [Zval]
    is that multiple, and [FZ] reads it off a primitive float. *)

Definition Zval (x : spec_float) : Z :=
  match x with
  | S754_finite s m e => cond_Zopp s (Zpos m * 2 ^ (e - emin))%Z
  | _ => 0%Z
  end.

Definition SF_finite (x : spec_float) : bool :=
  match x with
  | S754_zero _ | S754_finite _ _ _ => true
  | _ => false
  end.

Definition FZ (x : float) : Z := Zval (Prim2SF x).

(** The shift record carries no rounding bit. *)
Definition exact_record (mrs : shr_record) : bool := negb (shr_r mrs) && negb (shr_s mrs).

Definition is_exact (l : location) : bool :=
  match l with
  | loc_Exact => true
  | _ => false
  end.

(** The bound of the random initial field, [1e-10 * 0.5]. *)
Definition init_amp : float := 1e-10 * 0.5.

(** What the program relies on from numpy and libm: a uniform double lies
    in [[0, 1)], and the sine of a finite number lies in [[-1, 1]]. *)
Class ExternLaws (ext : Extern) : Prop := {
  random_sample_range :
    forall s, (0 <=? fst (random_sample s)) = true /\ (fst (random_sample s) <? 1) = true;
  sin_range :
    forall x, is_finite x = true -> (abs (sin x) <=? 1) = true
}.

(** [2^53], below which every integer is a binary64 number. *)
Definition two53 : float := 9007199254740992.

(** A property of every cell of an array. *)
Definition all_cells (P : float -> Prop) (A : array3) : Prop :=
  Forall (Forall (Forall P)) A.

(** ** The curvature field, cell by cell *)






(** ** The run with its real-time plotting

    The computation above leaves out the heat map that
    [run_single_sim_realtime] draws while it runs.  The plotted run is the
    same loop with the three places where Python itself can fail on the way
    to matplotlib: the index [z_mid] into the third axis, the test
    [t % realtime_interval == 0], and the minimum and maximum of the slice.
    A frame is taken for what the heat map shows when it is captured, the
    slice and its colour limits; what matplotlib and imageio do with it, and
    the names of the files, are outside the model. *)

Module Plot.

Inductive pyexn : Type :=
| Numeric (e : exn)                    (* raised by the computation itself *)
| IndexError (msg : string)
| ZeroDivisionError (msg : string)
| TypeError (msg : string).

Inductive outcome (A : Type) : Type :=
| Return (a : A)
| Throw (e : pyexn).

Arguments Return {A} a.
Arguments Throw {A} e.

Definition bind {A B : Type} (m : outcome A) (k : A -> outcome B) : outcome B :=
  match m with
  | Return a => k a
  | Throw e => Throw e
  end.

Notation "x <~ m ;; k" := (bind m (fun x => k))
  (at level 61, m at next level, right associativity).
Notation "' pat <~ m ;; k" := (bind m (fun x => match x with pat => k end))
  (at level 61, pat pattern, m at next level, right associativity).

(** A step of the computation inside the plotted run. *)
Definition lift {A : Type} (r : result A) : outcome A :=
  match r with
  | Ok a => Return a
  | Raise e => Throw (Numeric e)
  end.

(** Python's [a % b] on integers. *)
Definition py_mod (a b : Z) : outcome Z :=
  if (b =? 0)%Z then Throw (ZeroDivisionError "integer modulo by zero")
  else Return (a mod b)%Z.

(** [A[:, :, k]] on an array whose third axis has length [n3]. *)
Definition take_z (A : array3) (n3 k : Z) : outcome array2 :=
  if ((- n3 <=? k) && (k <? n3))%Z
  then
    let k' := Z.to_nat (if (k <? 0)%Z then n3 + k else k) in
    Return (map (map (fun row => nth k' row 0)) A)
  else Throw (IndexError "index is out of bounds for axis 2").

(** [A[:, j, :]] on an array whose second axis has length [n2]. *)
Definition take_y (A : array3) (n2 j : Z) : outcome array2 :=
  if ((- n2 <=? j) && (j <? n2))%Z
  then
    let j' := Z.to_nat (if (j <? 0)%Z then n2 + j else j) in
    Return (map (fun plane => nth j' plane []) A)
  else Throw (IndexError "index is out of bounds for axis 1").

Definition abs2 (A : array2) : array2 := map (map PrimFloat.abs) A.

(** [np.minimum] on two scalars; a NaN wins. *)
Definition minimum (a b : float) : float :=
  if (a <=? b) || is_nan a then a else b.

(** [A.min()] and [A.max()] of a two-dimensional array. *)
Definition amin (A : array2) : outcome float :=
  match concat A with
  | [] => Throw (Numeric (ValueError
            "zero-size array to reduction operation minimum which has no identity"))
  | x :: xs => Return (fold_left minimum xs x)
  end.

Definition amax (A : array2) : outcome float :=
  match concat A with
  | [] => Throw (Numeric (ValueError
            "zero-size array to reduction operation maximum which has no identity"))
  | x :: xs => Return (fold_left np.maximum xs x)
  end.

(** What the heat map shows when a frame is captured. *)
Record frame : Type := {
  shown : array2;
  clim : float * float
}.

(** [slice_data = np.abs(E[:, :, z_mid])], set on the heat map with its
    limits and captured. *)
Definition capture (params : CoupledParams3D) (z_mid : Z) (E : array3) : outcome frame :=
  slice <~ take_z E params.(nz) z_mid ;;
  let slice_data := abs2 slice in
  lo <~ amin slice_data ;;
  hi <~ amax slice_data ;;
  Return {| shown := slice_data; clim := (lo, hi) |}.

Section Program.
Context {ext : Extern}.

Fixpoint pde_loop (params : CoupledParams3D) (R_field : array3) (z_mid : Z)
    (ts : list Z) (st : loop_state) (frames : list frame)
  : outcome (status * loop_state * list frame) :=
  match ts with
  | [] => Return (Completed, st, frames)
  | t :: ts' =>
      let E_new := E_new params R_field t st.(E) st.(E_prev) in
      (* Check for stability *)
      if negb (np.isfinite_all E_new) then Return (Diverged t, st, frames)
      else
        let E_prev' := st.(E) in
        let E' := E_new in
        (* Track metrics *)
        m <~ lift (np.max (np.abs E')) ;;
        let max_amplitudes' := list_set st.(max_amplitudes) (Z.to_nat t) m in
        let energy' :=
          list_set st.(energy_over_time) (Z.to_nat t) (0.5 * np.sum (amap sq E')) in
        (* Update real-time slice occasionally *)
        frames' <~
          (if params.(enable_realtime_plotting)
           then
             r <~ py_mod t params.(realtime_interval) ;;
             if (r =? 0)%Z
             then f <~ capture params z_mid E' ;; Return (frames ++ [f])
             else Return frames
           else Return frames) ;;
        pde_loop params R_field z_mid ts'
          {| E := E'; E_prev := E_prev';
             max_amplitudes := max_amplitudes'; energy_over_time := energy' |}
          frames'
  end.

(** The plotted run with the way its loop ended and the frames it took. *)
Definition run_with_status (params : CoupledParams3D) (s : rng)
  : outcome (status * loop_state * array3 * list frame * rng) :=
  (* Build curvature and fields *)
  R_field <~ lift (define_ricci_3d params) ;;
  '((E0, E_prev0), s) <~ lift (initialize_field_3d params s) ;;
  max_amplitudes0 <~ lift (np.zeros params.(time_steps)) ;;
  energy_over_time0 <~ lift (np.zeros params.(time_steps)) ;;
  (* Real-time plotting setup *)
  let z_mid := (params.(nz) / 2)%Z in
  _ <~ (if params.(enable_realtime_plotting)
        then slice <~ take_z E0 params.(nz) z_mid ;; Return (abs2 slice)
        else Return []) ;;
  (* PDE iteration *)
  '(fin, st, frames) <~ pde_loop params R_field z_mid (range params.(time_steps))
                          {| E := E0; E_prev := E_prev0;
                             max_amplitudes := max_amplitudes0;
                             energy_over_time := energy_over_time0 |} [] ;;
  Return (fin, st, R_field, frames, s).

(** The frames written as an animated GIF, if any. *)
Definition gif_of (params : CoupledParams3D) (frames : list frame) : option (list frame) :=
  if params.(enable_realtime_plotting) && (1 <? length frames)%nat
  then Some frames else None.

(** [alpha_val] and [beta_val] only name the GIF file. *)
Definition run_single_sim_realtime (params : CoupledParams3D)
    (alpha_val beta_val : float) (s : rng)
  : outcome ((array3 * list float * list float * array3) * option (list frame) * rng) :=
  '(_, st, R_field, frames, s) <~ run_with_status params s ;;
  Return ((st.(E), st.(max_amplitudes), st.(energy_over_time), R_field),
          gif_of params frames, s).

(** The rows and decisions of the sweep, and the GIF of every run. *)
Definition sweep_log : Type := sweep_state * list (option (list frame)) * rng.

Definition sweep_body (base_params : CoupledParams3D) (save_threshold : float)
    (alpha_ beta_ : float) (w : sweep_log) : outcome sweep_log :=
  let '(ws, gifs, s) := w in
  (* Build fresh params for this run *)
  let sim_params :=
    {| alpha := alpha_; beta := beta_;
       c := base_params.(c); omega := base_params.(omega);
       nx := base_params.(nx); ny := base_params.(ny); nz := base_params.(nz);
       dx := base_params.(dx); dy := base_params.(dy); dz := base_params.(dz);
       dt := base_params.(dt); time_steps := base_params.(time_steps);
       mass := base_params.(mass);
       damping := base_params.(damping);
       output_dir := base_params.(output_dir);
       realtime_interval := base_params.(realtime_interval);
       enable_realtime_plotting := base_params.(enable_realtime_plotting);
       random_init := base_params.(random_init) |} in
  '((final_E, max_amps, energy_arr, _), gif, s) <~
      run_single_sim_realtime sim_params alpha_ beta_ s ;;
  final_maxE <~ lift (np.max (np.abs final_E)) ;;
  let last_amp :=
    match max_amps with
    | [] => None
    | _ => Some (last max_amps 0)
    end in
  (* Decide if we should save final plots *)
  let save := should_save ws.(last_saved_amp) final_maxE save_threshold in
  _ <~ (if save
        then
          (* Slicing *)
          let z_mid := (sim_params.(nz) / 2)%Z in
          let y_mid := (sim_params.(ny) / 2)%Z in
          z_slice <~ take_z final_E sim_params.(nz) z_mid ;;
          y_slice <~ take_y final_E sim_params.(ny) y_mid ;;
          Return (abs2 z_slice, abs2 y_slice)
        else Return ([], [])) ;;
  let last_saved_amp' := if save then Some final_maxE else ws.(last_saved_amp) in
  Return ({| summary := ws.(summary) ++ [(alpha_, beta_, final_maxE, last_amp)];
             last_saved_amp := last_saved_amp';
             decisions := ws.(decisions) ++ [save] |}, gifs ++ [gif], s).

Fixpoint for_each {A S : Type} (body : A -> S -> outcome S) (l : list A) (s : S)
  : outcome S :=
  match l with
  | [] => Return s
  | a :: l' => s' <~ body a s ;; for_each body l' s'
  end.

Definition param_sweep_3d (alpha_list beta_list : list float)
    (base_params : CoupledParams3D) (save_threshold : float) (s : rng)
  : outcome sweep_log :=
  for_each
    (fun alpha_ => for_each (sweep_body base_params save_threshold alpha_) beta_list)
    alpha_list
    ({| summary := []; last_saved_amp := None; decisions := [] |}, [], s).

(** One line of the final summary: [{la:15.3e}] formats a number. *)
Definition format_row (row : summary_row) : outcome unit :=
  match row_last_amp row with
  | Some _ => Return tt
  | None => Throw (TypeError "unsupported format string passed to NoneType.__format__")
  end.

(** The parameters and the lists of the main function. *)
Definition base_params : CoupledParams3D := {|
  alpha := 1e-6; beta := 1e-7; c := 5e3; omega := 0.5;
  nx := 44; ny := 44; nz := 44; dx := 0.050; dy := 0.050; dz := 0.050;
  dt := 5e-10; time_steps := 3000; mass := 5e24; damping := 0.98;
  output_dir := "3d_extended_run"; realtime_interval := 50;
  enable_realtime_plotting := true; random_init := true |}.

Definition alpha_list : list float := [1e-6; 2e-6; 3e-6; 4e-6].
Definition beta_list : list float :=
  [1e-7; 2e-7; 3e-7; 4e-7; 5e-7; 6e-7; 7e-7; 8e-7; 9e-7; 1e-6].

(** The main function; it returns nothing, what is kept here is what it
    logged and wrote. *)
Definition run_3d_extended_realtime_sweep (s : rng) : outcome sweep_log :=
  '(ws, gifs, s) <~ param_sweep_3d alpha_list beta_list base_params 0.01 s ;;
  (* Print a summary *)
  _ <~ for_each (fun row _ => format_row row) ws.(summary) tt ;;
  Return (ws, gifs, s).
End Program.

(** The steps a run completed, and those among the first [n] steps at
    which the heat map is updated and a frame is taken. *)
Definition completed_steps (params : CoupledParams3D) (fin : status) : Z :=
  match fin with
  | Completed => params.(time_steps)
  | Diverged t => t
  end.

Definition frame_steps (params : CoupledParams3D) (n : Z) : list Z :=
  filter (fun t => (t mod params.(realtime_interval) =? 0)%Z) (range n).

End Plot.

(** ** Further instances to run the model on *)

(** The run of two steps of the reference configuration. *)
Definition small_run : array3 * list float * list float * array3 :=
  Eval vm_compute in
    match run_single_sim_realtime (ext := ref_ext) (small_params 2) 1e-6 1e-7 0%nat with
    | Ok (out, _) => out
    | Raise _ => ([], [], [], [])
    end.

(** A sweep whose second pair repeats the first. *)
Definition twin_sweep : sweep_state :=
  Eval vm_compute in
    match param_sweep_3d (ext := ref_ext) [1e-6] [1e-7; 1e-7] (small_params 2)
            0.01 0%nat with
    | Ok (ws, _) => ws
    | Raise _ => {| summary := []; last_saved_amp := None; decisions := [] |}
    end.


(** The reference configuration with the heat map on. *)
Definition plot_params (interval steps : Z) : CoupledParams3D := {|
  alpha := 1e-6; beta := 1e-7; c := 5e3; omega := 0.5;
  nx := 3; ny := 3; nz := 3; dx := 0.05; dy := 0.05; dz := 0.05;
  dt := 5e-10; time_steps := steps; mass := 5e24; damping := 0.98;
  output_dir := "3d_extended_run"; realtime_interval := interval;
  enable_realtime_plotting := true; random_init := true |}.


(** Three plotted steps of the reference configuration, a frame every
    second step. *)
Definition plot_run : status * loop_state * array3 * list Plot.frame :=
  Eval vm_compute in
    match Plot.run_with_status (ext := ref_ext) (plot_params 2 3) 0%nat with
    | Plot.Return (fin, st, R_field, frames, _) => (fin, st, R_field, frames)
    | Plot.Throw _ => (Completed, entry_state (plot_params 2 3) [] [], [], [])
    end.

(* ------------------------------------------------------------------ *)
(** * Properties *)

(** ** Lists, slices and shapes *)

Section ListFacts.
Context {A B C D : Type}.

Lemma length_map2 (f : A -> B -> C) l1 l2 :
  length (map2 f l1 l2) = Nat.min (length l1) (length l2).
Proof.
  revert l2; induction l1 as [|a l1 IH]; intros [|b l2]; simpl; auto.
Qed.

Lemma nth_map2 (f : A -> B -> C) l1 l2 i d d1 d2 :
  (i < length l1)%nat -> (i < length l2)%nat ->
  nth i (map2 f l1 l2) d = f (nth i l1 d1) (nth i l2 d2).
Proof.
  revert l2 i; induction l1 as [|a l1 IH]; intros [|b l2] [|i]; simpl; intros;
    try lia; auto.
  apply IH; lia.
Qed.

Lemma length_map3 (f : A -> B -> C -> D) l1 l2 l3 :
  length (map3 f l1 l2 l3) = Nat.min (length l1) (Nat.min (length l2) (length l3)).
Proof.
  revert l2 l3; induction l1 as [|a l1 IH]; intros [|b l2] [|c0 l3]; simpl; auto.
Qed.

Lemma nth_map3 (f : A -> B -> C -> D) l1 l2 l3 i d d1 d2 d3 :
  (i < length l1)%nat -> (i < length l2)%nat -> (i < length l3)%nat ->
  nth i (map3 f l1 l2 l3) d = f (nth i l1 d1) (nth i l2 d2) (nth i l3 d3).
Proof.
  revert l2 l3 i; induction l1 as [|a l1 IH]; intros [|b l2] [|c0 l3] [|i]; simpl;
    intros; try lia; auto.
  apply IH; lia.
Qed.

End ListFacts.

Section SliceFacts.
Context {A : Type}.

Lemma length_sl_hi (l : list A) : length (sl_hi l) = (length l - 2)%nat.
Proof. unfold sl_hi. apply length_skipn. Qed.

Lemma length_sl_mid (l : list A) : length (sl_mid l) = (length l - 2)%nat.
Proof.
  unfold sl_mid. destruct l as [|a l]; simpl; auto.
  destruct l as [|b l] using rev_ind; simpl; auto.
  rewrite removelast_last, length_app. simpl. lia.
Qed.

Lemma length_sl_lo (l : list A) : length (sl_lo l) = (length l - 2)%nat.
Proof. unfold sl_lo. rewrite length_firstn. lia. Qed.

Lemma nth_sl_hi (l : list A) i d : nth i (sl_hi l) d = nth (i + 2) l d.
Proof. unfold sl_hi. rewrite nth_skipn. f_equal. lia. Qed.

Lemma nth_sl_mid (l : list A) i d :
  (i + 2 < length l)%nat -> nth i (sl_mid l) d = nth (i + 1) l d.
Proof.
  unfold sl_mid. intros H. destruct l as [|a l]; simpl in *; [lia|].
  replace (i + 1)%nat with (S i) by lia. simpl.
  destruct l as [|b l] using rev_ind; simpl in *; [lia|].
  rewrite removelast_last. rewrite length_app in H. simpl in H.
  rewrite app_nth1 by lia. reflexivity.
Qed.

Lemma nth_sl_lo (l : list A) i d :
  (i + 2 < length l)%nat -> nth i (sl_lo l) d = nth i l d.
Proof.
  unfold sl_lo. intros H. rewrite nth_firstn.
  destruct (Nat.ltb_spec i (length l - 2)); [reflexivity | lia].
Qed.

Lemma length_iadd_mid (add : A -> A -> A) d u :
  length u = (length d - 2)%nat -> length (iadd_mid add d u) = length d.
Proof.
  intros H. unfold iadd_mid.
  rewrite !length_app, length_map2, length_sl_mid, length_firstn, length_skipn. lia.
Qed.

Lemma nth_iadd_mid (add : A -> A -> A) d u i dd du :
  length u = (length d - 2)%nat -> (i < length d)%nat ->
  nth i (iadd_mid add d u) dd =
    if interior (length d) i then add (nth i d dd) (nth (i - 1) u du) else nth i d dd.
Proof.
  intros Hu Hi. unfold iadd_mid, interior.
  destruct i as [|i].
  - simpl. destruct d; simpl in *; [lia | reflexivity].
  - rewrite app_nth2; rewrite length_firstn; [|lia].
    replace (Nat.min 1 (length d)) with 1%nat by lia.
    replace (S i - 1)%nat with i by lia. simpl (1 <=? S i)%nat. cbv beta iota.
    destruct (Nat.ltb_spec (S i + 1) (length d)) as [Hlt|Hge]; simpl andb; cbv iota.
    + rewrite app_nth1 by (rewrite length_map2, length_sl_mid; lia).
      rewrite (nth_map2 add _ _ _ dd dd du) by (rewrite ?length_sl_mid; lia).
      rewrite nth_sl_mid by lia. do 2 f_equal. lia.
    + rewrite app_nth2; rewrite length_map2, length_sl_mid; [|lia].
      rewrite nth_skipn. f_equal. lia.
Qed.
End SliceFacts.

(** ** Shapes and cells *)

Lemma nth_map_in {A B : Type} (f : A -> B) l i d d' :
  (i < length l)%nat -> nth i (map f l) d = f (nth i l d').
Proof.
  intros H. rewrite (nth_indep _ d (f d')) by (rewrite length_map; exact H).
  apply map_nth.
Qed.

Lemma has_shape_plane n1 n2 n3 A i :
  has_shape n1 n2 n3 A -> (i < n1)%nat -> plane_shape n2 n3 (nth i A []).
Proof.
  intros [Hl HF] Hi. rewrite Forall_forall in HF. apply HF, nth_In. lia.
Qed.

Lemma plane_shape_row n2 n3 P j :
  plane_shape n2 n3 P -> (j < n2)%nat -> length (nth j P []) = n3.
Proof.
  intros [Hl HF] Hj. rewrite Forall_forall in HF. apply HF, nth_In. lia.
Qed.

Lemma has_shape_row n1 n2 n3 A i j :
  has_shape n1 n2 n3 A -> (i < n1)%nat -> (j < n2)%nat ->
  length (nth j (nth i A []) []) = n3.
Proof.
  intros HA Hi Hj. eapply plane_shape_row; eauto using has_shape_plane.
Qed.

Lemma has_shape_len_plane n1 n2 n3 A i :
  has_shape n1 n2 n3 A -> (i < n1)%nat -> length (nth i A []) = n2.
Proof. intros HA Hi. apply (has_shape_plane _ _ _ _ _ HA Hi). Qed.

Lemma Forall_map2 {A B C : Type} (P : C -> Prop) (f : A -> B -> C) l1 l2 :
  (forall i d1 d2, (i < length l1)%nat -> (i < length l2)%nat ->
     P (f (nth i l1 d1) (nth i l2 d2))) ->
  Forall P (map2 f l1 l2).
Proof.
  revert l2; induction l1 as [|a l1 IH]; intros [|b l2] H; simpl; auto.
  constructor.
  - apply (H 0%nat a b); simpl; lia.
  - apply IH. intros i d1 d2 H1 H2. apply (H (S i) d1 d2); simpl; lia.
Qed.

Lemma has_shape_amap f n1 n2 n3 A :
  has_shape n1 n2 n3 A -> has_shape n1 n2 n3 (amap f A).
Proof.
  intros [Hl HF]. unfold amap. split; [now rewrite length_map|].
  rewrite Forall_map. eapply Forall_impl; [|exact HF].
  intros P [HlP HFP]. split; [now rewrite length_map|].
  rewrite Forall_map. eapply Forall_impl; [|exact HFP].
  intros r Hr. unfold row_shape in *. now rewrite length_map.
Qed.

Lemma has_shape_amap2 f n1 n2 n3 A B :
  has_shape n1 n2 n3 A -> has_shape n1 n2 n3 B -> has_shape n1 n2 n3 (amap2 f A B).
Proof.
  intros HA HB. unfold amap2. split.
  - rewrite length_map2. destruct HA, HB. lia.
  - apply Forall_map2. intros i d1 d2 Hi1 Hi2.
    assert (Hi : (i < n1)%nat) by (destruct HA; lia).
    pose proof (has_shape_plane _ _ _ _ _ HA Hi) as HPA.
    pose proof (has_shape_plane _ _ _ _ _ HB Hi) as HPB.
    rewrite (nth_indep _ d1 []) by lia. rewrite (nth_indep _ d2 []) by lia.
    split.
    + rewrite length_map2. destruct HPA, HPB. lia.
    + apply Forall_map2. intros j e1 e2 Hj1 Hj2.
      assert (Hj : (j < n2)%nat) by (destruct HPA; lia).
      rewrite (nth_indep _ e1 []) by lia. rewrite (nth_indep _ e2 []) by lia.
      unfold row_shape. rewrite length_map2.
      rewrite (plane_shape_row _ _ _ _ HPA Hj), (plane_shape_row _ _ _ _ HPB Hj). lia.
Qed.



Lemma has_shape_zeros_like n1 n2 n3 A :
  has_shape n1 n2 n3 A -> has_shape n1 n2 n3 (np.zeros_like A).
Proof. apply has_shape_amap. Qed.


(** ** The Laplacian, cell by cell *)

Section Laplacian.
Variables (n1 n2 n3 : nat) (F : array3).
Hypothesis HF : has_shape n1 n2 n3 F.

(** [d[1:-1, :, :] += u] with [u] built from the three x-slices of [F]. *)
Lemma x_stage f d :
  has_shape n1 n2 n3 d ->
  let d' := iadd_mid (map2 (map2 PrimFloat.add)) d
              (map3 (map3 (map3 f)) (sl_hi F) (sl_mid F) (sl_lo F)) in
  has_shape n1 n2 n3 d' /\
  forall i j k, (i < n1)%nat -> (j < n2)%nat -> (k < n3)%nat ->
  cell d' i j k =
    if interior n1 i
    then (cell d i j k + f (cell F (i + 1) j k) (cell F i j k) (cell F (i - 1) j k))%float
    else cell d i j k.
Proof.
  intros Hd d'.
  assert (Hlu : length (map3 (map3 (map3 f)) (sl_hi F) (sl_mid F) (sl_lo F))
                = (length d - 2)%nat).
  { rewrite length_map3, length_sl_hi, length_sl_mid, length_sl_lo.
    destruct HF, Hd. lia. }
  assert (Hplane : forall i', (i' + 2 < n1)%nat ->
            nth i' (map3 (map3 (map3 f)) (sl_hi F) (sl_mid F) (sl_lo F)) [] =
            map3 (map3 f) (nth (i' + 2) F []) (nth (i' + 1) F []) (nth i' F [])).
  { intros i' Hi'.
    rewrite (nth_map3 _ _ _ _ _ _ [] [] [])
      by (rewrite ?length_sl_hi, ?length_sl_mid, ?length_sl_lo; destruct HF; lia).
    rewrite nth_sl_hi, nth_sl_mid, nth_sl_lo by (destruct HF; lia). reflexivity. }
  split.
  - split; [unfold d'; rewrite length_iadd_mid by exact Hlu; apply Hd|].
    apply Forall_forall. intros P HP.
    destruct (In_nth _ _ [] HP) as [i' [Hi' HPi]]. subst P.
    unfold d' in Hi'. rewrite length_iadd_mid in Hi' by exact Hlu.
    assert (Hi1 : (i' < n1)%nat) by (destruct Hd; lia).
    unfold d'. rewrite (nth_iadd_mid _ _ _ _ _ []) by (exact Hlu || lia).
    destruct (interior (length d) i') eqn:Hint; [|apply (has_shape_plane _ _ _ _ _ Hd Hi1)].
    unfold interior in Hint. apply andb_true_iff in Hint as [H1 H2].
    apply Nat.leb_le in H1. apply Nat.ltb_lt in H2.
    assert (Hn : length d = n1) by apply Hd. rewrite Hn in H2.
    rewrite Hplane by lia.
    pose proof (has_shape_plane _ _ _ _ _ Hd Hi1) as HPd.
    assert (HP0 : plane_shape n2 n3 (nth (i' - 1 + 2) F []))
      by (apply (has_shape_plane _ _ _ _ _ HF); lia).
    assert (HP1 : plane_shape n2 n3 (nth (i' - 1 + 1) F []))
      by (apply (has_shape_plane _ _ _ _ _ HF); lia).
    assert (HP2 : plane_shape n2 n3 (nth (i' - 1) F []))
      by (apply (has_shape_plane _ _ _ _ _ HF); lia).
    split.
    + rewrite length_map2, length_map3. destruct HPd, HP0, HP1, HP2. lia.
    + apply Forall_map2. intros j' e1 e2 Hj1 Hj2.
      rewrite length_map3 in Hj2.
      assert (Hj' : (j' < n2)%nat) by (destruct HPd; lia).
      rewrite (nth_indep _ e1 []) by lia.
      rewrite (nth_indep _ e2 []) by (rewrite length_map3; lia).
      rewrite (nth_map3 _ _ _ _ _ _ [] [] []) by (destruct HP0, HP1, HP2; lia).
      unfold row_shape. rewrite length_map2, length_map3.
      rewrite (plane_shape_row _ _ _ _ HPd Hj'), (plane_shape_row _ _ _ _ HP0 Hj'),
        (plane_shape_row _ _ _ _ HP1 Hj'), (plane_shape_row _ _ _ _ HP2 Hj'). lia.
  - intros i j k Hi Hj Hk.
    unfold cell, d'. rewrite (nth_iadd_mid _ _ _ _ _ []) by (exact Hlu || (destruct Hd; lia)).
    assert (Hn : length d = n1) by apply Hd. rewrite Hn.
    destruct (interior n1 i) eqn:Hint; [|reflexivity].
    unfold interior in Hint. apply andb_true_iff in Hint as [H1 H2].
    apply Nat.leb_le in H1. apply Nat.ltb_lt in H2.
    rewrite Hplane by lia.
    replace (i - 1 + 2)%nat with (i + 1)%nat by lia.
    replace (i - 1 + 1)%nat with i by lia.
    assert (HP0 : plane_shape n2 n3 (nth (i + 1) F []))
      by (apply (has_shape_plane _ _ _ _ _ HF); lia).
    assert (HP1 : plane_shape n2 n3 (nth i F []))
      by (apply (has_shape_plane _ _ _ _ _ HF); lia).
    assert (HP2 : plane_shape n2 n3 (nth (i - 1) F []))
      by (apply (has_shape_plane _ _ _ _ _ HF); lia).
    pose proof (has_shape_plane _ _ _ _ _ Hd Hi) as HPd.
    rewrite (nth_map2 _ _ _ _ _ [] [])
      by (rewrite ?length_map3; destruct HPd, HP0, HP1, HP2; lia).
    rewrite (nth_map3 _ _ _ _ _ _ [] [] []) by (destruct HP0, HP1, HP2; lia).
    rewrite (nth_map2 _ _ _ _ _ 0%float 0%float)
      by (rewrite ?length_map3, ?(plane_shape_row _ _ _ _ HPd Hj),
            ?(plane_shape_row _ _ _ _ HP0 Hj), ?(plane_shape_row _ _ _ _ HP1 Hj),
            ?(plane_shape_row _ _ _ _ HP2 Hj); lia).
    rewrite (nth_map3 _ _ _ _ _ _ 0%float 0%float 0%float)
      by (rewrite ?(plane_shape_row _ _ _ _ HP0 Hj), ?(plane_shape_row _ _ _ _ HP1 Hj),
            ?(plane_shape_row _ _ _ _ HP2 Hj); lia).
    reflexivity.
Qed.

(** One row: [d[1:-1] += u] with [u] built from the three slices of [r]. *)
Lemma row_stage f (d r : list float) :
  length d = n3 -> length r = n3 ->
  let d' := iadd_mid PrimFloat.add d (map3 f (sl_hi r) (sl_mid r) (sl_lo r)) in
  length d' = n3 /\
  forall k, (k < n3)%nat ->
  nth k d' 0%float =
    if interior n3 k
    then (nth k d 0 + f (nth (k + 1) r 0) (nth k r 0) (nth (k - 1) r 0))%float
    else nth k d 0%float.
Proof.
  intros Hd Hr d'.
  assert (Hlu : length (map3 f (sl_hi r) (sl_mid r) (sl_lo r)) = (length d - 2)%nat).
  { rewrite length_map3, length_sl_hi, length_sl_mid, length_sl_lo. lia. }
  split; [unfold d'; rewrite length_iadd_mid by exact Hlu; exact Hd|].
  intros k Hk.
  unfold d'. rewrite (nth_iadd_mid _ _ _ _ _ 0%float) by (exact Hlu || lia).
  rewrite Hd. destruct (interior n3 k) eqn:Hint; [|reflexivity].
  unfold interior in Hint. apply andb_true_iff in Hint as [H1 H2].
  apply Nat.leb_le in H1. apply Nat.ltb_lt in H2.
  rewrite (nth_map3 _ _ _ _ _ _ 0%float 0%float 0%float)
    by (rewrite ?length_sl_hi, ?length_sl_mid, ?length_sl_lo; lia).
  rewrite nth_sl_hi, nth_sl_mid, nth_sl_lo by lia.
  replace (k - 1 + 2)%nat with (k + 1)%nat by lia.
  replace (k - 1 + 1)%nat with k by lia. reflexivity.
Qed.

(** One plane: [d[1:-1, :] += u] with [u] built from the three row-slices
    of [P]. *)
Lemma plane_stage f (d P : list (list float)) :
  plane_shape n2 n3 d -> plane_shape n2 n3 P ->
  let d' := iadd_mid (map2 PrimFloat.add) d
              (map3 (map3 f) (sl_hi P) (sl_mid P) (sl_lo P)) in
  plane_shape n2 n3 d' /\
  forall j k, (j < n2)%nat -> (k < n3)%nat ->
  nth k (nth j d' []) 0%float =
    if interior n2 j
    then (nth k (nth j d []) 0
          + f (nth k (nth (j + 1) P []) 0) (nth k (nth j P []) 0)
              (nth k (nth (j - 1) P []) 0))%float
    else nth k (nth j d []) 0%float.
Proof.
  intros Hd HP d'.
  assert (Hld : length d = n2) by apply Hd.
  assert (HlP : length P = n2) by apply HP.
  assert (Hlu : length (map3 (map3 f) (sl_hi P) (sl_mid P) (sl_lo P)) = (length d - 2)%nat).
  { rewrite length_map3, length_sl_hi, length_sl_mid, length_sl_lo. lia. }
  assert (Hrow : forall j', (j' + 2 < n2)%nat ->
            nth j' (map3 (map3 f) (sl_hi P) (sl_mid P) (sl_lo P)) [] =
            map3 f (nth (j' + 2) P []) (nth (j' + 1) P []) (nth j' P [])).
  { intros j' Hj'.
    rewrite (nth_map3 _ _ _ _ _ _ [] [] [])
      by (rewrite ?length_sl_hi, ?length_sl_mid, ?length_sl_lo; lia).
    rewrite nth_sl_hi, nth_sl_mid, nth_sl_lo by lia. reflexivity. }
  assert (Hstep : forall j', (j' < n2)%nat ->
            length (nth j' d' []) = n3 /\
            forall k, (k < n3)%nat ->
            (nth k (nth j' d' []) 0%float =
             if interior n2 j'
             then (nth k (nth j' d []) 0
                   + f (nth k (nth (j' + 1) P []) 0) (nth k (nth j' P []) 0)
                       (nth k (nth (j' - 1) P []) 0))%float
             else nth k (nth j' d []) 0%float)).
  { intros j' Hj'. unfold d'.
    rewrite (nth_iadd_mid _ _ _ _ _ []) by (exact Hlu || lia).
    rewrite Hld. destruct (interior n2 j') eqn:Hint.
    - unfold interior in Hint. apply andb_true_iff in Hint as [H1 H2].
      apply Nat.leb_le in H1. apply Nat.ltb_lt in H2.
      rewrite Hrow by lia.
      replace (j' - 1 + 2)%nat with (j' + 1)%nat by lia.
      replace (j' - 1 + 1)%nat with j' by lia.
      assert (L0 : length (nth j' d []) = n3) by (apply (plane_shape_row _ _ _ _ Hd); lia).
      assert (L1 : length (nth (j' + 1) P []) = n3) by (apply (plane_shape_row _ _ _ _ HP); lia).
      assert (L2 : length (nth j' P []) = n3) by (apply (plane_shape_row _ _ _ _ HP); lia).
      assert (L3 : length (nth (j' - 1) P []) = n3) by (apply (plane_shape_row _ _ _ _ HP); lia).
      split; [rewrite length_map2, length_map3; lia|].
      intros k Hk.
      rewrite (nth_map2 _ _ _ _ _ 0%float 0%float) by (rewrite ?length_map3; lia).
      rewrite (nth_map3 _ _ _ _ _ _ 0%float 0%float 0%float) by lia. reflexivity.
    - split; [apply (plane_shape_row _ _ _ _ Hd); lia | reflexivity]. }
  split; [|intros j k Hj Hk; apply Hstep; assumption].
  split; [unfold d'; rewrite length_iadd_mid by exact Hlu; exact Hld|].
  apply Forall_forall. intros r Hr.
  destruct (In_nth _ _ [] Hr) as [j' [Hj' Hrj]]. subst r.
  unfold d' in Hj'. rewrite length_iadd_mid in Hj' by exact Hlu.
  apply Hstep. lia.
Qed.

(** [d[:, 1:-1, :] += u] *)
Lemma y_stage f d :
  has_shape n1 n2 n3 d ->
  let d' := map2 (iadd_mid (map2 PrimFloat.add)) d
              (map (fun P => map3 (map3 f) (sl_hi P) (sl_mid P) (sl_lo P)) F) in
  has_shape n1 n2 n3 d' /\
  forall i j k, (i < n1)%nat -> (j < n2)%nat -> (k < n3)%nat ->
  cell d' i j k =
    if interior n2 j
    then (cell d i j k + f (cell F i (j + 1) k) (cell F i j k) (cell F i (j - 1) k))%float
    else cell d i j k.
Proof.
  intros Hd d'.
  assert (Hld : length d = n1) by apply Hd.
  assert (HlF : length F = n1) by apply HF.
  assert (Hnth : forall i', (i' < n1)%nat ->
            nth i' d' [] =
            iadd_mid (map2 PrimFloat.add) (nth i' d [])
              (map3 (map3 f) (sl_hi (nth i' F [])) (sl_mid (nth i' F [])) (sl_lo (nth i' F [])))).
  { intros i' Hi'. unfold d'.
    rewrite (nth_map2 _ _ _ _ _ [] []) by (rewrite ?length_map; lia).
    f_equal. apply (nth_map_in (fun P => map3 (map3 f) (sl_hi P) (sl_mid P) (sl_lo P))). lia. }
  split.
  - split; [unfold d'; rewrite length_map2, length_map; lia|].
    apply Forall_forall. intros P HP.
    destruct (In_nth _ _ [] HP) as [i' [Hi' HPi]]. subst P.
    unfold d' in Hi'. rewrite length_map2, length_map in Hi'.
    rewrite Hnth by lia.
    apply plane_stage;
      [apply (has_shape_plane _ _ _ _ _ Hd) | apply (has_shape_plane _ _ _ _ _ HF)]; lia.
  - intros i j k Hi Hj Hk. unfold cell. rewrite Hnth by lia.
    apply plane_stage; auto;
      [apply (has_shape_plane _ _ _ _ _ Hd) | apply (has_shape_plane _ _ _ _ _ HF)]; lia.
Qed.

(** [d[:, :, 1:-1] += u] *)
Lemma z_stage f d :
  has_shape n1 n2 n3 d ->
  let d' := map2 (map2 (iadd_mid PrimFloat.add)) d
              (map (map (fun r => map3 f (sl_hi r) (sl_mid r) (sl_lo r))) F) in
  has_shape n1 n2 n3 d' /\
  forall i j k, (i < n1)%nat -> (j < n2)%nat -> (k < n3)%nat ->
  cell d' i j k =
    if interior n3 k
    then (cell d i j k + f (cell F i j (k + 1)) (cell F i j k) (cell F i j (k - 1)))%float
    else cell d i j k.
Proof.
  intros Hd d'.
  assert (Hld : length d = n1) by apply Hd.
  assert (HlF : length F = n1) by apply HF.
  assert (Hlen : forall i', (i' < n1)%nat -> length (nth i' d' []) = n2).
  { intros i' Hi'. unfold d'.
    rewrite (nth_map2 _ _ _ _ _ [] []) by (rewrite ?length_map; lia).
    rewrite (nth_map_in _ _ _ _ []) by lia.
    pose proof (has_shape_len_plane _ _ _ _ _ Hd Hi') as L1.
    pose proof (has_shape_len_plane _ _ _ _ _ HF Hi') as L2.
    rewrite length_map2, length_map; lia. }
  assert (Hnth : forall i' j', (i' < n1)%nat -> (j' < n2)%nat ->
            nth j' (nth i' d' []) [] =
            iadd_mid PrimFloat.add (nth j' (nth i' d []) [])
              (map3 f (sl_hi (nth j' (nth i' F []) [])) (sl_mid (nth j' (nth i' F []) []))
                      (sl_lo (nth j' (nth i' F []) [])))).
  { intros i' j' Hi' Hj'. unfold d'.
    rewrite (nth_map2 _ _ _ _ _ [] []) by (rewrite ?length_map; lia).
    rewrite (nth_map_in _ _ _ _ []) by lia.
    pose proof (has_shape_len_plane _ _ _ _ _ Hd Hi') as L1.
    pose proof (has_shape_len_plane _ _ _ _ _ HF Hi') as L2.
    rewrite (nth_map2 _ _ _ _ _ [] []) by (rewrite ?length_map; lia).
    f_equal. apply (nth_map_in (fun r => map3 f (sl_hi r) (sl_mid r) (sl_lo r))). lia. }
  split.
  - split; [unfold d'; rewrite length_map2, !length_map; lia|].
    apply Forall_forall. intros P HP.
    destruct (In_nth _ _ [] HP) as [i' [Hi' HPi]]. subst P.
    unfold d' in Hi'. rewrite length_map2, length_map in Hi'.
    assert (Hi1 : (i' < n1)%nat) by lia.
    split; [apply Hlen; auto|].
    apply Forall_forall. intros r Hr.
    destruct (In_nth _ _ [] Hr) as [j' [Hj' Hrj]]. subst r.
    rewrite (Hlen i' Hi1) in Hj'.
    rewrite (Hnth i' j' Hi1 Hj').
    apply row_stage; apply has_shape_row with (n1 := n1) (n2 := n2); auto.
  - intros i j k Hi Hj Hk. unfold cell. rewrite (Hnth i j Hi Hj).
    apply row_stage; auto; apply has_shape_row with (n1 := n1) (n2 := n2); auto.
Qed.

Lemma laplacian_3d_shape dx dy dz :
  has_shape n1 n2 n3 (laplacian_3d F dx dy dz).
Proof.
  unfold laplacian_3d.
  pose proof (has_shape_zeros_like _ _ _ _ HF) as H0.
  destruct (x_stage (second_diff (sq dx)) _ H0) as [H1 _].
  destruct (y_stage (second_diff (sq dy)) _ H1) as [H2 _].
  destruct (z_stage (second_diff (sq dz)) _ H2) as [H3 _].
  exact H3.
Qed.

End Laplacian.

(** ** Binary64 facts used by the clamp and the stability check *)


Lemma Prim2SF_1e5 : Prim2SF 1e5 = hi_bound.
Proof. reflexivity. Qed.

Lemma Prim2SF_m1e5 : Prim2SF (-1e5) = SFopp hi_bound.
Proof. reflexivity. Qed.

Lemma is_nan_spec x : is_nan x = match Prim2SF x with S754_nan => true | _ => false end.
Proof.
  unfold is_nan. rewrite eqb_spec. unfold SFeqb.
  destruct (Prim2SF x) as [s|s| |s m e]; simpl; auto.
  - destruct s; reflexivity.
  - rewrite Z.compare_refl, Pos.compare_cont_refl. destruct s; reflexivity.
Qed.

Lemma is_infinity_spec x :
  is_infinity x = match Prim2SF x with S754_infinity _ => true | _ => false end.
Proof.
  unfold is_infinity. rewrite eqb_spec, abs_spec.
  change (Prim2SF infinity) with (S754_infinity false).
  destruct (Prim2SF x) as [s|s| |s m e]; reflexivity.
Qed.

Lemma is_finite_spec x :
  is_finite x = match Prim2SF x with S754_zero _ | S754_finite _ _ _ => true | _ => false end.
Proof.
  unfold is_finite. rewrite is_nan_spec, is_infinity_spec.
  destruct (Prim2SF x); reflexivity.
Qed.

Lemma SFcompare_finite_pos_swap m1 e1 m2 e2 :
  SFcompare (S754_finite true m1 e1) (S754_finite true m2 e2) = Some Lt ->
  SFcompare (S754_finite false m2 e2) (S754_finite false m1 e1) = Some Lt.
Proof.
  simpl. rewrite (Z.compare_antisym e1 e2).
  change (Pos.compare_cont Eq m1 m2) with (Pos.compare m1 m2).
  change (Pos.compare_cont Eq m2 m1) with (Pos.compare m2 m1).
  rewrite (Pos.compare_antisym m1 m2).
  destruct (e1 ?= e2)%Z, (m1 ?= m2)%positive; simpl; congruence.
Qed.

(** Strictly between [-b] and [b] means finite and at most [b] in magnitude. *)
Lemma SF_between_abs x mb eb :
  SFltb (S754_finite true mb eb) x = true ->
  SFltb x (S754_finite false mb eb) = true ->
  SFleb (SFabs x) (S754_finite false mb eb) = true /\
  match x with S754_zero _ | S754_finite _ _ _ => True | _ => False end.
Proof.
  unfold SFltb, SFleb. destruct x as [s|s| |s m e]; simpl.
  - auto.
  - destruct s; discriminate.
  - discriminate.
  - destruct s.
    + intros H _. split; [|exact I].
      assert (H' : SFcompare (S754_finite true mb eb) (S754_finite true m e) = Some Lt).
      { simpl. destruct (match (eb ?= e)%Z with Eq => CompOpp (Pos.compare_cont Eq mb m) | Lt => Gt | Gt => Lt end);
          congruence. }
      apply SFcompare_finite_pos_swap in H'. simpl in H'.
      injection H' as ->. reflexivity.
    + intros _ H. split; [|exact I].
      destruct (match (e ?= eb)%Z with Eq => Pos.compare_cont Eq m mb | Lt => Lt | Gt => Gt end);
        congruence.
Qed.

Lemma clip1_nan x lo hi : is_nan x = true -> np.clip1 x lo hi = x.
Proof. intros H. unfold np.clip1. now rewrite H, H. Qed.

(** A value that is not NaN leaves the clamp finite and inside the range. *)
Lemma clip1_bounded x :
  is_nan x = false ->
  is_finite (np.clip1 x (-1e5) 1e5) = true /\
  (abs (np.clip1 x (-1e5) 1e5) <=? 1e5) = true.
Proof.
  intros Hx. unfold np.clip1. rewrite Hx.
  destruct (-1e5 <? x) eqn:Hlo.
  - rewrite Hx. destruct (x <? 1e5) eqn:Hhi; [|split; reflexivity].
    rewrite ltb_spec in Hlo, Hhi. rewrite Prim2SF_m1e5 in Hlo. rewrite Prim2SF_1e5 in Hhi.
    destruct (SF_between_abs _ _ _ Hlo Hhi) as [Hb Hf].
    split.
    + rewrite is_finite_spec. destruct (Prim2SF x); auto; contradiction.
    + rewrite leb_spec, abs_spec, Prim2SF_1e5. exact Hb.
  - split; reflexivity.
Qed.

Lemma clip1_finite_iff x : is_finite (np.clip1 x (-1e5) 1e5) = negb (is_nan x).
Proof.
  destruct (is_nan x) eqn:Hx.
  - rewrite clip1_nan by exact Hx. unfold is_finite. now rewrite Hx.
  - now rewrite (proj1 (clip1_bounded x Hx)).
Qed.

Lemma clip1_infinity : np.clip1 infinity (-1e5) 1e5 = 1e5.
Proof. reflexivity. Qed.

Lemma clip1_neg_infinity : np.clip1 neg_infinity (-1e5) 1e5 = (-1e5)%float.
Proof. reflexivity. Qed.

Lemma mul_comm (x y : float) : (x * y = y * x)%float.
Proof.
  apply Prim2SF_inj. rewrite !mul_spec. unfold SF64mul, SFmul.
  destruct (Prim2SF x) as [sx|sx| |sx mx ex], (Prim2SF y) as [sy|sy| |sy my ey];
    rewrite ?(xorb_comm sy sx), ?(Pos.mul_comm my mx), ?(Z.add_comm ey ex); reflexivity.
Qed.

(** ** Shapes of the arrays a run builds *)

Lemma length_linspace start stop num l :
  np.linspace start stop num = Ok l -> length l = Z.to_nat num.
Proof.
  unfold np.linspace. destruct (num <? 0)%Z eqn:Hn; [discriminate|].
  intros H. injection H as <-.
  destruct (1 <? num)%Z eqn:H1.
  - rewrite length_app. simpl.
    assert (Hl : forall y : list float, length y = Z.to_nat num ->
                 (length (removelast y) + 1 = Z.to_nat num)%nat).
    { intros y Hy. destruct y as [|a y] using rev_ind.
      - simpl in Hy. apply Z.ltb_lt in H1. lia.
      - rewrite removelast_last. rewrite length_app in Hy. simpl in Hy. lia. }
    apply Hl. destruct (0 <? num - 1)%Z; [destruct (_ =? _)|];
      now rewrite !length_map, length_seq.
  - destruct (0 <? num - 1)%Z; [destruct (_ =? _)|];
      now rewrite !length_map, length_seq.
Qed.

Lemma linspace_ok start stop num :
  (0 <= num)%Z -> exists l, np.linspace start stop num = Ok l.
Proof.
  intros H. unfold np.linspace.
  destruct (Z.ltb_spec num 0); [lia|]. eexists; reflexivity.
Qed.

Lemma Forall_repeat {A : Type} (P : A -> Prop) a n : P a -> Forall P (repeat a n).
Proof. intros H. induction n; simpl; constructor; auto. Qed.

Lemma has_shape_meshgrid x y z :
  let '(X, Y, Z_) := np.meshgrid x y z in
  has_shape (length x) (length y) (length z) X /\
  has_shape (length x) (length y) (length z) Y /\
  has_shape (length x) (length y) (length z) Z_.
Proof.
  unfold np.meshgrid, has_shape, plane_shape, row_shape. repeat split.
  - apply length_map.
  - rewrite Forall_map. apply Forall_forall. intros xi _. split.
    + apply repeat_length.
    + apply Forall_repeat, repeat_length.
  - apply repeat_length.
  - apply Forall_repeat. split.
    + apply length_map.
    + rewrite Forall_map. apply Forall_forall. intros yi _. apply repeat_length.
  - apply repeat_length.
  - apply Forall_repeat. split.
    + apply repeat_length.
    + apply Forall_repeat. reflexivity.
Qed.

Lemma define_ricci_3d_grid params R :
  define_ricci_3d params = Ok R -> grid params R.
Proof.
  unfold define_ricci_3d, grid.
  destruct (np.linspace _ _ params.(nx)) as [x|] eqn:Hx; [|discriminate].
  destruct (np.linspace _ _ params.(ny)) as [y|] eqn:Hy; [|discriminate].
  destruct (np.linspace _ _ params.(nz)) as [z|] eqn:Hz; [|discriminate].
  simpl. intros H. injection H as <-.
  apply length_linspace in Hx, Hy, Hz. rewrite <- Hx, <- Hy, <- Hz.
  pose proof (has_shape_meshgrid x y z) as HM. unfold np.meshgrid in HM.
  destruct HM as (HX & HY & HZ).
  repeat apply has_shape_amap. repeat apply has_shape_amap2; apply has_shape_amap; assumption.
Qed.

Lemma define_ricci_3d_ok params :
  (0 <= params.(nx))%Z -> (0 <= params.(ny))%Z -> (0 <= params.(nz))%Z ->
  exists R, define_ricci_3d params = Ok R.
Proof.
  intros Hx Hy Hz. unfold define_ricci_3d.
  destruct (linspace_ok (Z2float (- params.(nx)) / 2) (Z2float params.(nx) / 2) _ Hx) as [x ->].
  destruct (linspace_ok (Z2float (- params.(ny)) / 2) (Z2float params.(ny) / 2) _ Hy) as [y ->].
  destruct (linspace_ok (Z2float (- params.(nz)) / 2) (Z2float params.(nz) / 2) _ Hz) as [z ->].
  simpl. eexists; reflexivity.
Qed.

Section ProgramFacts.
Context {ext : Extern}.

Lemma draw_list_length {A : Type} (one : rng -> A * rng) n s :
  length (fst (np.draw_list one n s)) = n.
Proof.
  revert s; induction n as [|n IH]; intros s; simpl; auto.
  destruct (one s) as [a s1]. specialize (IH s1).
  destruct (np.draw_list one n s1) as [l s2]. simpl in *. now rewrite IH.
Qed.

Lemma draw_list_Forall {A : Type} (P : A -> Prop) (one : rng -> A * rng) n s :
  (forall s', P (fst (one s'))) -> Forall P (fst (np.draw_list one n s)).
Proof.
  intros H. revert s; induction n as [|n IH]; intros s; simpl; auto.
  pose proof (H s) as Hs. destruct (one s) as [a s1]. specialize (IH s1).
  destruct (np.draw_list one n s1) as [l s2]. simpl in *. constructor; auto.
Qed.

Lemma rand_shape n1 n2 n3 s r s' :
  np.rand n1 n2 n3 s = Ok (r, s') ->
  has_shape (Z.to_nat n1) (Z.to_nat n2) (Z.to_nat n3) r.
Proof.
  unfold np.rand. destruct (_ || _)%bool; [discriminate|].
  intros H. injection H as H.
  assert (Hr : r = fst (np.draw_list
              (np.draw_list (np.draw_list random_sample (Z.to_nat n3)) (Z.to_nat n2))
              (Z.to_nat n1) s)) by now rewrite H.
  subst r. split; [apply draw_list_length|].
  apply draw_list_Forall. intros s1. split; [apply draw_list_length|].
  apply draw_list_Forall. intros s2. apply draw_list_length.
Qed.

Lemma initialize_field_3d_grid params s F Fp s' :
  initialize_field_3d params s = Ok ((F, Fp), s') ->
  grid params F /\ Fp = F.
Proof.
  unfold initialize_field_3d, grid. destruct params.(random_init).
  - destruct (np.rand _ _ _ _) as [[r s1]|] eqn:Hr; [|discriminate].
    simpl. intros H. injection H as <- <- _.
    split; [|reflexivity]. apply has_shape_amap. eapply rand_shape; eauto.
  - destruct (np.linspace _ _ params.(nx)) as [x|] eqn:Hx; [|discriminate].
    destruct (np.linspace _ _ params.(ny)) as [y|] eqn:Hy; [|discriminate].
    destruct (np.linspace _ _ params.(nz)) as [z|] eqn:Hz; [|discriminate].
    simpl. intros H. injection H as <- <- _.
    split; [|reflexivity].
    apply length_linspace in Hx, Hy, Hz. rewrite <- Hx, <- Hy, <- Hz.
    pose proof (has_shape_meshgrid x y z) as HM. unfold np.meshgrid in HM.
    destruct HM as (HX & HY & HZ).
    repeat apply has_shape_amap2; repeat apply has_shape_amap; assumption.
Qed.

Lemma initialize_field_3d_ok params s :
  (0 <= params.(nx))%Z -> (0 <= params.(ny))%Z -> (0 <= params.(nz))%Z ->
  exists F s', initialize_field_3d params s = Ok ((F, F), s').
Proof.
  intros Hx Hy Hz. unfold initialize_field_3d. destruct params.(random_init).
  - unfold np.rand.
    destruct (Z.ltb_spec params.(nx) 0); [lia|].
    destruct (Z.ltb_spec params.(ny) 0); [lia|].
    destruct (Z.ltb_spec params.(nz) 0); [lia|]. simpl.
    destruct (np.draw_list _ _ _) as [r s1]. simpl. eauto.
  - destruct (linspace_ok 0 np.pi _ Hx) as [x ->].
    destruct (linspace_ok 0 np.pi _ Hy) as [y ->].
    destruct (linspace_ok 0 np.pi _ Hz) as [z ->].
    simpl. eauto.
Qed.
End ProgramFacts.

(** ** One step of the loop *)

Section StepFacts.
Context {ext : Extern}.
Variables (params : CoupledParams3D) (R_field : array3) (n1 n2 n3 : nat).
Hypothesis HR : has_shape n1 n2 n3 R_field.

Lemma E_new_damped_shape t F Fp :
  has_shape n1 n2 n3 F -> has_shape n1 n2 n3 Fp ->
  has_shape n1 n2 n3 (E_new_damped params R_field t F Fp).
Proof.
  intros HF HFp. unfold E_new_damped.
  pose proof (laplacian_3d_shape _ _ _ _ HF params.(dx) params.(dy) params.(dz)) as HL.
  repeat first [apply has_shape_amap | apply has_shape_amap2]; assumption.
Qed.

Lemma E_new_shape t F Fp :
  has_shape n1 n2 n3 F -> has_shape n1 n2 n3 Fp ->
  has_shape n1 n2 n3 (E_new params R_field t F Fp).
Proof.
  intros HF HFp. unfold E_new, np.clip. apply has_shape_amap.
  now apply E_new_damped_shape.
Qed.

End StepFacts.

(** ** The loop *)

Lemma range_succ t : (0 <= t)%Z -> range (t + 1) = range t ++ [t].
Proof.
  intros H. unfold range.
  replace (Z.to_nat (t + 1)) with (Z.to_nat t + 1)%nat by lia.
  rewrite seq_app, map_app. simpl. f_equal. f_equal. lia.
Qed.

Lemma map_of_nat_seq n a :
  map Z.of_nat (seq a n) = map (fun i => (Z.of_nat a + Z.of_nat i)%Z) (seq 0 n).
Proof.
  revert a. induction n as [|n IH]; intros a; simpl; [reflexivity|].
  f_equal; [lia|]. rewrite IH, <- seq_shift, map_map.
  apply map_ext. intros i. lia.
Qed.

Lemma range_split t T :
  (0 <= t <= T)%Z -> range T = range t ++ steps_from t (Z.to_nat (T - t)).
Proof.
  intros H. unfold range, steps_from.
  replace (Z.to_nat T) with (Z.to_nat t + Z.to_nat (T - t))%nat by lia.
  rewrite seq_app, map_app. f_equal. simpl.
  rewrite map_of_nat_seq. apply map_ext. intros i. lia.
Qed.

Lemma steps_from_cons t n : steps_from t (S n) = t :: steps_from (t + 1) n.
Proof.
  unfold steps_from. simpl. f_equal; [lia|].
  rewrite <- seq_shift, map_map. apply map_ext. intros i. lia.
Qed.

Lemma in_range t T : In t (range T) <-> (0 <= t < T)%Z.
Proof.
  unfold range. rewrite in_map_iff. split.
  - intros (i & <- & Hi). apply in_seq in Hi. lia.
  - intros H. exists (Z.to_nat t). split; [lia|]. apply in_seq. lia.
Qed.

Lemma length_list_set l t v : length (list_set l t v) = length l.
Proof. revert t; induction l as [|x l IH]; intros [|t]; simpl; auto. Qed.

Lemma nth_list_set_other l t v i d : i <> t -> nth i (list_set l t v) d = nth i l d.
Proof.
  revert t i; induction l as [|x l IH]; intros [|t] [|i] H; simpl; auto; try congruence.
Qed.

Lemma nth_list_set_same l t v d : (t < length l)%nat -> nth t (list_set l t v) d = v.
Proof.
  revert t; induction l as [|x l IH]; intros [|t] H; simpl in *; auto; try lia.
  apply IH. lia.
Qed.

Section LoopFacts.
Context {ext : Extern}.
Variables (params : CoupledParams3D) (R_field : array3).

Lemma pde_loop_app ts1 ts2 st :
  pde_loop params R_field (ts1 ++ ts2) st =
    ('(fin, st1) <- pde_loop params R_field ts1 st ;;
     match fin with
     | Completed => pde_loop params R_field ts2 st1
     | Diverged t => Ok (Diverged t, st1)
     end).
Proof.
  revert st. induction ts1 as [|t ts1 IH]; intros st; simpl; [reflexivity|].
  destruct (negb _); [reflexivity|].
  destruct (np.max _) as [m|e]; simpl; [apply IH | reflexivity].
Qed.

(** The loop writes the metrics only at the indices it runs through. *)
Lemma pde_loop_metrics ts st fin st' :
  pde_loop params R_field ts st = Ok (fin, st') ->
  length st'.(max_amplitudes) = length st.(max_amplitudes) /\
  length st'.(energy_over_time) = length st.(energy_over_time) /\
  forall i, (forall t, In t ts -> Z.to_nat t <> i) ->
    nth i st'.(max_amplitudes) 0 = nth i st.(max_amplitudes) 0 /\
    nth i st'.(energy_over_time) 0 = nth i st.(energy_over_time) 0.
Proof.
  revert st. induction ts as [|t ts IH]; intros st; simpl.
  - intros H. injection H as _ <-. auto.
  - destruct (negb _).
    + intros H. injection H as _ <-. auto.
    + destruct (np.max _) as [m|e]; simpl; [|discriminate].
      intros H. apply IH in H. simpl in H. destruct H as (L1 & L2 & Hn).
      rewrite length_list_set in L1, L2. repeat split; auto.
      * rewrite (proj1 (Hn i (fun t' Ht' => H t' (or_intror Ht')))).
        apply nth_list_set_other. intros ->. apply (H t); auto.
      * rewrite (proj2 (Hn i (fun t' Ht' => H t' (or_intror Ht')))).
        apply nth_list_set_other. intros ->. apply (H t); auto.
Qed.

(** The field a loop ends with is the one it started with, or what a
    step that passed the stability check left. *)
Lemma pde_loop_field ts st fin st' :
  pde_loop params R_field ts st = Ok (fin, st') ->
  st'.(E) = st.(E) \/
  exists t F Fp, In t ts /\ st'.(E) = E_new params R_field t F Fp /\
                 np.isfinite_all (E_new params R_field t F Fp) = true.
Proof.
  revert st. induction ts as [|t ts IH]; intros st; simpl.
  - intros H. injection H as _ <-. auto.
  - destruct (negb _) eqn:Hfin.
    + intros H. injection H as _ <-. auto.
    + destruct (np.max _) as [m|e]; simpl; [|discriminate].
      intros H. apply IH in H. simpl in H. right.
      apply negb_false_iff in Hfin.
      destruct H as [H | (t' & F & Fp & Hin & HE & Hf)].
      * exists t, st.(E), st.(E_prev). auto.
      * exists t', F, Fp. auto.
Qed.

Lemma pde_loop_shape n1 n2 n3 ts st fin st' :
  has_shape n1 n2 n3 R_field ->
  has_shape n1 n2 n3 st.(E) -> has_shape n1 n2 n3 st.(E_prev) ->
  pde_loop params R_field ts st = Ok (fin, st') ->
  has_shape n1 n2 n3 st'.(E) /\ has_shape n1 n2 n3 st'.(E_prev).
Proof.
  intros HR. revert st. induction ts as [|t ts IH]; intros st HE HEp; simpl.
  - intros H. injection H as _ <-. auto.
  - destruct (negb _).
    + intros H. injection H as _ <-. auto.
    + destruct (np.max _) as [m|e]; simpl; [|discriminate].
      intros H. apply IH in H; auto. simpl. now apply E_new_shape.
Qed.
End LoopFacts.

(** ** The clamp, the stability check and the maximum *)

Lemma flat_amap f A : flat (amap f A) = map f (flat A).
Proof.
  unfold flat, amap. now rewrite !concat_map.
Qed.

Lemma isfinite_all_clip A :
  np.isfinite_all (np.clip A (-1e5) 1e5) = forallb (fun x => negb (is_nan x)) (flat A).
Proof.
  unfold np.isfinite_all, np.clip. rewrite flat_amap.
  induction (flat A) as [|x l IH]; simpl; [reflexivity|].
  now rewrite clip1_finite_iff, IH.
Qed.

Lemma clip_finite_bounded A :
  np.isfinite_all (np.clip A (-1e5) 1e5) = true -> amp_bounded (np.clip A (-1e5) 1e5).
Proof.
  rewrite isfinite_all_clip. unfold amp_bounded, np.clip. rewrite flat_amap.
  induction (flat A) as [|x l IH]; simpl; [constructor|].
  intros H. apply andb_true_iff in H as [Hx Hl]. apply negb_true_iff in Hx.
  constructor; [apply clip1_bounded; exact Hx | apply IH; exact Hl].
Qed.

Lemma fold_maximum_in xs x : In (fold_left np.maximum xs x) (x :: xs).
Proof.
  revert x. induction xs as [|y xs IH]; intros x; simpl; [auto|].
  destruct (IH (np.maximum x y)) as [H|H]; [|auto].
  unfold np.maximum in H at 1. destruct (_ || _)%bool; auto.
Qed.

Lemma np_max_in A m : np.max A = Ok m -> In m (flat A).
Proof.
  unfold np.max. destruct (flat A) as [|x xs]; [discriminate|].
  intros H. injection H as <-. apply fold_maximum_in.
Qed.

Lemma np_max_ok A : flat A <> [] -> exists m, np.max A = Ok m.
Proof.
  unfold np.max. destruct (flat A) as [|x xs]; [congruence|]. eauto.
Qed.

(** The maximum of the magnitudes of a bounded field is at most [1e5]. *)
Lemma np_max_abs_bounded A m :
  amp_bounded A -> np.max (np.abs A) = Ok m -> (m <=? 1e5) = true.
Proof.
  intros HA Hm. apply np_max_in in Hm. unfold np.abs in Hm.
  rewrite flat_amap in Hm. apply in_map_iff in Hm as (x & <- & Hx).
  unfold amp_bounded in HA. rewrite Forall_forall in HA. apply HA, Hx.
Qed.

Lemma flat_nonempty a b c0 A : has_shape (S a) (S b) (S c0) A -> flat A <> [].
Proof.
  intros [Hl HF]. destruct A as [|P A]; [discriminate|].
  apply Forall_inv in HF. destruct HF as [HlP HFP].
  destruct P as [|r P]; [discriminate|].
  apply Forall_inv in HFP. destruct r as [|x r]; [discriminate|].
  discriminate.
Qed.

Section Totality.
Context {ext : Extern}.
Variables (params : CoupledParams3D) (R_field : array3) (a b c0 : nat).
Hypothesis HR : has_shape (S a) (S b) (S c0) R_field.

(** On a grid with at least one cell the loop raises nothing. *)
Lemma pde_loop_ok ts st :
  has_shape (S a) (S b) (S c0) st.(E) -> has_shape (S a) (S b) (S c0) st.(E_prev) ->
  exists fin st', pde_loop params R_field ts st = Ok (fin, st').
Proof.
  revert st. induction ts as [|t ts IH]; intros st HE HEp; simpl; [eauto|].
  destruct (negb _); [eauto|].
  pose proof (E_new_shape params R_field _ _ _ HR t _ _ HE HEp) as HN.
  destruct (np_max_ok (np.abs (E_new params R_field t st.(E) st.(E_prev)))) as [m ->].
  { apply (flat_nonempty a b c0). apply has_shape_amap, HN. }
  simpl. apply IH; simpl; auto.
Qed.
End Totality.

(* ------------------------------------------------------------------ *)
(** * The claims *)


(** ** The run, unfolded *)

Section RunFacts.
Context {ext : Extern}.

Lemma zeros_ok n : (0 <= n)%Z -> np.zeros n = Ok (repeat 0 (Z.to_nat n)).
Proof. intros H. unfold np.zeros. destruct (Z.ltb_spec n 0); [lia | reflexivity]. Qed.

Lemma run_with_status_eq params s R_field F0 Fp0 s1 :
  define_ricci_3d params = Ok R_field ->
  initialize_field_3d params s = Ok ((F0, Fp0), s1) ->
  (0 <= params.(time_steps))%Z ->
  run_with_status params s =
    ('(fin, st) <- pde_loop params R_field (range params.(time_steps))
                     (entry_state params F0 Fp0) ;;
     Ok (fin, st, R_field, s1)).
Proof.
  intros HR HI HT. unfold run_with_status. rewrite HR, HI. simpl.
  rewrite (zeros_ok _ HT). reflexivity.
Qed.

Lemma run_single_sim_realtime_eq params alpha_val beta_val s :
  run_single_sim_realtime params alpha_val beta_val s =
    ('(_, st, R_field, s1) <- run_with_status params s ;;
     Ok ((st.(E), st.(max_amplitudes), st.(energy_over_time), R_field), s1)).
Proof. reflexivity. Qed.


End RunFacts.

(** ** C1 *)



(** ** C2 *)




(** ** C3 *)



(** ** C10 *)

(** C10.  The stability check fails exactly when the field has a NaN before
    the clamp: the clamp sends [+inf] to [1e5] and [-inf] to [-1e5] and
    leaves a NaN in place, so a step whose field holds infinities and no NaN
    does not stop the run, and a step stops the run only on a NaN. *)
Theorem only_nan_stops_run {ext : Extern} params R_field t st :
  np.clip1 infinity (-1e5) 1e5 = 1e5 /\
  np.clip1 neg_infinity (-1e5) 1e5 = (-1e5)%float /\
  np.clip1 nan (-1e5) 1e5 = nan /\
  np.isfinite_all (E_new params R_field t st.(E) st.(E_prev)) =
    forallb (fun x => negb (is_nan x))
      (flat (E_new_damped params R_field t st.(E) st.(E_prev))) /\
  (pde_loop params R_field [t] st = Ok (Diverged t, st) <->
   existsb is_nan (flat (E_new_damped params R_field t st.(E) st.(E_prev))) = true).
Proof.
  split; [reflexivity|]. split; [reflexivity|]. split; [reflexivity|].
  assert (Hfin : np.isfinite_all (E_new params R_field t st.(E) st.(E_prev)) =
                 forallb (fun x => negb (is_nan x))
                   (flat (E_new_damped params R_field t st.(E) st.(E_prev))))
    by apply isfinite_all_clip.
  split; [exact Hfin|].
  assert (Hex : forall l, existsb is_nan l = negb (forallb (fun x => negb (is_nan x)) l)).
  { induction l as [|x l IH]; simpl; [reflexivity|].
    rewrite IH. destruct (is_nan x); reflexivity. }
  rewrite Hex, <- Hfin. simpl.
  destruct (np.isfinite_all _); simpl.
  - split; [|discriminate]. destruct (np.max _); simpl; discriminate.
  - split; reflexivity.
Qed.

(** ** C8 *)

Section ZeroSteps.
Context {ext : Extern}.


Lemma for_each_inv {A S : Type} (I : S -> Prop) (body : A -> S -> result S) l s s' :
  (forall a x x', I x -> body a x = Ok x' -> I x') ->
  I s -> for_each body l s = Ok s' -> I s'.
Proof.
  intros Hb. revert s. induction l as [|a l IH]; intros s Hs; simpl.
  - intros H. injection H as <-. exact Hs.
  - destruct (body a s) as [x|] eqn:Ha; [|discriminate]. simpl.
    apply IH. eapply Hb; eauto.
Qed.

End ZeroSteps.



(** ** Runs and sweeps that raise nothing *)

Section RunTotal.
Context {ext : Extern}.

Lemma has_shape_pos n1 n2 n3 A :
  (1 <= n1)%Z -> (1 <= n2)%Z -> (1 <= n3)%Z ->
  has_shape (Z.to_nat n1) (Z.to_nat n2) (Z.to_nat n3) A -> flat A <> [].
Proof.
  intros H1 H2 H3 HA.
  replace (Z.to_nat n1) with (S (Z.to_nat n1 - 1)) in HA by lia.
  replace (Z.to_nat n2) with (S (Z.to_nat n2 - 1)) in HA by lia.
  replace (Z.to_nat n3) with (S (Z.to_nat n3 - 1)) in HA by lia.
  eapply flat_nonempty; eauto.
Qed.

Lemma run_with_status_ok params s :
  (1 <= params.(nx))%Z -> (1 <= params.(ny))%Z -> (1 <= params.(nz))%Z ->
  (0 <= params.(time_steps))%Z ->
  exists fin st R_field s1,
    run_with_status params s = Ok (fin, st, R_field, s1) /\ grid params st.(E).
Proof.
  intros Hx Hy Hz HT.
  destruct (define_ricci_3d_ok params) as [R_field HR]; try lia.
  destruct (initialize_field_3d_ok params s) as (F & s1 & HI); try lia.
  pose proof (define_ricci_3d_grid _ _ HR) as HRg.
  destruct (initialize_field_3d_grid _ _ _ _ _ HI) as [HF _].
  rewrite (run_with_status_eq _ _ _ _ _ _ HR HI HT).
  unfold grid in *.
  replace (Z.to_nat params.(nx)) with (S (Z.to_nat params.(nx) - 1)) in * by lia.
  replace (Z.to_nat params.(ny)) with (S (Z.to_nat params.(ny) - 1)) in * by lia.
  replace (Z.to_nat params.(nz)) with (S (Z.to_nat params.(nz) - 1)) in * by lia.
  destruct (pde_loop_ok params R_field _ _ _ HRg (range params.(time_steps))
              (entry_state params F F) HF HF) as (fin & st & Hloop).
  rewrite Hloop. simpl. exists fin, st, R_field, s1. split; [reflexivity|].
  eapply (pde_loop_shape params R_field _ _ _ _ (entry_state params F F)); eauto.
Qed.

Lemma run_single_sim_realtime_ok params alpha_val beta_val s :
  (1 <= params.(nx))%Z -> (1 <= params.(ny))%Z -> (1 <= params.(nz))%Z ->
  (0 <= params.(time_steps))%Z ->
  exists F amps energy R_field s1,
    run_single_sim_realtime params alpha_val beta_val s
      = Ok ((F, amps, energy, R_field), s1) /\ grid params F.
Proof.
  intros Hx Hy Hz HT.
  destruct (run_with_status_ok params s Hx Hy Hz HT) as (fin & st & R_field & s1 & H & Hg).
  rewrite run_single_sim_realtime_eq, H. simpl. eauto 10.
Qed.

Lemma for_each_ok {A S : Type} (body : A -> S -> result S) l s :
  (forall a x, exists x', body a x = Ok x') -> exists s', for_each body l s = Ok s'.
Proof.
  intros Hb. revert s. induction l as [|a l IH]; intros s; simpl; [eauto|].
  destruct (Hb a s) as [x ->]. simpl. apply IH.
Qed.

Lemma sweep_body_ok base_params thr alpha_ beta_ w :
  (1 <= base_params.(nx))%Z -> (1 <= base_params.(ny))%Z ->
  (1 <= base_params.(nz))%Z -> (0 <= base_params.(time_steps))%Z ->
  exists w', sweep_body base_params thr alpha_ beta_ w = Ok w'.
Proof.
  intros Hx Hy Hz HT. unfold sweep_body. destruct w as [ws s].
  match goal with |- context [run_single_sim_realtime ?p _ _ _] =>
    destruct (run_single_sim_realtime_ok p alpha_ beta_ s Hx Hy Hz HT)
      as (F & amps & en & R_field & s1 & -> & Hg) end.
  simpl. unfold grid in Hg. simpl in Hg.
  destruct (np_max_ok (np.abs F)) as [m ->].
  { eapply has_shape_pos; [exact Hx|exact Hy|exact Hz|]. apply has_shape_amap, Hg. }
  simpl. eauto.
Qed.

Lemma param_sweep_3d_ok alpha_list beta_list base_params thr s :
  (1 <= base_params.(nx))%Z -> (1 <= base_params.(ny))%Z ->
  (1 <= base_params.(nz))%Z -> (0 <= base_params.(time_steps))%Z ->
  exists ws s', param_sweep_3d alpha_list beta_list base_params thr s = Ok (ws, s').
Proof.
  intros Hx Hy Hz HT. unfold param_sweep_3d.
  match goal with |- context [for_each ?b ?l ?w] =>
    destruct (for_each_ok b l w) as [[ws s'] H] end.
  - intros alpha_ x. apply for_each_ok. intros beta_ y. now apply sweep_body_ok.
  - eauto.
Qed.
End RunTotal.

(** ** C5 *)




(** ** C4 *)

Section SweepFacts.
Context {ext : Extern}.

Lemma same_outcome_refl {A : Type} (r : result (A * rng)) : same_outcome r r.
Proof. destruct r as [[a s]|e]; reflexivity. Qed.

(** The initial field does not depend on the state of the generator: the
    random mode reseeds it, the other mode does not read it. *)
Lemma initialize_field_3d_any_state params s s2 :
  same_outcome (initialize_field_3d params s) (initialize_field_3d params s2).
Proof.
  unfold initialize_field_3d. destruct params.(random_init).
  - apply same_outcome_refl.
  - destruct (np.linspace _ _ params.(nx)); simpl; [|reflexivity].
    destruct (np.linspace _ _ params.(ny)); simpl; [|reflexivity].
    destruct (np.linspace _ _ params.(nz)); simpl; reflexivity.
Qed.

Lemma run_single_sim_realtime_any_state params alpha_val beta_val s s2 :
  same_outcome (run_single_sim_realtime params alpha_val beta_val s)
               (run_single_sim_realtime params alpha_val beta_val s2).
Proof.
  unfold run_single_sim_realtime, run_with_status.
  destruct (define_ricci_3d params) as [R_field|]; simpl; [|reflexivity].
  pose proof (initialize_field_3d_any_state params s s2) as HI.
  destruct (initialize_field_3d params s) as [[[F Fp] s1]|],
           (initialize_field_3d params s2) as [[[F' Fp'] s1']|];
    simpl in *; try contradiction; [|exact HI].
  injection HI as <- <-.
  destruct (np.zeros _); simpl; [|reflexivity].
  destruct (pde_loop _ _ _ _) as [[fin st]|]; simpl; reflexivity.
Qed.

Lemma sweep_body_any_state base_params thr alpha_ beta_ ws s s2 :
  same_outcome (sweep_body base_params thr alpha_ beta_ (ws, s))
               (sweep_body base_params thr alpha_ beta_ (ws, s2)).
Proof.
  unfold sweep_body.
  match goal with |- context [run_single_sim_realtime ?p _ _ _] =>
    pose proof (run_single_sim_realtime_any_state p alpha_ beta_ s s2) as HR;
    destruct (run_single_sim_realtime p alpha_ beta_ s) as [[[[[F a1] e1] R1] s1]|],
             (run_single_sim_realtime p alpha_ beta_ s2) as [[[[[F' a2] e2] R2] s1']|]
  end; simpl in *; try contradiction; [|exact HR].
  injection HR as <- <- <- <-.
  destruct (np.max _); simpl; reflexivity.
Qed.

Lemma for_each_any_state {A : Type} (body : A -> sweep_state * rng -> result (sweep_state * rng))
    l ws s s2 :
  (forall a x y y2, same_outcome (body a (x, y)) (body a (x, y2))) ->
  same_outcome (for_each body l (ws, s)) (for_each body l (ws, s2)).
Proof.
  intros Hb. revert ws s s2. induction l as [|a l IH]; intros ws s s2; simpl.
  - reflexivity.
  - pose proof (Hb a ws s s2) as Ha.
    destruct (body a (ws, s)) as [[x y]|], (body a (ws, s2)) as [[x' y']|];
      simpl in *; try contradiction; [|exact Ha].
    subst x'. apply IH.
Qed.

Lemma param_sweep_3d_any_state alpha_list beta_list base_params thr s s2 :
  same_outcome (param_sweep_3d alpha_list beta_list base_params thr s)
               (param_sweep_3d alpha_list beta_list base_params thr s2).
Proof.
  unfold param_sweep_3d. apply for_each_any_state.
  intros alpha_ x y y2. apply for_each_any_state.
  intros beta_ x' z z2. apply sweep_body_any_state.
Qed.

Lemma should_save_rule last final_maxE thr :
  should_save last final_maxE thr = true <-> save_rule last final_maxE thr.
Proof.
  unfold should_save, save_rule. destruct last as [l|].
  - split.
    + intros H. right. exists l. auto.
    + intros [H | (l' & H & Hl)]; [discriminate|]. injection H as <-. exact Hl.
  - split; auto.
Qed.

Lemma save_trace_app last thr l fm :
  save_trace last thr (l ++ [fm]) =
    let '(ds, last1) := save_trace last thr l in
    (ds ++ [should_save last1 fm thr],
     if should_save last1 fm thr then Some fm else last1).
Proof.
  revert last. induction l as [|x l IH]; intros last; simpl; [reflexivity|].
  rewrite IH. destruct (save_trace _ thr l) as [ds l1]. reflexivity.
Qed.

Lemma sweep_body_step base_params thr alpha_ beta_ w w' :
  sweep_body base_params thr alpha_ beta_ w = Ok w' ->
  traced thr w ->
  traced thr w' /\
  map row_pair (fst w').(summary) = map row_pair (fst w).(summary) ++ [(alpha_, beta_)].
Proof.
  unfold sweep_body, traced. destruct w as [ws s].
  destruct (run_single_sim_realtime _ _ _ _) as [[[[[F amps] en] R_field] s1]|];
    [|discriminate]. simpl.
  destruct (np.max _) as [m|]; [|discriminate]. simpl.
  intros H Hw. injection H as <-. simpl. split.
  - rewrite map_app. simpl. rewrite save_trace_app, <- Hw. reflexivity.
  - rewrite map_app. reflexivity.
Qed.

Lemma inner_loop_step base_params thr alpha_ beta_list w w' :
  for_each (sweep_body base_params thr alpha_) beta_list w = Ok w' ->
  traced thr w ->
  traced thr w' /\
  map row_pair (fst w').(summary) =
    map row_pair (fst w).(summary) ++ map (pair alpha_) beta_list.
Proof.
  revert w. induction beta_list as [|b l IH]; intros w; simpl.
  - intros H Hw. injection H as <-. rewrite app_nil_r. auto.
  - destruct (sweep_body _ _ _ _ w) as [x|] eqn:Hb; [|discriminate]. simpl.
    intros H Hw. destruct (sweep_body_step _ _ _ _ _ _ Hb Hw) as [Hx Hp].
    destruct (IH _ H Hx) as [Hw' Hp']. split; [exact Hw'|].
    rewrite Hp', Hp, <- app_assoc. reflexivity.
Qed.

Lemma outer_loop_step base_params thr alpha_list beta_list w w' :
  for_each (fun alpha_ => for_each (sweep_body base_params thr alpha_) beta_list)
    alpha_list w = Ok w' ->
  traced thr w ->
  traced thr w' /\
  map row_pair (fst w').(summary) =
    map row_pair (fst w).(summary) ++ list_prod alpha_list beta_list.
Proof.
  revert w. induction alpha_list as [|a l IH]; intros w; simpl.
  - intros H Hw. injection H as <-. rewrite app_nil_r. auto.
  - destruct (for_each _ beta_list w) as [x|] eqn:Hb; [|discriminate]. simpl.
    intros H Hw. destruct (inner_loop_step _ _ _ _ _ _ Hb Hw) as [Hx Hp].
    destruct (IH _ H Hx) as [Hw' Hp']. split; [exact Hw'|].
    rewrite Hp', Hp, <- app_assoc. reflexivity.
Qed.
End SweepFacts.

(** C4.  A sweep runs the pairs in the order alpha outer, beta inner.  Each
    run is saved exactly when no run of the sweep was saved before or
    [|final_maxE - last_saved_amp| / max(last_saved_amp, 1e-30)] exceeds
    [save_threshold]; [last_saved_amp] becomes [final_maxE] when the run is
    saved and stays as it was when it is skipped.  The decisions and the rows
    are the same from whatever state of the random generator the sweep is
    started. *)
Theorem save_decisions_follow_rule {ext : Extern}
    alpha_list beta_list base_params save_threshold s ws s' :
  param_sweep_3d alpha_list beta_list base_params save_threshold s = Ok (ws, s') ->
  (forall last final_maxE,
      should_save last final_maxE save_threshold = true <->
      save_rule last final_maxE save_threshold) /\
  map row_pair ws.(summary) = list_prod alpha_list beta_list /\
  (ws.(decisions), ws.(last_saved_amp)) =
    save_trace None save_threshold (map row_final_maxE ws.(summary)) /\
  (forall s2, exists s2',
      param_sweep_3d alpha_list beta_list base_params save_threshold s2 = Ok (ws, s2')).
Proof.
  intros H. split; [intros; apply should_save_rule|].
  unfold param_sweep_3d in H.
  destruct (outer_loop_step _ _ _ _ _ _ H) as [Ht Hp]; [reflexivity|].
  split; [exact Hp|]. split; [exact Ht|].
  intros s2.
  pose proof (param_sweep_3d_any_state alpha_list beta_list base_params save_threshold s s2)
    as Hs.
  unfold param_sweep_3d in Hs at 1. rewrite H in Hs.
  destruct (param_sweep_3d _ _ _ _ s2) as [[ws2 s2']|]; simpl in Hs; [|contradiction].
  subst ws2. eauto.
Qed.

Lemma save_decisions_follow_rule_witness :
  small_sweep.(decisions) = [true; false; true; false] /\
  (small_sweep.(decisions), small_sweep.(last_saved_amp)) =
    save_trace None 0.01 (map row_final_maxE small_sweep.(summary)).
Proof.
  split; [reflexivity|].
  refine (proj1 (proj2 (proj2
    (save_decisions_follow_rule (ext := ref_ext) [1e-6; 2e-6] [1e-7; 2e-7]
       (small_params 2) 0.01 0%nat small_sweep 69%nat _)))).
  vm_compute; reflexivity.
Defined.


(** ** Rounding: mantissas, shifts and the rounded result *)

#[local] Open Scope Z_scope.

Lemma digits2_pos_bounds p :
  2 ^ (Zpos (digits2_pos p) - 1) <= Zpos p < 2 ^ Zpos (digits2_pos p).
Proof.
  induction p as [p IH|p IH|]; simpl digits2_pos.
  - rewrite Pos2Z.inj_succ.
    replace (Z.succ (Zpos (digits2_pos p)) - 1) with (Z.succ (Zpos (digits2_pos p) - 1)) by lia.
    rewrite !Z.pow_succ_r by lia. lia.
  - rewrite Pos2Z.inj_succ.
    replace (Z.succ (Zpos (digits2_pos p)) - 1) with (Z.succ (Zpos (digits2_pos p) - 1)) by lia.
    rewrite !Z.pow_succ_r by lia. lia.
  - simpl. lia.
Qed.

Lemma Zdigits2_bounds m :
  0 < m -> 2 ^ (Zdigits2 m - 1) <= m < 2 ^ Zdigits2 m.
Proof. destruct m as [|p|p]; try lia. intros _. apply digits2_pos_bounds. Qed.

Lemma Zdigits2_nonneg m : 0 <= Zdigits2 m.
Proof. destruct m; simpl; lia. Qed.

(** A value below a power of two has at most that many digits. *)
Lemma Zdigits2_le_of_lt m k : 0 < m -> m < 2 ^ k -> Zdigits2 m <= k.
Proof.
  intros Hm Hk. destruct (Zdigits2_bounds m Hm) as [Hlo _].
  destruct (Z.le_gt_cases (Zdigits2 m) k) as [H|H]; [exact H|].
  assert (2 ^ k <= 2 ^ (Zdigits2 m - 1)) by (apply Z.pow_le_mono_r; lia). lia.
Qed.

Lemma fexp_mono a b : a <= b -> fexp prec emax a <= fexp prec emax b.
Proof. unfold fexp. lia. Qed.

Lemma fexp_ge_emin a : emin <= fexp prec emax a.
Proof. unfold fexp. lia. Qed.

Lemma iter_pos_shr_m p mrs :
  0 <= shr_m mrs -> shr_m (iter_pos shr_1 p mrs) = shr_m mrs / 2 ^ Zpos p.
Proof.
  assert (H1 : forall r, 0 <= shr_m r -> shr_m (shr_1 r) = shr_m r / 2 /\ 0 <= shr_m (shr_1 r)).
  { intros [m r s] Hm. cbn [shr_m] in Hm.
    destruct m as [|[q|q|]|q]; cbn [shr_1 shr_m]; try lia; (split; [|lia]).
    - reflexivity.
    - apply Z.div_unique with 1; [lia | rewrite Pos2Z.inj_xI; lia].
    - apply Z.div_unique with 0; [lia | rewrite Pos2Z.inj_xO; lia].
    - reflexivity. }
  revert mrs. induction p as [p IH|p IH|]; intros mrs Hm; cbn [iter_pos].
  - destruct (H1 mrs Hm) as [E1 P1].
    assert (P2 : 0 <= shr_m (iter_pos shr_1 p (shr_1 mrs))) by (rewrite IH by exact P1; apply Z.div_pos; lia).
    rewrite IH by exact P2. rewrite IH by exact P1. rewrite E1.
    rewrite !Z.div_div by lia. f_equal.
    replace (Z.pos p~1) with (1 + Z.pos p + Z.pos p) by lia.
    rewrite !Z.pow_add_r, Z.pow_1_r by lia. lia.
  - assert (P2 : 0 <= shr_m (iter_pos shr_1 p mrs)) by (rewrite IH by exact Hm; apply Z.div_pos; lia).
    rewrite IH by exact P2. rewrite IH by exact Hm.
    rewrite !Z.div_div by lia. f_equal.
    replace (Z.pos p~0) with (Z.pos p + Z.pos p) by lia.
    rewrite !Z.pow_add_r by lia. lia.
  - destruct (H1 mrs Hm) as [E1 _]. rewrite E1. now rewrite Z.pow_1_r.
Qed.

Lemma iter_pos_shr_exact p mrs :
  0 <= shr_m mrs -> exact_record mrs = true -> (2 ^ Zpos p | shr_m mrs) ->
  exact_record (iter_pos shr_1 p mrs) = true.
Proof.
  assert (H1 : forall r, 0 <= shr_m r -> exact_record r = true -> (2 | shr_m r) ->
               exact_record (shr_1 r) = true).
  { intros [m r s] Hm He [k Hk]. unfold exact_record in *. simpl in *.
    apply andb_true_iff in He as [Hr Hs]. apply negb_true_iff in Hr, Hs. subst r s.
    destruct m as [|[q|q|]|q]; simpl; auto; lia. }
  assert (Hdiv : forall a b m, 0 <= a -> 0 <= b -> (2 ^ (a + b) | m) ->
                 (2 ^ a | m) /\ (2 ^ b | m / 2 ^ a)).
  { intros a b m Ha Hb [k Hk]. rewrite Z.pow_add_r in Hk by lia. split.
    - exists (k * 2 ^ b). lia.
    - exists k. subst m.
      replace (k * (2 ^ a * 2 ^ b)) with (k * 2 ^ b * 2 ^ a) by ring.
      apply Z.div_mul. apply Z.pow_nonzero; lia. }
  revert mrs. induction p as [p IH|p IH|]; intros mrs Hm He Hd; cbn [iter_pos].
  - replace (Z.pos p~1) with (1 + (Zpos p + Zpos p)) in Hd by lia.
    apply Hdiv in Hd; try lia. destruct Hd as [D1 D2]. rewrite Z.pow_1_r in D1, D2.
    apply Hdiv in D2; try lia. destruct D2 as [D2 D3].
    assert (E1 : shr_m (shr_1 mrs) = shr_m mrs / 2).
    { generalize (iter_pos_shr_m 1 mrs Hm). cbn [iter_pos]. now rewrite Z.pow_1_r. }
    assert (P1 : 0 <= shr_m (shr_1 mrs)) by (rewrite E1; apply Z.div_pos; lia).
    apply IH.
    + rewrite iter_pos_shr_m by exact P1. apply Z.div_pos; lia.
    + apply IH; auto. now rewrite E1.
    + rewrite iter_pos_shr_m by exact P1. now rewrite E1.
  - replace (Z.pos p~0) with (Zpos p + Zpos p) in Hd by lia.
    apply Hdiv in Hd; try lia. destruct Hd as [D1 D2].
    apply IH.
    + rewrite iter_pos_shr_m by exact Hm. apply Z.div_pos; lia.
    + apply IH; auto.
    + now rewrite iter_pos_shr_m by exact Hm.
  - apply H1; auto; now rewrite Z.pow_1_r in Hd.
Qed.

Lemma exact_record_loc mrs : exact_record mrs = true -> loc_of_shr_record mrs = loc_Exact.
Proof. destruct mrs as [m [|] [|]]; unfold exact_record; simpl; congruence. Qed.

Lemma exact_record_of_loc m l : exact_record (shr_record_of_loc m l) = is_exact l.
Proof. destruct l as [|[| |]]; reflexivity. Qed.

Lemma shr_m_of_loc m l : shr_m (shr_record_of_loc m l) = m.
Proof. destruct l as [|[| |]]; reflexivity. Qed.

Lemma round_nearest_even_bounds m l :
  m <= round_nearest_even m l <= m + 1 /\
  (l = loc_Exact -> round_nearest_even m l = m).
Proof.
  destruct l as [|[| |]]; simpl; try destruct (Z.even m); split; try lia; auto; discriminate.
Qed.

Lemma shr_spec mrs e n mrs' e' :
  shr mrs e n = (mrs', e') -> 0 <= shr_m mrs ->
  (n <= 0 /\ mrs' = mrs /\ e' = e) \/
  (0 < n /\ e' = e + n /\ shr_m mrs' = shr_m mrs / 2 ^ n /\
   (exact_record mrs = true -> (2 ^ n | shr_m mrs) -> exact_record mrs' = true)).
Proof.
  unfold shr. destruct n as [|p|p]; intros H Hm; injection H as <- <-.
  - left. repeat split; lia.
  - right. split; [lia|]. split; [reflexivity|]. split.
    + now apply iter_pos_shr_m.
    + intros He Hd. now apply iter_pos_shr_exact.
  - left. repeat split; lia.
Qed.

(** Magnitude: a positive value bounded by a float has no more leading
    position than the float. *)
Lemma mag_le m e mb eb :
  0 < m -> e <= eb -> m <= Zpos mb * 2 ^ (eb - e) ->
  Zdigits2 m + e <= Zpos (digits2_pos mb) + eb.
Proof.
  intros Hm He Hle.
  destruct (digits2_pos_bounds mb) as [_ Hb].
  assert (Hp : 0 < 2 ^ (eb - e)) by (apply Z.pow_pos_nonneg; lia).
  assert (Hlt : m < 2 ^ (Zpos (digits2_pos mb) + (eb - e))).
  { rewrite Z.pow_add_r by lia. nia. }
  pose proof (Zdigits2_le_of_lt m _ Hm Hlt). lia.
Qed.

Lemma canonical_fexp mb eb :
  canonical_mantissa prec emax mb eb = true ->
  eb = fexp prec emax (Zpos (digits2_pos mb) + eb).
Proof. unfold canonical_mantissa. intros H. apply Z.eqb_eq in H. lia. Qed.

(** The rounded result stays below every float that bounds the value being
    rounded. *)
Lemma binary_round_aux_le s mx ex lx mb eb :
  0 <= mx ->
  ex <= fexp prec emax (Zdigits2 mx + ex) ->
  canonical_mantissa prec emax mb eb = true -> eb <= emax - prec ->
  ex <= eb ->
  (if is_exact lx then mx else mx + 1) <= Zpos mb * 2 ^ (eb - ex) ->
  match binary_round_aux prec emax s mx ex lx with
  | S754_zero _ => True
  | S754_finite _ m' e' => emin <= e' <= eb /\ Zpos m' <= Zpos mb * 2 ^ (eb - e')
  | _ => False
  end.
Proof.
  intros Hmx Hn Hcan Hemax Hex Hup.
  pose proof (canonical_fexp _ _ Hcan) as Heb.
  unfold binary_round_aux, shr_fexp.
  set (e1 := fexp prec emax (Zdigits2 mx + ex)) in *.
  destruct (shr (shr_record_of_loc mx lx) ex (e1 - ex)) as [mrs' e'] eqn:Hs1.
  apply shr_spec in Hs1; [|rewrite shr_m_of_loc; exact Hmx].
  rewrite shr_m_of_loc, exact_record_of_loc in Hs1.
  set (n := e1 - ex) in *.
  assert (Hn0 : 0 <= n) by (unfold n; lia).
  assert (Hpn : 0 < 2 ^ n) by (apply Z.pow_pos_nonneg; lia).
  (* the first shift *)
  assert (Hq : e' = e1 /\ shr_m mrs' = mx / 2 ^ n /\
               (is_exact lx = true -> (2 ^ n | mx) -> exact_record mrs' = true)).
  { destruct Hs1 as [(Hle & -> & ->) | (Hlt & -> & Hm & He)].
    - assert (n = 0) by lia. replace e1 with ex by (unfold n in *; lia).
      rewrite shr_m_of_loc, exact_record_of_loc. rewrite H.
      split; [reflexivity|]. split; [now rewrite Z.div_1_r | auto].
    - split; [unfold n; lia|]. auto. }
  clear Hs1. destruct Hq as (-> & Hq & Hexact).
  set (q := shr_m mrs') in *.
  assert (Hq0 : 0 <= q) by (rewrite Hq; apply Z.div_pos; lia).
  assert (Hqle : q * 2 ^ n <= mx) by (rewrite Hq, Z.mul_comm; apply Z.mul_div_le; lia).
  destruct (round_nearest_even_bounds q (loc_of_shr_record mrs')) as [Hm1 Hm1e].
  set (m1 := round_nearest_even q (loc_of_shr_record mrs')) in *.
  (* the rounded mantissa against the bound *)
  assert (K1 : e1 <= eb /\ m1 <= Zpos mb * 2 ^ (eb - e1)).
  { destruct (Z.eq_dec mx 0) as [H0|H0].
    - assert (He1 : e1 <= eb).
      { unfold e1. rewrite H0. simpl Zdigits2. pose proof (fexp_ge_emin (Zpos (digits2_pos mb) + eb)).
        unfold fexp in *. lia. }
      split; [exact He1|].
      assert (q = 0) by (rewrite Hq, H0; apply Z.div_0_l; lia).
      assert (0 < 2 ^ (eb - e1)) by (apply Z.pow_pos_nonneg; lia). nia.
    - assert (Hpos : 0 < mx) by lia.
      assert (Hmxb : mx <= Zpos mb * 2 ^ (eb - ex)) by (destruct (is_exact lx); lia).
      pose proof (mag_le _ _ _ _ Hpos Hex Hmxb) as Hmag.
      assert (He1 : e1 <= eb) by (rewrite Heb; apply fexp_mono; exact Hmag).
      split; [exact He1|].
      assert (Hsplit : 2 ^ (eb - ex) = 2 ^ (eb - e1) * 2 ^ n).
      { rewrite <- Z.pow_add_r by lia. f_equal. unfold n. lia. }
      rewrite Hsplit, Z.mul_assoc in Hup.
      set (b := Zpos mb * 2 ^ (eb - e1)) in *.
      destruct (exact_record mrs') eqn:Hrec.
      + rewrite (Hm1e (exact_record_loc _ Hrec)). nia.
      + assert (Hlt : q * 2 ^ n < (if is_exact lx then mx else mx + 1)).
        { destruct (is_exact lx) eqn:Hlx; [|lia].
          destruct (Z.eq_dec (q * 2 ^ n) mx) as [He|He]; [|lia].
          assert (Hr : false = true)
            by (apply Hexact; [reflexivity | exists q; lia]).
          discriminate. }
        nia. }
  destruct K1 as [He1 Hm1b].
  (* the second shift *)
  destruct (shr (shr_record_of_loc m1 loc_Exact) e1
              (fexp prec emax (Zdigits2 m1 + e1) - e1)) as [mrs'' e''] eqn:Hs2.
  apply shr_spec in Hs2; [|rewrite shr_m_of_loc; lia].
  rewrite shr_m_of_loc in Hs2.
  destruct Hs2 as [(Hle & -> & ->) | (Hlt & -> & Hm2 & _)].
  - rewrite shr_m_of_loc. destruct m1 as [|p|p]; [exact I| |lia].
    destruct (Z.leb_spec e1 (emax - prec)); [|lia].
    pose proof (fexp_ge_emin (Zdigits2 mx + ex)). fold e1 in H0. auto.
  - destruct (shr_m mrs'') as [|p|p] eqn:Hp; [exact I| |].
    + assert (Hm1pos : 0 < m1).
      { destruct (Z.eq_dec m1 0) as [H0|H0]; [|lia].
        rewrite Z.div_small in Hm2; [lia|].
        pose proof (Z.pow_pos_nonneg 2 (fexp prec emax (Zdigits2 m1 + e1) - e1)). lia. }
      pose proof (mag_le _ _ _ _ Hm1pos He1 Hm1b) as Hmag.
      set (e2 := fexp prec emax (Zdigits2 m1 + e1)) in *.
      assert (He2 : e2 <= eb) by (rewrite Heb; apply fexp_mono; exact Hmag).
      replace (e1 + (e2 - e1)) with e2 by lia.
      destruct (Z.leb_spec e2 (emax - prec)); [|lia].
      pose proof (fexp_ge_emin (Zdigits2 m1 + e1)) as Hge. fold e2 in Hge.
      split; [lia|].
      assert (Hsplit : 2 ^ (eb - e1) = 2 ^ (eb - e2) * 2 ^ (e2 - e1)).
      { rewrite <- Z.pow_add_r by lia. f_equal. lia. }
      rewrite Hsplit, Z.mul_assoc in Hm1b.
      rewrite Hm2.
      apply Z.div_le_upper_bound; [apply Z.pow_pos_nonneg; lia|].
      rewrite Z.mul_comm. exact Hm1b.
    + exfalso.
      assert (0 <= m1 / 2 ^ (fexp prec emax (Zdigits2 m1 + e1) - e1))
        by (apply Z.div_pos; [lia | apply Z.pow_pos_nonneg; lia]).
      lia.
Qed.

(** ** Finite floats as integers *)

Lemma mag_le_scaled m e mb eb k :
  0 < m -> k <= e -> k <= eb ->
  m * 2 ^ (e - k) <= Zpos mb * 2 ^ (eb - k) ->
  Zdigits2 m + e <= Zpos (digits2_pos mb) + eb.
Proof.
  intros Hm Hke Hkb Hle.
  destruct (digits2_pos_bounds mb) as [_ Hb].
  destruct (Zdigits2_bounds m Hm) as [Hlo _].
  pose proof (Zdigits2_nonneg m) as Hd0.
  assert (Hd1 : 1 <= Zdigits2 m) by (destruct m; simpl; lia).
  assert (H1 : 2 ^ (Zdigits2 m - 1 + (e - k)) <= m * 2 ^ (e - k)).
  { rewrite Z.pow_add_r by lia. apply Z.mul_le_mono_nonneg_r; [apply Z.pow_nonneg|]; lia. }
  assert (H2 : Zpos mb * 2 ^ (eb - k) < 2 ^ (Zpos (digits2_pos mb) + (eb - k))).
  { rewrite Z.pow_add_r by lia. apply Z.mul_lt_mono_pos_r; [apply Z.pow_pos_nonneg|]; lia. }
  assert (H3 : 2 ^ (Zdigits2 m - 1 + (e - k)) < 2 ^ (Zpos (digits2_pos mb) + (eb - k))) by lia.
  apply Z.pow_lt_mono_r_iff in H3; lia.
Qed.

Lemma binary_round_aux_zero s ex : binary_round_aux prec emax s 0 ex loc_Exact = S754_zero s.
Proof.
  unfold binary_round_aux, shr_fexp. simpl Zdigits2.
  destruct (shr (shr_record_of_loc 0 loc_Exact) ex (fexp prec emax (0 + ex) - ex))
    as [mrs' e'] eqn:Hs1.
  assert (Hm : shr_m mrs' = 0 /\ exact_record mrs' = true).
  { apply shr_spec in Hs1; [|simpl; lia].
    destruct Hs1 as [(_ & -> & _) | (Hn & _ & Hm & He)]; [split; reflexivity|].
    split; [rewrite Hm; apply Z.div_0_l, Z.pow_nonzero; lia|].
    apply He; [reflexivity|]. exists 0. reflexivity. }
  destruct Hm as [Hm He]. rewrite Hm, (exact_record_loc _ He). simpl round_nearest_even.
  simpl Zdigits2.
  destruct (shr (shr_record_of_loc 0 loc_Exact) e' (fexp prec emax (0 + e') - e'))
    as [mrs'' e''] eqn:Hs2.
  apply shr_spec in Hs2; [|simpl; lia].
  destruct Hs2 as [(_ & -> & _) | (Hn & _ & Hm2 & _)]; [reflexivity|].
  rewrite Hm2. simpl shr_m. rewrite Z.div_0_l; [reflexivity | apply Z.pow_nonzero; lia].
Qed.

(** The master bound with the value inequality at any common scale [k]. *)
Lemma binary_round_aux_Zval s mx ex lx mb eb k :
  0 <= mx ->
  ex <= fexp prec emax (Zdigits2 mx + ex) ->
  bounded prec emax mb eb = true ->
  k <= ex -> k <= eb ->
  (if is_exact lx then mx else mx + 1) * 2 ^ (ex - k) <= Zpos mb * 2 ^ (eb - k) ->
  SF_finite (binary_round_aux prec emax s mx ex lx) = true /\
  Z.abs (Zval (binary_round_aux prec emax s mx ex lx)) <= Zpos mb * 2 ^ (eb - emin).
Proof.
  intros Hmx Hn Hb Hke Hkb Hup.
  apply andb_true_iff in Hb as [Hcan Hemax]. apply Z.leb_le in Hemax.
  pose proof (canonical_fexp _ _ Hcan) as Heb.
  assert (Hpp : 0 < Zpos mb * 2 ^ (eb - emin)).
  { pose proof (fexp_ge_emin (Zpos (digits2_pos mb) + eb)).
    apply Z.mul_pos_pos; [lia | apply Z.pow_pos_nonneg; lia]. }
  set (up := if is_exact lx then mx else mx + 1) in *.
  destruct (Z.eq_dec up 0) as [Hup0|Hup0].
  - assert (mx = 0 /\ lx = loc_Exact) as [-> ->].
    { unfold up in Hup0. destruct lx; simpl in Hup0; split; auto; lia. }
    rewrite binary_round_aux_zero. cbn [Zval SF_finite Z.abs]. split; [reflexivity | lia].
  - assert (Hup1 : 0 < up) by (unfold up in *; destruct (is_exact lx); lia).
    assert (Hmag : Zdigits2 mx + ex <= Zpos (digits2_pos mb) + eb).
    { destruct (Z.eq_dec mx 0) as [H0|H0].
      - rewrite H0. simpl Zdigits2.
        assert (Hu : up = 1) by (unfold up in *; destruct (is_exact lx); lia).
        rewrite Hu in Hup.
        pose proof (mag_le_scaled 1 ex mb eb k ltac:(lia) Hke Hkb Hup). simpl Zdigits2 in H. lia.
      - apply (mag_le_scaled mx ex mb eb k); try lia.
        assert (mx * 2 ^ (ex - k) <= up * 2 ^ (ex - k)).
        { apply Z.mul_le_mono_nonneg_r; [apply Z.pow_nonneg; lia|].
          unfold up. destruct (is_exact lx); lia. }
        lia. }
    assert (Hexb : ex <= eb).
    { apply fexp_mono in Hmag. lia. }
    assert (Hup' : up <= Zpos mb * 2 ^ (eb - ex)).
    { assert (Hs : 2 ^ (eb - k) = 2 ^ (eb - ex) * 2 ^ (ex - k)).
      { rewrite <- Z.pow_add_r by lia. f_equal. lia. }
      rewrite Hs, Z.mul_assoc in Hup.
      apply Z.mul_le_mono_pos_r in Hup; [exact Hup | apply Z.pow_pos_nonneg; lia]. }
    pose proof (binary_round_aux_le s mx ex lx mb eb Hmx Hn Hcan Hemax Hexb Hup') as HR.
    destruct (binary_round_aux prec emax s mx ex lx) as [s'|s'| |s' m' e'];
      try contradiction.
    + cbn [Zval SF_finite Z.abs]. split; [reflexivity | lia].
    + destruct HR as [[He1 He2] Hm']. simpl SF_finite. split; [reflexivity|].
      unfold Zval.
      assert (Habs : Z.abs (cond_Zopp s' (Zpos m' * 2 ^ (e' - emin))) = Zpos m' * 2 ^ (e' - emin)).
      { assert (0 < Zpos m' * 2 ^ (e' - emin))
          by (apply Z.mul_pos_pos; [lia | apply Z.pow_pos_nonneg; lia]).
        destruct s'; unfold cond_Zopp; lia. }
      rewrite Habs.
      assert (Hs : 2 ^ (eb - emin) = 2 ^ (eb - e') * 2 ^ (e' - emin)).
      { rewrite <- Z.pow_add_r by lia. f_equal. lia. }
      rewrite Hs, Z.mul_assoc.
      apply Z.mul_le_mono_nonneg_r; [apply Z.pow_nonneg; lia | exact Hm'].
Qed.

(** ** Order of finite floats *)

Lemma bounded_facts m e :
  bounded prec emax m e = true ->
  emin <= e <= emax - prec /\
  Zpos m < 2 ^ prec /\
  (emin < e -> 2 ^ (prec - 1) <= Zpos m).
Proof.
  intros H. apply andb_true_iff in H as [Hc He]. apply Z.leb_le in He.
  pose proof (canonical_fexp _ _ Hc) as Hf. unfold fexp in Hf.
  destruct (digits2_pos_bounds m) as [Hlo Hhi].
  split; [lia|]. split.
  - assert (Zpos (digits2_pos m) <= prec) by lia.
    assert (2 ^ Zpos (digits2_pos m) <= 2 ^ prec) by (apply Z.pow_le_mono_r; lia). lia.
  - intros Hlt. assert (Hd : Zpos (digits2_pos m) = prec) by lia.
    rewrite Hd in Hlo. exact Hlo.
Qed.

Lemma Zval_pos m e :
  emin <= e -> 0 < Zpos m * 2 ^ (e - emin).
Proof. intros H. apply Z.mul_pos_pos; [lia | apply Z.pow_pos_nonneg; lia]. Qed.

Lemma pos_compare_Zval m1 e1 m2 e2 :
  bounded prec emax m1 e1 = true -> bounded prec emax m2 e2 = true ->
  match e1 ?= e2 with
  | Lt => Lt
  | Gt => Gt
  | Eq => Pos.compare_cont Eq m1 m2
  end = (Zpos m1 * 2 ^ (e1 - emin) ?= Zpos m2 * 2 ^ (e2 - emin)).
Proof.
  intros H1 H2.
  destruct (bounded_facts _ _ H1) as (He1 & Hm1 & Hn1).
  destruct (bounded_facts _ _ H2) as (He2 & Hm2 & Hn2).
  assert (Hlt : forall ma ea mb eb, emin <= ea < eb -> Zpos ma < 2 ^ prec ->
              2 ^ (prec - 1) <= Zpos mb ->
              Zpos ma * 2 ^ (ea - emin) < Zpos mb * 2 ^ (eb - emin)).
  { intros ma ea mb eb He Ha Hb.
    assert (Hs : 2 ^ (eb - emin) = 2 ^ (eb - ea - 1) * 2 * 2 ^ (ea - emin)).
    { rewrite <- (Z.pow_1_r 2) at 3. rewrite <- !Z.pow_add_r by lia. f_equal. lia. }
    rewrite Hs.
    assert (Hp : 2 ^ prec = 2 ^ (prec - 1) * 2).
    { rewrite <- (Z.pow_1_r 2) at 3. rewrite <- Z.pow_add_r by (unfold prec; lia).
      f_equal. }
    assert (0 < 2 ^ (ea - emin)) by (apply Z.pow_pos_nonneg; lia).
    assert (0 < 2 ^ (eb - ea - 1)) by (apply Z.pow_pos_nonneg; lia).
    assert (0 < 2 ^ (prec - 1)) by (apply Z.pow_pos_nonneg; unfold prec; lia).
    nia. }
  destruct (Z.compare_spec e1 e2) as [Heq|Hl|Hg].
  - subst e2. change (Pos.compare_cont Eq m1 m2) with (Zpos m1 ?= Zpos m2).
    apply Zmult_compare_compat_r. apply Z.lt_gt, Z.pow_pos_nonneg; lia.
  - symmetry. apply Z.compare_lt_iff. apply Hlt; lia.
  - symmetry. apply Z.compare_gt_iff. apply Hlt; lia.
Qed.

Lemma SFcompare_Zval x y :
  valid_binary x = true -> valid_binary y = true ->
  SF_finite x = true -> SF_finite y = true ->
  SFcompare x y = Some (Zval x ?= Zval y).
Proof.
  intros Vx Vy Fx Fy.
  destruct x as [sx|sx| |sx mx ex], y as [sy|sy| |sy my ey]; try discriminate;
    cbn [SFcompare Zval valid_binary] in *.
  - reflexivity.
  - pose proof (Zval_pos my ey (proj1 (proj1 (bounded_facts _ _ Vy)))).
    f_equal. symmetry. destruct sy; unfold cond_Zopp.
    + apply Z.compare_gt_iff. lia.
    + apply Z.compare_lt_iff. lia.
  - pose proof (Zval_pos mx ex (proj1 (proj1 (bounded_facts _ _ Vx)))).
    f_equal. symmetry. destruct sx; unfold cond_Zopp.
    + apply Z.compare_lt_iff. lia.
    + apply Z.compare_gt_iff. lia.
  - pose proof (Zval_pos mx ex (proj1 (proj1 (bounded_facts _ _ Vx)))).
    pose proof (Zval_pos my ey (proj1 (proj1 (bounded_facts _ _ Vy)))).
    f_equal. destruct sx, sy; unfold cond_Zopp.
    + rewrite Z.compare_opp, <- (pos_compare_Zval my ey mx ex Vy Vx).
      destruct (Z.compare_spec ex ey) as [Heq|Hl|Hg].
      * subst ey. rewrite Z.compare_refl. apply Pos.compare_cont_antisym.
      * apply Z.compare_gt_iff in Hl. now rewrite Hl.
      * apply Z.compare_lt_iff in Hg. now rewrite Hg.
    + symmetry. apply Z.compare_lt_iff. lia.
    + symmetry. apply Z.compare_gt_iff. lia.
    + apply pos_compare_Zval; assumption.
Qed.

(** ** The same on primitive floats *)

Lemma is_finite_SF x : is_finite x = SF_finite (Prim2SF x).
Proof. rewrite is_finite_spec. destruct (Prim2SF x); reflexivity. Qed.

Lemma leb_FZ x y :
  is_finite x = true -> is_finite y = true -> (x <=? y)%float = (FZ x <=? FZ y).
Proof.
  intros Hx Hy. rewrite is_finite_SF in Hx, Hy. rewrite leb_spec. unfold SFleb, FZ.
  rewrite (SFcompare_Zval _ _ (Prim2SF_valid x) (Prim2SF_valid y) Hx Hy).
  unfold Z.leb. destruct (_ ?= _); reflexivity.
Qed.

Lemma ltb_FZ x y :
  is_finite x = true -> is_finite y = true -> (x <? y)%float = (FZ x <? FZ y).
Proof.
  intros Hx Hy. rewrite is_finite_SF in Hx, Hy. rewrite ltb_spec. unfold SFltb, FZ.
  rewrite (SFcompare_Zval _ _ (Prim2SF_valid x) (Prim2SF_valid y) Hx Hy).
  unfold Z.ltb. destruct (_ ?= _); reflexivity.
Qed.

Lemma Prim2SF_finite_exp x s m e : Prim2SF x = S754_finite s m e -> emin <= e.
Proof.
  intros E. pose proof (Prim2SF_valid x) as V. rewrite E in V.
  apply (bounded_facts _ _ V).
Qed.

Lemma FZ_abs x : FZ (abs x) = Z.abs (FZ x).
Proof.
  unfold FZ. rewrite abs_spec. destruct (Prim2SF x) as [s|s| |s m e] eqn:E; try reflexivity.
  cbn [SFabs Zval].
  pose proof (Zval_pos m e (Prim2SF_finite_exp _ _ _ _ E)).
  destruct s; unfold cond_Zopp; lia.
Qed.

Lemma FZ_opp x : FZ (- x) = - FZ x.
Proof.
  unfold FZ. rewrite opp_spec. destruct (Prim2SF x) as [s|s| |s m e]; try reflexivity.
  cbn [SFopp Zval]. destruct s; unfold cond_Zopp; simpl negb; cbv iota; lia.
Qed.

Lemma is_finite_abs x : is_finite (abs x) = is_finite x.
Proof. rewrite !is_finite_SF, abs_spec. destruct (Prim2SF x); reflexivity. Qed.

Lemma is_finite_opp x : is_finite (- x) = is_finite x.
Proof. rewrite !is_finite_SF, opp_spec. destruct (Prim2SF x); reflexivity. Qed.

(** ** Bounds on products *)

Lemma Zdigits2_ge m k : 2 ^ (k - 1) <= m -> 0 < m -> k <= Zdigits2 m.
Proof.
  intros Hk Hm. destruct (Zdigits2_bounds m Hm) as [_ Hhi].
  destruct (Z.le_gt_cases k (Zdigits2 m)) as [H|H]; [exact H|].
  assert (2 ^ Zdigits2 m <= 2 ^ (k - 1))
    by (apply Z.pow_le_mono_r; [lia | pose proof (Zdigits2_nonneg m); lia]).
  lia.
Qed.

Lemma emin_eq : emin = -1074.
Proof. reflexivity. Qed.

Lemma prec_eq : prec = 53.
Proof. reflexivity. Qed.

Lemma SFmul_bound x y mb eb :
  valid_binary x = true -> valid_binary y = true ->
  SF_finite x = true -> SF_finite y = true ->
  bounded prec emax mb eb = true ->
  Z.abs (Zval x) * Z.abs (Zval y) <= Zpos mb * 2 ^ (eb - emin) * 2 ^ (- emin) ->
  SF_finite (SF64mul x y) = true /\
  Z.abs (Zval (SF64mul x y)) <= Zpos mb * 2 ^ (eb - emin).
Proof.
  intros Vx Vy Fx Fy Hb Hle.
  destruct (bounded_facts _ _ Hb) as (Heb & _ & _).
  pose proof emin_eq as Hemin. pose proof prec_eq as Hprec.
  assert (Hpp : 0 <= Zpos mb * 2 ^ (eb - emin)).
  { apply Z.mul_nonneg_nonneg; [lia | apply Z.pow_nonneg; lia]. }
  destruct x as [sx|sx| |sx mx ex], y as [sy|sy| |sy my ey]; try discriminate;
    unfold SF64mul; cbn [SFmul SF_finite Zval Z.abs]; try (split; [reflexivity | lia]).
  cbn [valid_binary] in Vx, Vy.
  destruct (bounded_facts _ _ Vx) as (Hex & Hmx & Hnx).
  destruct (bounded_facts _ _ Vy) as (Hey & Hmy & Hny).
  cbn [Zval] in Hle.
  assert (Ax : Z.abs (cond_Zopp sx (Zpos mx * 2 ^ (ex - emin))) = Zpos mx * 2 ^ (ex - emin)).
  { pose proof (Zval_pos mx ex (proj1 Hex)). destruct sx; unfold cond_Zopp; lia. }
  assert (Ay : Z.abs (cond_Zopp sy (Zpos my * 2 ^ (ey - emin))) = Zpos my * 2 ^ (ey - emin)).
  { pose proof (Zval_pos my ey (proj1 Hey)). destruct sy; unfold cond_Zopp; lia. }
  rewrite Ax, Ay in Hle.
  apply (binary_round_aux_Zval _ _ _ _ _ _ (2 * emin)); auto.
  - lia.
  - (* the product needs no left shift *)
    rewrite Pos2Z.inj_mul. unfold fexp.
    destruct (Z.le_gt_cases (ex + ey) emin) as [H|H]; [lia|].
    assert (Hd : prec <= Zdigits2 (Zpos mx * Zpos my)).
    { apply Zdigits2_ge; [|lia].
      destruct (Z.eq_dec ex emin) as [E1|E1].
      - assert (2 ^ (prec - 1) <= Zpos my) by (apply Hny; lia). nia.
      - assert (2 ^ (prec - 1) <= Zpos mx) by (apply Hnx; lia). nia. }
    lia.
  - lia.
  - lia.
  - cbn [is_exact]. rewrite Pos2Z.inj_mul.
    replace (ex + ey - 2 * emin) with ((ex - emin) + (ey - emin)) by lia.
    rewrite Z.pow_add_r by lia.
    replace (eb - 2 * emin) with ((eb - emin) + (- emin)) by lia.
    rewrite (Z.pow_add_r 2 (eb - emin)) by lia.
    rewrite Z.mul_assoc. lia.
Qed.

Lemma FZ_pos_finite b :
  0 < FZ b -> exists m e, Prim2SF b = S754_finite false m e /\
                          bounded prec emax m e = true /\
                          FZ b = Zpos m * 2 ^ (e - emin).
Proof.
  unfold FZ. intros H. pose proof (Prim2SF_valid b) as V.
  destruct (Prim2SF b) as [s|s| |s m e]; cbn [Zval] in H; try lia.
  exists m, e. cbn [valid_binary] in V.
  pose proof (Zval_pos m e (proj1 (proj1 (bounded_facts _ _ V)))).
  destruct s; unfold cond_Zopp in *; [lia|]. auto.
Qed.

(** A product is bounded by [b] when the product of the magnitudes is. *)
Lemma mul_bound x y b :
  is_finite x = true -> is_finite y = true ->
  0 < FZ b ->
  Z.abs (FZ x) * Z.abs (FZ y) <= FZ b * 2 ^ (- emin) ->
  is_finite (x * y) = true /\ Z.abs (FZ (x * y)) <= FZ b.
Proof.
  intros Hx Hy Hb Hle. rewrite is_finite_SF in *.
  destruct (FZ_pos_finite b Hb) as (m & e & Eb & Vb & Zb).
  unfold FZ in *. rewrite mul_spec, Zb in *.
  apply SFmul_bound; auto using Prim2SF_valid.
Qed.

(** ** Bounds on sums and differences *)

Lemma iter_xO_Z m d : Zpos (Pos.iter xO m d) = Zpos m * 2 ^ Zpos d.
Proof.
  induction d as [|d IH] using Pos.peano_ind.
  - change (Zpos m~0 = Zpos m * 2). lia.
  - rewrite Pos.iter_succ, Pos2Z.inj_xO, IH, Pos2Z.inj_succ, Z.pow_succ_r by lia. ring.
Qed.

Lemma shl_align_spec mx ex ez :
  ez <= ex ->
  Zpos (fst (shl_align mx ex ez)) = Zpos mx * 2 ^ (ex - ez) /\
  snd (shl_align mx ex ez) = ez.
Proof.
  intros H. unfold shl_align. destruct (ez - ex) as [|d|d] eqn:E; cbn [fst snd].
  - replace (ex - ez) with 0 by lia. split; lia.
  - lia.
  - rewrite iter_xO_Z. split; [|reflexivity]. f_equal. f_equal. lia.
Qed.

Lemma shl_align_id mx ex ez : ex <= ez -> shl_align mx ex ez = (mx, ex).
Proof.
  intros H. unfold shl_align. destruct (ez - ex) as [|d|d] eqn:E; auto. lia.
Qed.

Lemma Zdigits2_unique m d : 2 ^ (d - 1) <= m < 2 ^ d -> 0 < m -> Zdigits2 m = d.
Proof.
  intros [Hlo Hhi] Hm.
  pose proof (Zdigits2_ge m d Hlo Hm).
  assert (0 <= d).
  { destruct (Z.le_gt_cases 0 d); [lia|]. rewrite Z.pow_neg_r in Hhi; lia. }
  pose proof (Zdigits2_le_of_lt m d Hm Hhi). lia.
Qed.

Lemma Zdigits2_shift m j : 0 < m -> 0 <= j -> Zdigits2 (m * 2 ^ j) = Zdigits2 m + j.
Proof.
  intros Hm Hj. destruct (Zdigits2_bounds m Hm) as [Hlo Hhi].
  assert (Hd1 : 1 <= Zdigits2 m) by (destruct m; simpl; lia).
  assert (Hp : 0 < 2 ^ j) by (apply Z.pow_pos_nonneg; lia).
  apply Zdigits2_unique; [|nia].
  replace (Zdigits2 m + j - 1) with (Zdigits2 m - 1 + j) by lia.
  rewrite !Z.pow_add_r by lia. nia.
Qed.

Lemma binary_round_Zval s p e mb eb :
  emin <= e ->
  bounded prec emax mb eb = true ->
  Zpos p * 2 ^ (e - emin) <= Zpos mb * 2 ^ (eb - emin) ->
  SF_finite (binary_round prec emax s p e) = true /\
  Z.abs (Zval (binary_round prec emax s p e)) <= Zpos mb * 2 ^ (eb - emin).
Proof.
  intros He Hb Hle. unfold binary_round.
  destruct (bounded_facts _ _ Hb) as (Heb & _ & _).
  set (f := fexp prec emax (Zpos (digits2_pos p) + e)).
  pose proof (fexp_ge_emin (Zpos (digits2_pos p) + e)) as Hf. fold f in Hf.
  destruct (Z.le_gt_cases e f) as [H|H].
  - rewrite (shl_align_id _ _ _ H).
    apply (binary_round_aux_Zval _ _ _ _ _ _ emin); auto; lia.
  - destruct (shl_align_spec p e f ltac:(lia)) as [Hm Hs].
    destruct (shl_align p e f) as [mz ez]. cbn [fst snd] in Hm, Hs. subst ez.
    apply (binary_round_aux_Zval _ _ _ _ _ _ emin); auto; try lia.
    + rewrite Hm, Zdigits2_shift by lia.
      replace (Zdigits2 (Zpos p) + (e - f) + f) with (Zpos (digits2_pos p) + e)
        by (simpl Zdigits2; lia).
      fold f. lia.
    + cbn [is_exact]. rewrite Hm, <- Z.mul_assoc, <- Z.pow_add_r by lia.
      replace (e - f + (f - emin)) with (e - emin) by lia. exact Hle.
Qed.

Lemma binary_normalize_Zval M e mb eb :
  emin <= e ->
  bounded prec emax mb eb = true ->
  Z.abs M * 2 ^ (e - emin) <= Zpos mb * 2 ^ (eb - emin) ->
  SF_finite (binary_normalize prec emax M e false) = true /\
  Z.abs (Zval (binary_normalize prec emax M e false)) <= Zpos mb * 2 ^ (eb - emin).
Proof.
  intros He Hb Hle. destruct (bounded_facts _ _ Hb) as (Heb & _ & _).
  destruct M as [|p|p]; cbn [binary_normalize].
  - cbn [SF_finite Zval Z.abs]. split; [reflexivity|].
    apply Z.mul_nonneg_nonneg; [lia | apply Z.pow_nonneg; lia].
  - apply binary_round_Zval; auto.
  - apply binary_round_Zval; auto.
Qed.

Lemma SFsub_add_opp x y : SF64sub x y = SF64add x (SFopp y).
Proof.
  unfold SF64sub, SF64add.
  destruct x as [sx|sx| |sx mx ex], y as [sy|sy| |sy my ey]; cbn [SFsub SFadd SFopp];
    try reflexivity; destruct sx, sy; reflexivity.
Qed.

Lemma Zval_align s m e ez :
  emin <= ez <= e ->
  cond_Zopp s (Zpos (fst (shl_align m e ez))) * 2 ^ (ez - emin)
    = Zval (S754_finite s m e).
Proof.
  intros H. destruct (shl_align_spec m e ez ltac:(lia)) as [-> _]. cbn [Zval].
  assert (Hs : 2 ^ (e - emin) = 2 ^ (e - ez) * 2 ^ (ez - emin)).
  { rewrite <- Z.pow_add_r by lia. f_equal. lia. }
  rewrite Hs. destruct s; unfold cond_Zopp; ring.
Qed.

Lemma SFadd_bound x y mb eb :
  valid_binary x = true -> valid_binary y = true ->
  SF_finite x = true -> SF_finite y = true ->
  bounded prec emax mb eb = true ->
  Z.abs (Zval x + Zval y) <= Zpos mb * 2 ^ (eb - emin) ->
  SF_finite (SF64add x y) = true /\
  Z.abs (Zval (SF64add x y)) <= Zpos mb * 2 ^ (eb - emin).
Proof.
  intros Vx Vy Fx Fy Hb Hle.
  destruct (bounded_facts _ _ Hb) as (Heb & _ & _).
  assert (Hpp : 0 <= Zpos mb * 2 ^ (eb - emin)).
  { apply Z.mul_nonneg_nonneg; [lia | apply Z.pow_nonneg; lia]. }
  destruct x as [sx|sx| |sx mx ex], y as [sy|sy| |sy my ey]; try discriminate;
    unfold SF64add; cbn [SFadd].
  - destruct sx, sy; cbn [SF_finite Zval Z.abs]; split; auto.
  - split; [reflexivity|]. cbn [Zval] in *. now rewrite Z.add_0_l in Hle.
  - split; [reflexivity|]. cbn [Zval] in *. now rewrite Z.add_0_r in Hle.
  - cbn [valid_binary] in Vx, Vy.
    destruct (bounded_facts _ _ Vx) as (Hex & _ & _).
    destruct (bounded_facts _ _ Vy) as (Hey & _ & _).
    apply binary_normalize_Zval; auto; [lia|].
    assert (HP : 0 <= 2 ^ (Z.min ex ey - emin)) by (apply Z.pow_nonneg; lia).
    rewrite <- (Z.abs_eq _ HP) at 1. rewrite <- Z.abs_mul.
    rewrite Z.mul_add_distr_r, !Zval_align by lia. exact Hle.
Qed.

Lemma add_bound x y b :
  is_finite x = true -> is_finite y = true -> 0 < FZ b ->
  Z.abs (FZ x + FZ y) <= FZ b ->
  is_finite (x + y) = true /\ Z.abs (FZ (x + y)) <= FZ b.
Proof.
  intros Hx Hy Hb Hle. rewrite is_finite_SF in *.
  destruct (FZ_pos_finite b Hb) as (m & e & Eb & Vb & Zb).
  unfold FZ in *. rewrite add_spec, Zb in *.
  apply SFadd_bound; auto using Prim2SF_valid.
Qed.

Lemma sub_bound x y b :
  is_finite x = true -> is_finite y = true -> 0 < FZ b ->
  Z.abs (FZ x - FZ y) <= FZ b ->
  is_finite (x - y) = true /\ Z.abs (FZ (x - y)) <= FZ b.
Proof.
  intros Hx Hy Hb Hle. rewrite is_finite_SF in *.
  destruct (FZ_pos_finite b Hb) as (m & e & Eb & Vb & Zb).
  unfold FZ in *. rewrite sub_spec, SFsub_add_opp, Zb in *.
  apply SFadd_bound; auto using Prim2SF_valid.
  - pose proof (Prim2SF_valid y). destruct (Prim2SF y); auto.
  - destruct (Prim2SF y); auto.
  - replace (Zval (SFopp (Prim2SF y))) with (- Zval (Prim2SF y)); [exact Hle|].
    destruct (Prim2SF y) as [s|s| |s my ey]; try reflexivity.
    cbn [SFopp Zval]. destruct s; unfold cond_Zopp; cbn [negb]; lia.
Qed.

(** A magnitude below a finite float belongs to a finite float. *)
Lemma abs_leb_FZ x b :
  is_finite b = true -> (abs x <=? b)%float = true ->
  is_finite x = true /\ Z.abs (FZ x) <= FZ b.
Proof.
  intros Hb Hle.
  assert (Hx : is_finite x = true).
  { rewrite is_finite_SF in *. rewrite leb_spec, abs_spec in Hle.
    destruct (Prim2SF x) as [s|s| |s m e]; auto;
      destruct (Prim2SF b); cbn in *; congruence. }
  split; [exact Hx|].
  rewrite leb_FZ in Hle by (rewrite ?is_finite_abs; assumption).
  rewrite FZ_abs in Hle. apply Z.leb_le. exact Hle.
Qed.

Lemma FZ_abs_leb x b :
  is_finite x = true -> is_finite b = true -> Z.abs (FZ x) <= FZ b ->
  (abs x <=? b)%float = true.
Proof.
  intros Hx Hb Hle. rewrite leb_FZ by (rewrite ?is_finite_abs; assumption).
  rewrite FZ_abs. apply Z.leb_le. exact Hle.
Qed.

Lemma FZ_between x b :
  is_finite x = true -> is_finite b = true -> Z.abs (FZ x) <= FZ b ->
  (- b <=? x)%float = true /\ (x <=? b)%float = true.
Proof.
  intros Hx Hb Hle. split.
  - rewrite leb_FZ by (rewrite ?is_finite_opp; assumption).
    rewrite FZ_opp. apply Z.leb_le. lia.
  - rewrite leb_FZ by assumption. apply Z.leb_le. lia.
Qed.

(** A float in [[0, 1)] is finite, with a value between those of 0 and 1. *)
Lemma unit_interval_FZ u :
  (0 <=? u)%float = true -> (u <? 1)%float = true ->
  is_finite u = true /\ 0 <= FZ u < FZ 1.
Proof.
  intros H0 H1.
  assert (Hu : is_finite u = true).
  { rewrite is_finite_SF. rewrite leb_spec in H0. rewrite ltb_spec in H1.
    change (Prim2SF 0) with (S754_zero false) in H0.
    destruct (Prim2SF u) as [s|s| |s m e]; auto; cbn in *; try congruence.
    destruct s; congruence. }
  split; [exact Hu|].
  rewrite leb_FZ in H0 by auto. rewrite ltb_FZ in H1 by auto.
  apply Z.leb_le in H0. apply Z.ltb_lt in H1. change (FZ 0) with 0 in H0. lia.
Qed.

(** ** The random initial field *)

Lemma random_cell_range u :
  (0 <=? u)%float = true -> (u <? 1)%float = true ->
  let v := (1e-10 * (u - 0.5))%float in
  is_finite v = true /\
  (- init_amp <=? v)%float = true /\ (v <=? init_amp)%float = true /\
  (abs v <=? 1e5)%float = true.
Proof.
  intros H0 H1 v.
  destruct (unit_interval_FZ u H0 H1) as [Hu Hr].
  assert (E1 : FZ 1 = 2 * FZ 0.5) by (vm_compute; reflexivity).
  assert (P5 : 0 < FZ 0.5) by (vm_compute; reflexivity).
  destruct (sub_bound u 0.5 0.5 Hu eq_refl P5) as [Fw Bw]; [lia|].
  assert (Pc : 0 <= FZ 1e-10) by (vm_compute; discriminate).
  assert (Ph : 0 < FZ init_amp) by (vm_compute; reflexivity).
  assert (Hc : Z.abs (FZ 1e-10) * FZ 0.5 <= FZ init_amp * 2 ^ (- emin))
    by (vm_compute; discriminate).
  destruct (mul_bound 1e-10 (u - 0.5) init_amp eq_refl Fw Ph) as [Fv Bv].
  { eapply Z.le_trans; [|exact Hc].
    apply Z.mul_le_mono_nonneg_l; [apply Z.abs_nonneg | exact Bw]. }
  fold v in Fv, Bv.
  destruct (FZ_between v init_amp Fv eq_refl Bv) as [L1 L2].
  repeat split; auto.
  apply FZ_abs_leb; auto.
  assert (FZ init_amp <= FZ 1e5) by (vm_compute; discriminate). lia.
Qed.

#[local] Close Scope Z_scope.

#[local] Open Scope float_scope.

(** ** C7 *)

Lemma Forall_flat (P : float -> Prop) (A : array3) :
  Forall (Forall (Forall P)) A -> Forall P (flat A).
Proof.
  intros H. unfold flat. apply Forall_concat. apply Forall_concat. exact H.
Qed.

Lemma ref_laws : ExternLaws ref_ext.
Proof.
  split.
  - intros s. cbn [random_sample ref_ext fst].
    assert (H : (s mod 8 < 8)%nat) by (apply Nat.mod_upper_bound; lia).
    destruct (s mod 8)%nat as [|[|[|[|[|[|[|[|n]]]]]]]]; try (split; reflexivity). lia.
  - intros x _. cbn [sin ref_ext]. unfold ref_sin.
    destruct (abs (x - x * x * x / 6) <=? 1) eqn:E; [exact E | reflexivity].
Qed.

Section RandomInit.
Context {ext : Extern} {laws : ExternLaws ext}.

Lemma rand_range n1 n2 n3 s r s' :
  np.rand n1 n2 n3 s = Ok (r, s') ->
  Forall (fun u => (0 <=? u) = true /\ (u <? 1) = true) (flat r).
Proof.
  unfold np.rand. destruct (_ || _)%bool; [discriminate|].
  intros H. injection H as H.
  assert (Hr : r = fst (np.draw_list
              (np.draw_list (np.draw_list random_sample (Z.to_nat n3)) (Z.to_nat n2))
              (Z.to_nat n1) s)) by now rewrite H.
  subst r. apply Forall_flat.
  apply draw_list_Forall. intros s1.
  apply draw_list_Forall. intros s2.
  apply draw_list_Forall. intros s3. apply random_sample_range.
Qed.

Lemma random_field_range params s F Fp s' :
  params.(random_init) = true ->
  initialize_field_3d params s = Ok ((F, Fp), s') ->
  Forall (fun v => is_finite v = true /\
                   (- init_amp <=? v) = true /\ (v <=? init_amp) = true /\
                   (abs v <=? 1e5) = true) (flat F).
Proof.
  unfold initialize_field_3d. intros ->.
  destruct (np.rand _ _ _ _) as [[r s1]|] eqn:Hr; [|discriminate].
  simpl. intros H. injection H as <- _ _.
  apply rand_range in Hr. rewrite flat_amap, Forall_map.
  eapply Forall_impl; [|exact Hr].
  intros u [H0 H1]. apply (random_cell_range u H0 H1).
Qed.
End RandomInit.

(** C7.  In random mode the initializer reseeds the generator with 42
    before it draws: its result is the same from every state of the
    generator and for every parameter set of the same grid shape, whatever
    [alpha] and [beta] are; the two returned arrays are equal; and every
    value lies between [-(1e-10 * 0.5)] and [1e-10 * 0.5]. *)
Theorem random_init_deterministic {ext : Extern} {laws : ExternLaws ext}
    params params' s s2 F Fp s' :
  params.(random_init) = true -> params'.(random_init) = true ->
  params'.(nx) = params.(nx) -> params'.(ny) = params.(ny) ->
  params'.(nz) = params.(nz) ->
  initialize_field_3d params s = Ok ((F, Fp), s') ->
  initialize_field_3d params' s2 = Ok ((F, Fp), s') /\
  initialize_field_3d params s = initialize_field_3d params (seed 42) /\
  Fp = F /\
  Forall (fun v => (1e-10 * -0.5 <=? v) = true /\ (v <=? 1e-10 * 0.5) = true) (flat F).
Proof.
  intros Hr Hr' Hx Hy Hz HI.
  split; [|split; [|split]].
  - unfold initialize_field_3d in *. rewrite Hr in HI. rewrite Hr', Hx, Hy, Hz. exact HI.
  - unfold initialize_field_3d. rewrite Hr. reflexivity.
  - apply (initialize_field_3d_grid _ _ _ _ _ HI).
  - eapply Forall_impl; [|apply (random_field_range params s F Fp s' Hr HI)].
    intros v (_ & L1 & L2 & _). split; [exact L1 | exact L2].
Qed.

Lemma random_init_deterministic_witness :
  initialize_field_3d (ext := ref_ext) unstable_params 7%nat
    = Ok ((small_F0, small_F0), 69%nat).
Proof.
  refine (proj1 (random_init_deterministic (ext := ref_ext) (laws := ref_laws)
                   (small_params 2) unstable_params 0%nat 7%nat
                   small_F0 small_F0 69%nat _ _ _ _ _ _)).
  - reflexivity.
  - reflexivity.
  - reflexivity.
  - reflexivity.
  - reflexivity.
  - vm_compute; reflexivity.
Defined.

#[local] Open Scope Z_scope.

(** ** Bounds on quotients *)

Lemma new_location_exact m r : is_exact (new_location m r) = (r =? 0).
Proof.
  unfold new_location, new_location_even, new_location_odd.
  destruct (Z.even m); destruct (r =? 0); reflexivity.
Qed.

Lemma SFdiv_core_binary_spec mx ex my ey :
  let e' := Z.min (fexp prec emax (Zpos (digits2_pos mx) + ex - (Zpos (digits2_pos my) + ey)))
                  (ex - ey) in
  let N := Zpos mx * 2 ^ (ex - ey - e') in
  SFdiv_core_binary prec emax (Zpos mx) ex (Zpos my) ey
    = (N / Zpos my, e', new_location (Zpos my) (N mod Zpos my)).
Proof.
  intros e' N. unfold SFdiv_core_binary. cbn [Zdigits2]. fold e'.
  assert (Hs : 0 <= ex - ey - e') by (unfold e'; lia).
  assert (Hm : match ex - ey - e' with
               | Zpos _ => Z.shiftl (Zpos mx) (ex - ey - e')
               | Z0 => Zpos mx
               | Zneg _ => 0
               end = N).
  { unfold N. destruct (ex - ey - e') as [|p|p] eqn:E.
    - rewrite Z.pow_0_r. lia.
    - rewrite Z.shiftl_mul_pow2 by lia. reflexivity.
    - lia. }
  rewrite Hm. unfold Z.div, Z.modulo. destruct (Z.div_eucl N (Zpos my)). reflexivity.
Qed.

Lemma SFdiv_bound x y mb eb :
  valid_binary x = true -> valid_binary y = true ->
  SF_finite x = true -> SF_finite y = true -> Zval y <> 0 ->
  bounded prec emax mb eb = true ->
  Z.abs (Zval x) * 2 ^ (- emin) <= Zpos mb * 2 ^ (eb - emin) * Z.abs (Zval y) ->
  SF_finite (SF64div x y) = true /\
  Z.abs (Zval (SF64div x y)) <= Zpos mb * 2 ^ (eb - emin).
Proof.
  intros Vx Vy Fx Fy Hy0 Hb Hle.
  pose proof emin_eq as Hemin. pose proof prec_eq as Hprec.
  destruct (bounded_facts _ _ Hb) as (Heb & _ & _).
  assert (Hpp : 0 <= Zpos mb * 2 ^ (eb - emin)).
  { apply Z.mul_nonneg_nonneg; [lia | apply Z.pow_nonneg; lia]. }
  destruct y as [sy|sy| |sy my ey]; try discriminate; [cbn [Zval] in Hy0; lia|].
  destruct x as [sx|sx| |sx mx ex]; try discriminate;
    unfold SF64div; cbn [SFdiv SF_finite Zval Z.abs]; [split; [reflexivity | lia]|].
  cbn [valid_binary] in Vx, Vy.
  destruct (bounded_facts _ _ Vx) as (Hex & Hmx & _).
  destruct (bounded_facts _ _ Vy) as (Hey & Hmy & _).
  cbn [Zval] in Hle.
  assert (Ax : Z.abs (cond_Zopp sx (Zpos mx * 2 ^ (ex - emin))) = Zpos mx * 2 ^ (ex - emin)).
  { pose proof (Zval_pos mx ex (proj1 Hex)). destruct sx; unfold cond_Zopp; lia. }
  assert (Ay : Z.abs (cond_Zopp sy (Zpos my * 2 ^ (ey - emin))) = Zpos my * 2 ^ (ey - emin)).
  { pose proof (Zval_pos my ey (proj1 Hey)). destruct sy; unfold cond_Zopp; lia. }
  rewrite Ax, Ay in Hle. clear Ax Ay.
  rewrite SFdiv_core_binary_spec.
  set (d1 := Zpos (digits2_pos mx)) in *. set (d2 := Zpos (digits2_pos my)) in *.
  set (D := d1 + ex - (d2 + ey)) in *.
  set (e' := Z.min (fexp prec emax D) (ex - ey)) in *.
  set (s := ex - ey - e') in *.
  set (N := Zpos mx * 2 ^ s) in *.
  assert (Hs : 0 <= s) by (unfold s, e'; lia).
  destruct (digits2_pos_bounds mx) as [Lx Ux]. fold d1 in Lx, Ux.
  destruct (digits2_pos_bounds my) as [Ly Uy]. fold d2 in Ly, Uy.
  destruct (digits2_pos_bounds mb) as [Lb Ub].
  set (db := Zpos (digits2_pos mb)) in *.
  assert (Hd1 : 1 <= d1) by (unfold d1; lia).
  assert (Hd2 : 1 <= d2) by (unfold d2; lia).
  assert (Hdb : 1 <= db) by (unfold db; lia).
  (* the hypothesis, with the powers of two gathered *)
  assert (Hle' : Zpos mx * 2 ^ (ex - 2 * emin) <= Zpos mb * Zpos my * 2 ^ (eb + ey - 2 * emin)).
  { replace (ex - 2 * emin) with ((ex - emin) + (- emin)) by lia.
    replace (eb + ey - 2 * emin) with ((eb - emin) + (ey - emin)) by lia.
    rewrite !Z.pow_add_r by lia. lia. }
  (* the bound lies on the grid of the quotient *)
  assert (HD : D <= db + eb).
  { assert (H1 : 2 ^ (d1 - 1 + (ex - 2 * emin)) <= Zpos mx * 2 ^ (ex - 2 * emin)).
    { rewrite Z.pow_add_r by lia.
      apply Z.mul_le_mono_nonneg_r; [apply Z.pow_nonneg; lia | exact Lx]. }
    assert (H2 : Zpos mb * Zpos my * 2 ^ (eb + ey - 2 * emin)
                 < 2 ^ (db + d2 + (eb + ey - 2 * emin))).
    { rewrite !Z.pow_add_r by lia.
      assert (0 < 2 ^ (eb + ey - 2 * emin)) by (apply Z.pow_pos_nonneg; lia).
      assert (Zpos mb * Zpos my < 2 ^ db * 2 ^ d2) by nia. nia. }
    assert (H3 : 2 ^ (d1 - 1 + (ex - 2 * emin)) < 2 ^ (db + d2 + (eb + ey - 2 * emin))) by lia.
    apply Z.pow_lt_mono_r_iff in H3; unfold D; lia. }
  pose proof (proj1 (proj1 (andb_true_iff _ _) Hb)) as Hcan.
  pose proof (canonical_fexp _ _ Hcan) as Hebf. fold db in Hebf.
  assert (He'b : e' <= eb).
  { pose proof (fexp_mono _ _ HD). unfold e'. lia. }
  set (b := Zpos mb * 2 ^ (eb - e')).
  assert (HN : N <= b * Zpos my).
  { unfold N, b. destruct (Z.le_gt_cases 0 (ey + e' - 2 * emin)) as [Ht|Ht].
    - replace (ex - 2 * emin) with (s + (ey + e' - 2 * emin)) in Hle' by (unfold s; lia).
      replace (eb + ey - 2 * emin) with ((eb - e') + (ey + e' - 2 * emin)) in Hle' by lia.
      rewrite !Z.pow_add_r in Hle' by lia.
      assert (0 < 2 ^ (ey + e' - 2 * emin)) by (apply Z.pow_pos_nonneg; lia). nia.
    - replace s with ((ex - 2 * emin) + (- (ey + e' - 2 * emin))) by (unfold s; lia).
      replace (eb - e') with ((eb + ey - 2 * emin) + (- (ey + e' - 2 * emin))) by lia.
      rewrite !Z.pow_add_r by lia.
      assert (0 < 2 ^ (- (ey + e' - 2 * emin))) by (apply Z.pow_pos_nonneg; lia). nia. }
  assert (HNpos : 0 < N) by (unfold N; apply Z.mul_pos_pos; [lia | apply Z.pow_pos_nonneg; lia]).
  pose proof (Z.div_mod N (Zpos my) ltac:(lia)) as Hdm.
  pose proof (Z.mod_pos_bound N (Zpos my) ltac:(lia)) as Hr.
  assert (Hq0 : 0 <= N / Zpos my) by (apply Z.div_pos; lia).
  apply (binary_round_aux_Zval _ _ _ _ _ _ e'); auto; try lia.
  - (* the quotient needs no left shift *)
    destruct (Z.le_gt_cases (D - prec) emin) as [Hsub|Hnorm].
    + assert (e' <= emin) by (unfold e', fexp; lia).
      pose proof (fexp_ge_emin (Zdigits2 (N / Zpos my) + e')). lia.
    + assert (He' : e' <= D - prec) by (unfold e', fexp; lia).
      assert (Hsge : prec + d2 - d1 <= s) by (unfold s, D in *; lia).
      assert (HNge : 2 ^ (prec - 1) * 2 ^ d2 <= N).
      { unfold N. rewrite <- Z.pow_add_r by lia.
        assert (2 ^ (prec - 1 + d2) <= 2 ^ (d1 - 1 + s)) by (apply Z.pow_le_mono_r; lia).
        rewrite (Z.pow_add_r 2 (d1 - 1) s) in H by lia.
        assert (0 < 2 ^ s) by (apply Z.pow_pos_nonneg; lia). nia. }
      assert (Hqge : 2 ^ (prec - 1) <= N / Zpos my).
      { apply Z.div_le_lower_bound; [lia|].
        assert (0 < 2 ^ (prec - 1)) by (apply Z.pow_pos_nonneg; lia). nia. }
      assert (prec <= Zdigits2 (N / Zpos my)).
      { apply Zdigits2_ge; [exact Hqge|].
        assert (0 < 2 ^ (prec - 1)) by (apply Z.pow_pos_nonneg; lia). lia. }
      unfold fexp. lia.
  - rewrite new_location_exact, Z.sub_diag, Z.pow_0_r, Z.mul_1_r. fold b.
    destruct (Z.eqb_spec (N mod Zpos my) 0) as [E|E]; nia.
Qed.

Lemma div_bound x y b :
  is_finite x = true -> is_finite y = true -> FZ y <> 0 -> 0 < FZ b ->
  Z.abs (FZ x) * 2 ^ (- emin) <= FZ b * Z.abs (FZ y) ->
  is_finite (x / y) = true /\ Z.abs (FZ (x / y)) <= FZ b.
Proof.
  intros Hx Hy Hy0 Hb Hle. rewrite is_finite_SF in *.
  destruct (FZ_pos_finite b Hb) as (m & e & Eb & Vb & Zb).
  unfold FZ in *. rewrite div_spec, Zb in *.
  apply SFdiv_bound; auto using Prim2SF_valid.
Qed.

(** ** Integers that convert exactly *)

Lemma binary_round_aux_exact s m e :
  bounded prec emax m e = true ->
  binary_round_aux prec emax s (Zpos m) e loc_Exact = S754_finite s m e.
Proof.
  intros Hb. apply andb_true_iff in Hb as [Hcan He]. apply Z.leb_le in He.
  pose proof (canonical_fexp _ _ Hcan) as Hf.
  unfold binary_round_aux, shr_fexp. cbn [Zdigits2].
  rewrite <- Hf, Z.sub_diag. cbn [shr shr_record_of_loc shr_m loc_of_shr_record round_nearest_even].
  cbn [Zdigits2]. rewrite <- Hf, Z.sub_diag. cbn [shr shr_record_of_loc shr_m].
  destruct (Z.leb_spec e (emax - prec)); [reflexivity | lia].
Qed.

Lemma binary_round_int s p :
  Zpos p < 2 ^ prec ->
  SF_finite (binary_round prec emax s p 0) = true /\
  Zval (binary_round prec emax s p 0) = cond_Zopp s (Zpos p * 2 ^ (- emin)).
Proof.
  intros Hp. pose proof emin_eq as Hemin. pose proof prec_eq as Hprec.
  assert (Hem : emax = 1024) by reflexivity.
  unfold binary_round.
  destruct (digits2_pos_bounds p) as [Lp Up].
  set (d := Zpos (digits2_pos p)) in *.
  assert (Hd : 1 <= d <= prec).
  { split; [unfold d; lia|].
    destruct (Z.le_gt_cases d prec) as [H|H]; [exact H|].
    assert (2 ^ prec <= 2 ^ (d - 1)) by (apply Z.pow_le_mono_r; lia). lia. }
  assert (Hf : fexp prec emax (d + 0) = d - prec) by (unfold fexp; lia).
  rewrite Hf.
  destruct (shl_align_spec p 0 (d - prec) ltac:(lia)) as [Hm Hs].
  destruct (shl_align p 0 (d - prec)) as [mz ez]. cbn [fst snd] in Hm, Hs. subst ez.
  assert (Hdz : Zpos (digits2_pos mz) = prec).
  { change (Zpos (digits2_pos mz)) with (Zdigits2 (Zpos mz)).
    rewrite Hm, Zdigits2_shift by lia. cbn [Zdigits2]. fold d. lia. }
  rewrite binary_round_aux_exact.
  - cbn [SF_finite Zval]. split; [reflexivity|]. f_equal.
    rewrite Hm, <- Z.mul_assoc, <- Z.pow_add_r by lia. f_equal. f_equal. lia.
  - unfold bounded, canonical_mantissa. rewrite Hdz.
    apply andb_true_iff. split; [apply Z.eqb_eq; unfold fexp | apply Z.leb_le]; lia.
Qed.

Lemma Z2float_exact z :
  - 2 ^ prec < z < 2 ^ prec ->
  is_finite (Z2float z) = true /\ FZ (Z2float z) = z * 2 ^ (- emin).
Proof.
  intros Hz.
  assert (Hw : 2 ^ prec < Uint63Axioms.wB) by (vm_compute; reflexivity).
  assert (Hconv : forall p, Zpos p < 2 ^ prec ->
            SF_finite (Prim2SF (of_uint63 (Uint63Axioms.of_Z (Zpos p)))) = true /\
            Zval (Prim2SF (of_uint63 (Uint63Axioms.of_Z (Zpos p)))) = Zpos p * 2 ^ (- emin)).
  { intros p Hp. rewrite of_uint63_spec, Uint63.of_Z_spec, Z.mod_small by lia.
    cbn [binary_normalize]. apply (binary_round_int false p Hp). }
  unfold Z2float. destruct z as [|p|p].
  - split; reflexivity.
  - cbn [Z.ltb Z.compare]. rewrite is_finite_SF. apply Hconv. lia.
  - cbn [Z.ltb Z.compare Z.opp]. rewrite is_finite_opp, is_finite_SF. unfold FZ.
    rewrite opp_spec.
    destruct (Hconv p ltac:(lia)) as [Hf Hv]. split; [exact Hf|].
    destruct (Prim2SF (of_uint63 (Uint63Axioms.of_Z (Zpos p)))) as [s|s| |s m e];
      cbn [SF_finite SFopp Zval] in *; try discriminate.
    rewrite <- Pos2Z.opp_pos. destruct s; unfold cond_Zopp in *; cbn [negb]; lia.
Qed.

(** ** The coordinates built by linspace *)

Lemma Forall_removelast {A : Type} (P : A -> Prop) (l : list A) :
  Forall P l -> Forall P (removelast l).
Proof.
  induction 1 as [|x l Hx Hl IH]; simpl; [constructor|].
  destruct l; [constructor | constructor; assumption].
Qed.


Lemma linspace_bounded start stop num l bS bD bP bY :
  0 <= num < 2 ^ prec ->
  np.linspace start stop num = Ok l ->
  is_finite start = true -> is_finite stop = true ->
  Z.abs (FZ start) <= FZ bS -> Z.abs (FZ stop) <= FZ bS ->
  0 < FZ bS -> FZ bS + FZ bS <= FZ bD -> 2 ^ prec * FZ bD <= FZ bP ->
  FZ bP + FZ bS <= FZ bY ->
  is_finite bY = true ->
  Forall (fun y => is_finite y = true /\ Z.abs (FZ y) <= FZ bY) l.
Proof.
  intros Hnum Hl Fs Ft Bs Bt PS HD HP HY FY.
  pose proof emin_eq as Hemin. pose proof prec_eq as Hprec.
  assert (Hpow : 0 < 2 ^ (- emin)) by (apply Z.pow_pos_nonneg; lia).
  assert (Hp53 : 0 < 2 ^ prec) by (apply Z.pow_pos_nonneg; lia).
  unfold np.linspace in Hl. destruct (Z.ltb_spec num 0) as [|_]; [lia|].
  injection Hl as <-.
  (* delta *)
  destruct (sub_bound stop start bD Ft Fs ltac:(lia) ltac:(lia)) as [Fd Bd].
  set (delta := (stop - start)%float) in *.
  assert (PD : 0 < FZ bD) by lia.
  assert (PP : 0 < FZ bP) by nia.
  assert (PY : 0 < FZ bY) by lia.
  (* the index as a float *)
  assert (Hidx : forall i, In i (seq 0 (Z.to_nat num)) ->
            is_finite (Z2float (Z.of_nat i)) = true /\
            FZ (Z2float (Z.of_nat i)) = Z.of_nat i * 2 ^ (- emin) /\
            0 <= Z.of_nat i < 2 ^ prec).
  { intros i Hi. apply in_seq in Hi.
    destruct (Z2float_exact (Z.of_nat i)) as [F E]; [lia|]. repeat split; auto; lia. }
  (* a product with a factor below [bD] *)
  assert (Hprod : forall v w, is_finite v = true -> is_finite w = true ->
            Z.abs (FZ v) <= 2 ^ prec * 2 ^ (- emin) -> Z.abs (FZ w) <= FZ bD ->
            is_finite (v * w) = true /\ Z.abs (FZ (v * w)) <= FZ bP).
  { intros v w Fv Fw Bv Bw. apply mul_bound; auto.
    assert (Z.abs (FZ v) * Z.abs (FZ w) <= 2 ^ prec * 2 ^ (- emin) * FZ bD).
    { apply Z.mul_le_mono_nonneg; auto; apply Z.abs_nonneg. }
    nia. }
  assert (Hsum : forall v, is_finite v = true -> Z.abs (FZ v) <= FZ bP ->
            is_finite (v + start) = true /\ Z.abs (FZ (v + start)) <= FZ bY).
  { intros v Fv Bv. apply add_bound; auto. lia. }
  assert (Hbody : Forall (fun y => is_finite y = true /\ Z.abs (FZ y) <= FZ bY)
            (map (fun v => (v + start)%float)
               (if (0 <? num - 1)
                then
                  if ((delta / Z2float (num - 1)) =? 0)%float
                  then map (fun v => (v / Z2float (num - 1) * delta)%float)
                         (map (fun i => Z2float (Z.of_nat i)) (seq 0 (Z.to_nat num)))
                  else map (fun v => (v * (delta / Z2float (num - 1)))%float)
                         (map (fun i => Z2float (Z.of_nat i)) (seq 0 (Z.to_nat num)))
                else map (fun v => (v * delta)%float)
                       (map (fun i => Z2float (Z.of_nat i)) (seq 0 (Z.to_nat num)))))).
  { apply Forall_map.
    destruct (Z.ltb_spec 0 (num - 1)) as [Hdiv|Hdiv].
    - destruct (Z2float_exact (num - 1)) as [Fdiv Ediv]; [lia|].
      assert (Hdivpos : 2 ^ (- emin) <= Z.abs (FZ (Z2float (num - 1)))).
      { rewrite Ediv. rewrite Z.abs_eq by nia. nia. }
      assert (N0' : FZ (Z2float (num - 1)) <> 0) by lia.
      assert (Hst : Z.abs (FZ delta) * 2 ^ (- emin)
                    <= FZ bD * Z.abs (FZ (Z2float (num - 1)))).
      { assert (FZ bD * 2 ^ (- emin) <= FZ bD * Z.abs (FZ (Z2float (num - 1))))
          by (apply Z.mul_le_mono_nonneg_l; lia).
        assert (Z.abs (FZ delta) * 2 ^ (- emin) <= FZ bD * 2 ^ (- emin))
          by (apply Z.mul_le_mono_nonneg_r; lia).
        lia. }
      destruct (div_bound delta (Z2float (num - 1)) bD Fd Fdiv N0' PD Hst) as [Fstep Bstep].
      destruct (_ =? 0)%float.
      + apply Forall_map, Forall_map, Forall_forall. intros i Hi.
        destruct (Hidx i Hi) as (Fi & Ei & Ri).
        assert (N0 : FZ (Z2float (num - 1)) <> 0) by lia.
        assert (P53 : 0 < FZ two53) by (vm_compute; reflexivity).
        assert (Hq : Z.abs (FZ (Z2float (Z.of_nat i))) * 2 ^ (- emin)
                     <= FZ two53 * Z.abs (FZ (Z2float (num - 1)))).
        { change (FZ two53) with (2 ^ prec * 2 ^ (- emin)).
          rewrite Ei, Z.abs_eq by nia.
          assert (2 ^ prec * 2 ^ (- emin) * 2 ^ (- emin)
                  <= 2 ^ prec * 2 ^ (- emin) * Z.abs (FZ (Z2float (num - 1))))
            by (apply Z.mul_le_mono_nonneg_l; nia).
          nia. }
        destruct (div_bound (Z2float (Z.of_nat i)) (Z2float (num - 1)) two53
                    Fi Fdiv N0 P53 Hq) as [Fq Bq].
        change (FZ two53) with (2 ^ prec * 2 ^ (- emin)) in Bq.
        destruct (Hprod _ delta Fq Fd Bq Bd) as [F1 B1]. apply Hsum; auto.
      + apply Forall_map, Forall_map, Forall_forall. intros i Hi.
        destruct (Hidx i Hi) as (Fi & Ei & Ri).
        assert (Bi : Z.abs (FZ (Z2float (Z.of_nat i))) <= 2 ^ prec * 2 ^ (- emin))
          by (rewrite Ei, Z.abs_eq by nia; nia).
        destruct (Hprod (Z2float (Z.of_nat i)) _ Fi Fstep Bi Bstep) as [F1 B1].
        apply Hsum; auto.
    - apply Forall_map, Forall_map, Forall_forall. intros i Hi.
      destruct (Hidx i Hi) as (Fi & Ei & Ri).
      assert (Bi : Z.abs (FZ (Z2float (Z.of_nat i))) <= 2 ^ prec * 2 ^ (- emin))
        by (rewrite Ei, Z.abs_eq by nia; nia).
      destruct (Hprod (Z2float (Z.of_nat i)) delta Fi Fd Bi Bd) as [F1 B1].
      apply Hsum; auto. }
  destruct (1 <? num).
  - apply Forall_app. split; [apply Forall_removelast; exact Hbody|].
    constructor; [|constructor]. split; [exact Ft | lia].
  - exact Hbody.
Qed.

#[local] Close Scope Z_scope.
#[local] Open Scope float_scope.

(** ** The sine initial field *)

Lemma Forall_map2_both {A B C : Type} (P : A -> Prop) (Q : B -> Prop) (R : C -> Prop)
    (f : A -> B -> C) (l1 : list A) (l2 : list B) :
  (forall a b, P a -> Q b -> R (f a b)) ->
  Forall P l1 -> Forall Q l2 -> Forall R (map2 f l1 l2).
Proof.
  intros Hf H1. revert l2.
  induction H1 as [|a l1 Ha _ IH]; intros l2 H2; [constructor|].
  destruct H2 as [|b l2 Hb H2]; simpl; [constructor|].
  constructor; [apply Hf; assumption | apply IH; assumption].
Qed.

Lemma all_cells_amap (P Q : float -> Prop) (f : float -> float) (A : array3) :
  (forall a, P a -> Q (f a)) -> all_cells P A -> all_cells Q (amap f A).
Proof.
  intros Hf H. unfold all_cells, amap in *.
  apply Forall_map. eapply Forall_impl; [|exact H]. intros pl Hpl.
  apply Forall_map. eapply Forall_impl; [|exact Hpl]. intros r Hr.
  apply Forall_map. eapply Forall_impl; [|exact Hr]. exact Hf.
Qed.

Lemma all_cells_amap2 (P Q R : float -> Prop) (f : float -> float -> float)
    (A B : array3) :
  (forall a b, P a -> Q b -> R (f a b)) ->
  all_cells P A -> all_cells Q B -> all_cells R (amap2 f A B).
Proof.
  intros Hf HA HB. unfold all_cells, amap2 in *.
  eapply Forall_map2_both; [|exact HA|exact HB]. intros p q Hp Hq.
  eapply Forall_map2_both; [|exact Hp|exact Hq]. intros r1 r2 H1 H2.
  eapply Forall_map2_both; [|exact H1|exact H2]. exact Hf.
Qed.

Lemma all_cells_meshgrid (P : float -> Prop) (x y z : array1) :
  Forall P x -> Forall P y -> Forall P z ->
  let '(X, Y, Z_) := np.meshgrid x y z in
  all_cells P X /\ all_cells P Y /\ all_cells P Z_.
Proof.
  intros Hx Hy Hz. unfold np.meshgrid, all_cells. repeat split.
  - apply Forall_map. eapply Forall_impl; [|exact Hx]. intros a Ha.
    apply Forall_repeat, Forall_repeat, Ha.
  - apply Forall_repeat. apply Forall_map. eapply Forall_impl; [|exact Hy].
    intros a Ha. apply Forall_repeat, Ha.
  - apply Forall_repeat, Forall_repeat, Hz.
Qed.

Lemma all_cells_flat (P : float -> Prop) (A : array3) :
  all_cells P A -> Forall P (flat A).
Proof. apply Forall_flat. Qed.

Lemma linspace_pi_finite n l :
  (n < 2 ^ prec)%Z -> np.linspace 0 np.pi n = Ok l -> Forall (fun y => is_finite y = true) l.
Proof.
  intros Hn Hl.
  assert (H0 : (0 <= n)%Z).
  { unfold np.linspace in Hl. destruct (Z.ltb_spec n 0); [discriminate | assumption]. }
  assert (H : Forall (fun y => is_finite y = true /\
                               (Z.abs (FZ y) <= FZ 144115188075855872)%Z) l).
  { apply (linspace_bounded 0 np.pi n l 4 8 72057594037927936 144115188075855872);
      try assumption; try (split; assumption);
      try reflexivity; try (vm_compute; reflexivity);
      vm_compute; intro; discriminate. }
  eapply Forall_impl; [|exact H]. intros y [Hy _]. exact Hy.
Qed.

Section SineInit.
Context {ext : Extern} {laws : ExternLaws ext}.

Lemma sin_FZ x : is_finite x = true ->
  is_finite (sin x) = true /\ (Z.abs (FZ (sin x)) <= FZ 1)%Z.
Proof.
  intros Hx. apply abs_leb_FZ; [reflexivity|]. apply sin_range, Hx.
Qed.

Lemma sine_cell_range x y z :
  is_finite x = true -> is_finite y = true -> is_finite z = true ->
  let v := 1e-10 * sin x * sin y * sin z in
  is_finite v = true /\ (abs v <=? 1e-10) = true /\ (abs v <=? 1e5) = true.
Proof.
  intros Hx Hy Hz.
  destruct (sin_FZ x Hx) as [Fx Bx]. destruct (sin_FZ y Hy) as [Fy By].
  destruct (sin_FZ z Hz) as [Fz Bz].
  assert (P : (0 < FZ 1e-10)%Z) by (vm_compute; reflexivity).
  assert (E1 : FZ 1 = (2 ^ (- emin))%Z) by (vm_compute; reflexivity).
  assert (Hstep : forall a b, is_finite a = true -> is_finite b = true ->
            (Z.abs (FZ a) <= FZ 1e-10)%Z -> (Z.abs (FZ b) <= FZ 1)%Z ->
            is_finite (a * b) = true /\ (Z.abs (FZ (a * b)) <= FZ 1e-10)%Z).
  { intros a b Fa Fb Ba Bb. apply mul_bound; auto.
    rewrite <- E1. apply Z.mul_le_mono_nonneg; auto; apply Z.abs_nonneg. }
  destruct (Hstep 1e-10 (sin x) eq_refl Fx) as [F1 B1]; auto.
  { vm_compute; intro; discriminate. }
  destruct (Hstep _ (sin y) F1 Fy B1 By) as [F2 B2].
  destruct (Hstep _ (sin z) F2 Fz B2 Bz) as [F3 B3].
  cbv zeta. split; [exact F3|]. split.
  - apply FZ_abs_leb; auto.
  - apply FZ_abs_leb; auto. 
    assert (FZ 1e-10 <= FZ 1e5)%Z by (vm_compute; intro; discriminate). lia.
Qed.

Lemma sine_field_range params s F Fp s' :
  params.(random_init) = false ->
  (params.(nx) < 2 ^ prec)%Z -> (params.(ny) < 2 ^ prec)%Z -> (params.(nz) < 2 ^ prec)%Z ->
  initialize_field_3d params s = Ok ((F, Fp), s') ->
  Forall (fun v => is_finite v = true /\ (abs v <=? 1e-10) = true /\
                   (abs v <=? 1e5) = true) (flat F).
Proof.
  unfold initialize_field_3d. intros -> Hx Hy Hz.
  destruct (np.linspace 0 np.pi params.(nx)) as [xs|] eqn:Ex; [|discriminate].
  destruct (np.linspace 0 np.pi params.(ny)) as [ys|] eqn:Ey; [|discriminate].
  destruct (np.linspace 0 np.pi params.(nz)) as [zs|] eqn:Ez; [|discriminate].
  cbn [bind].
  pose proof (all_cells_meshgrid (fun y => is_finite y = true) xs ys zs
                (linspace_pi_finite _ _ Hx Ex) (linspace_pi_finite _ _ Hy Ey)
                (linspace_pi_finite _ _ Hz Ez)) as HM.
  destruct (np.meshgrid xs ys zs) as [[X Y] Z_].
  destruct HM as (HX & HY & HZ).
  intros H. injection H as <- _ _.
  apply all_cells_flat.
  set (Sx := fun v => exists x, is_finite x = true /\ v = 1e-10 * sin x).
  set (Sy := fun v => exists x y, is_finite x = true /\ is_finite y = true /\
                        v = 1e-10 * sin x * sin y).
  set (Sn := fun v => exists x, is_finite x = true /\ v = sin x).
  assert (A1 : all_cells Sx (amap (fun v => 1e-10 * v) (amap sin X))).
  { eapply all_cells_amap with (P := Sn).
    - intros a (x & Fx & ->). exists x. auto.
    - eapply all_cells_amap; [|exact HX]. intros a Fa. exists a. auto. }
  assert (A2 : all_cells Sy (amap2 mul (amap (fun v => 1e-10 * v) (amap sin X)) (amap sin Y))).
  { eapply all_cells_amap2 with (P := Sx) (Q := Sn); [|exact A1|].
    - intros a b (x & Fx & ->) (y & Fy & ->). exists x, y. auto.
    - eapply all_cells_amap; [|exact HY]. intros a Fa. exists a. auto. }
  eapply all_cells_amap2 with (P := Sy) (Q := Sn); [|exact A2|].
  - intros a b (x & y & Fx & Fy & ->) (z & Fz & ->).
    apply (sine_cell_range x y z Fx Fy Fz).
  - eapply all_cells_amap; [|exact HZ]. intros a Fa. exists a. auto.
Qed.
End SineInit.

(** ** C6 *)

Section Clamp.
Context {ext : Extern} {laws : ExternLaws ext}.

Lemma initial_field_bounded params s F0 Fp0 s1 :
  params.(random_init) = true \/
    (params.(nx) < 2 ^ prec /\ params.(ny) < 2 ^ prec /\ params.(nz) < 2 ^ prec)%Z ->
  initialize_field_3d params s = Ok ((F0, Fp0), s1) ->
  amp_bounded F0.
Proof.
  intros Hmode HI. unfold amp_bounded.
  destruct (random_init params) eqn:Hr.
  - eapply Forall_impl; [|apply (random_field_range params s F0 Fp0 s1 Hr HI)].
    intros v (Fv & _ & _ & Bv). split; assumption.
  - destruct Hmode as [|(Hx & Hy & Hz)]; [discriminate|].
    eapply Forall_impl; [|apply (sine_field_range params s F0 Fp0 s1 Hr Hx Hy Hz HI)].
    intros v (Fv & _ & Bv). split; assumption.
Qed.

Lemma pde_loop_amp_bounded params R_field ts st fin st' :
  amp_bounded st.(E) ->
  pde_loop params R_field ts st = Ok (fin, st') ->
  amp_bounded st'.(E).
Proof.
  intros HB HL.
  destruct (pde_loop_field params R_field ts st fin st' HL) as [->|(t & F & Fp & _ & -> & Hfin)].
  - exact HB.
  - apply clip_finite_bounded. exact Hfin.
Qed.

Lemma pde_loop_last_step params R_field t st0 st' :
  (0 <= t)%Z ->
  pde_loop params R_field (range (t + 1)) st0 = Ok (Completed, st') ->
  amp_bounded st'.(E) /\
  exists m, np.max (np.abs st'.(E)) = Ok m /\ (m <=? 1e5) = true.
Proof.
  intros Ht HL.
  rewrite (range_succ t Ht), pde_loop_app in HL.
  destruct (pde_loop params R_field (range t) st0) as [[fin st]|] eqn:Hpre;
    [|discriminate].
  cbn [bind] in HL. destruct fin; [|discriminate].
  cbn [pde_loop] in HL.
  destruct (np.isfinite_all (E_new params R_field t (E st) (E_prev st))) eqn:Hfin;
    cbn [negb] in HL; [|discriminate].
  destruct (np.max (np.abs (E_new params R_field t (E st) (E_prev st)))) as [m|] eqn:Hm;
    [|discriminate].
  cbn [bind] in HL. injection HL as <-. cbn [E].
  assert (HB : amp_bounded (E_new params R_field t (E st) (E_prev st)))
    by (apply clip_finite_bounded; exact Hfin).
  split; [exact HB|]. exists m. split; [exact Hm|].
  apply (np_max_abs_bounded _ _ HB Hm).
Qed.
End Clamp.

(** C6.  In a run whose initial field comes from the initializer (in sine
    mode on a grid of fewer than [2^53] points along each axis), the field
    kept after every completed step is the clamped candidate: each of its
    entries is finite and at most [1e5] in magnitude, and so is its
    maximum.  The field the run returns is bounded in the same way, whether
    the loop completed or stopped early. *)
Theorem amplitude_clamped {ext : Extern} {laws : ExternLaws ext}
    params s R_field F0 Fp0 s1 :
  params.(random_init) = true \/
    (params.(nx) < 2 ^ prec /\ params.(ny) < 2 ^ prec /\ params.(nz) < 2 ^ prec)%Z ->
  define_ricci_3d params = Ok R_field ->
  initialize_field_3d params s = Ok ((F0, Fp0), s1) ->
  (forall t st, (0 <= t)%Z ->
     pde_loop params R_field (range (t + 1)) (entry_state params F0 Fp0)
       = Ok (Completed, st) ->
     amp_bounded st.(E) /\
     exists m, np.max (np.abs st.(E)) = Ok m /\ (m <=? 1e5) = true) /\
  (forall fin st R' s', run_with_status params s = Ok (fin, st, R', s') ->
     amp_bounded st.(E)) /\
  (forall alpha_val beta_val Ef maxs en R' s',
     run_single_sim_realtime params alpha_val beta_val s = Ok ((Ef, maxs, en, R'), s') ->
     amp_bounded Ef /\
     forall m, np.max (np.abs Ef) = Ok m -> (m <=? 1e5) = true).
Proof.
  intros Hmode HR HI.
  assert (H0 : amp_bounded F0) by (apply (initial_field_bounded params s F0 Fp0 s1 Hmode HI)).
  assert (Hrun : forall fin st R' s', run_with_status params s = Ok (fin, st, R', s') ->
                 amp_bounded st.(E)).
  { intros fin st R' s' Hrun. unfold run_with_status in Hrun.
    rewrite HR, HI in Hrun. cbn [bind] in Hrun.
    destruct (np.zeros (time_steps params)) as [z|]; [|discriminate].
    cbn [bind] in Hrun.
    destruct (pde_loop params R_field (range (time_steps params)) _)
      as [[fin' st'']|] eqn:HL; [|discriminate].
    cbn [bind] in Hrun. injection Hrun as <- <- _ _.
    eapply pde_loop_amp_bounded; [|exact HL]. exact H0. }
  split; [|split].
  - intros t st Ht HL. apply (pde_loop_last_step params R_field t _ st Ht HL).
  - exact Hrun.
  - intros a b Ef maxs en R' s' Hret.
    rewrite run_single_sim_realtime_eq in Hret.
    destruct (run_with_status params s) as [[[[fin st] R''] s'']|] eqn:Hrw; [|discriminate].
    cbn [bind] in Hret. injection Hret as <- _ _ _ _.
    pose proof (Hrun _ _ _ _ eq_refl) as HB.
    split; [exact HB|]. intros m Hm. apply (np_max_abs_bounded _ _ HB Hm).
Qed.

Lemma amplitude_clamped_witness :
  amp_bounded unstable_st1.(E) /\ amp_bounded small_st1.(E).
Proof.
  split.
  - refine (proj1 (proj2 (amplitude_clamped (ext := ref_ext) (laws := ref_laws)
                     unstable_params 0%nat small_R unstable_F0 unstable_F0 69%nat _ _ _))
              (Diverged 1) unstable_st1 small_R 69%nat _).
    + left; reflexivity.
    + vm_compute; reflexivity.
    + vm_compute; reflexivity.
    + vm_compute; reflexivity.
  - refine (proj1 (proj1 (amplitude_clamped (ext := ref_ext) (laws := ref_laws)
                     (small_params 2) 0%nat small_R small_F0 small_F0 69%nat _ _ _)
              0%Z small_st1 _ _)).
    + left; reflexivity.
    + vm_compute; reflexivity.
    + vm_compute; reflexivity.
    + lia.
    + vm_compute; reflexivity.
Defined.

#[local] Close Scope float_scope.
#[local] Open Scope Z_scope.

(** ** Rounding from below *)

















(** ** The same on primitive floats *)






(** ** The curvature of one cell *)




#[local] Close Scope Z_scope.
#[local] Open Scope float_scope.

(** ** The curvature field, cell by cell *)












#[local] Close Scope float_scope.
#[local] Open Scope Z_scope.


#[local] Close Scope Z_scope.
#[local] Open Scope float_scope.

(** ** C9 *)




(* ------------------------------------------------------------------ *)
(** * Further properties *)

(** * Further properties of the run and of the sweep *)

(** ** The recorded amplitudes *)

Lemma Forall_list_set (P : float -> Prop) l t v :
  Forall P l -> P v -> Forall P (list_set l t v).
Proof.
  intros Hl Hv. revert t. induction Hl as [|x l Hx Hl IH]; intros [|t]; simpl;
    constructor; auto.
Qed.

Lemma last_nth (l : list float) d : last l d = nth (length l - 1) l d.
Proof.
  induction l as [|x l IH]; [reflexivity|].
  destruct l as [|y l]; [reflexivity|].
  change (last (x :: y :: l) d) with (last (y :: l) d). rewrite IH.
  cbn [length]. replace (S (S (length l)) - 1)%nat with (S (S (length l) - 1)) by lia.
  reflexivity.
Qed.

Lemma abs_range x :
  is_finite x = true -> (abs x <=? 1e5) = true ->
  is_finite (abs x) = true /\ (0 <=? abs x) = true /\ (abs x <=? 1e5) = true.
Proof.
  intros Fx Bx. rewrite is_finite_abs. split; [exact Fx|]. split; [|exact Bx].
  rewrite leb_FZ by (rewrite ?is_finite_abs; auto). rewrite FZ_abs.
  apply Z.leb_le. change (FZ 0) with 0%Z. apply Z.abs_nonneg.
Qed.

Lemma np_max_abs_range A m :
  amp_bounded A -> np.max (np.abs A) = Ok m ->
  is_finite m = true /\ (0 <=? m) = true /\ (m <=? 1e5) = true.
Proof.
  intros HA Hm. apply np_max_in in Hm. unfold np.abs in Hm.
  rewrite flat_amap in Hm. apply in_map_iff in Hm as (x & <- & Hx).
  unfold amp_bounded in HA. rewrite Forall_forall in HA.
  destruct (HA x Hx) as [Fx Bx]. apply abs_range; assumption.
Qed.

Section Metrics.
Context {ext : Extern}.

Lemma pde_loop_amplitudes params R_field ts st fin st' :
  Forall (fun m => is_finite m = true /\ (0 <=? m) = true /\ (m <=? 1e5) = true)
    st.(max_amplitudes) ->
  pde_loop params R_field ts st = Ok (fin, st') ->
  Forall (fun m => is_finite m = true /\ (0 <=? m) = true /\ (m <=? 1e5) = true)
    st'.(max_amplitudes).
Proof.
  revert st. induction ts as [|t ts IH]; intros st Hst; cbn [pde_loop].
  - intros H. injection H as _ <-. exact Hst.
  - destruct (np.isfinite_all (E_new params R_field t (E st) (E_prev st))) eqn:Hfin;
      cbn [negb].
    + destruct (np.max (np.abs (E_new params R_field t (E st) (E_prev st))))
        as [m|] eqn:Hm; [|discriminate].
      cbn [bind]. apply IH. cbn [max_amplitudes].
      apply Forall_list_set; [exact Hst|].
      apply (np_max_abs_range _ _ (clip_finite_bounded _ Hfin) Hm).
    + intros H. injection H as _ <-. exact Hst.
Qed.

(** A loop that stops early has completed the steps before and failed the
    check of the step at which it stops. *)
Lemma pde_loop_diverged_from params R_field a n st0 t st :
  pde_loop params R_field (steps_from a n) st0 = Ok (Diverged t, st) ->
  (a <= t < a + Z.of_nat n)%Z /\
  pde_loop params R_field (steps_from a (Z.to_nat (t - a))) st0 = Ok (Completed, st) /\
  np.isfinite_all (E_new params R_field t st.(E) st.(E_prev)) = false.
Proof.
  revert a st0. induction n as [|n IH]; intros a st0.
  - cbn. discriminate.
  - rewrite steps_from_cons. cbn [pde_loop].
    destruct (np.isfinite_all (E_new params R_field a (E st0) (E_prev st0))) eqn:Hfin;
      cbn [negb].
    + destruct (np.max _) as [m|] eqn:Hm; [|discriminate]. cbn [bind].
      intros H. destruct (IH _ _ H) as (Ht & Hpre & Hbad).
      split; [lia|]. split; [|exact Hbad].
      replace (Z.to_nat (t - a)) with (S (Z.to_nat (t - (a + 1)))) by lia.
      rewrite steps_from_cons. cbn [pde_loop]. rewrite Hfin. cbn [negb].
      rewrite Hm. cbn [bind]. exact Hpre.
    + intros H. injection H as <- <-. split; [lia|].
      rewrite Z.sub_diag. cbn. split; [reflexivity | exact Hfin].
Qed.

Lemma range_steps_from T : range T = steps_from 0 (Z.to_nat T).
Proof.
  destruct (Z.le_gt_cases 0 T) as [H|H].
  - rewrite (range_split 0 T) by lia. cbn [range Z.to_nat seq map app].
    rewrite Z.sub_0_r. reflexivity.
  - unfold range. replace (Z.to_nat T) with 0%nat by lia. reflexivity.
Qed.

Lemma pde_loop_diverged params R_field T st0 t st :
  pde_loop params R_field (range T) st0 = Ok (Diverged t, st) ->
  (0 <= t < T)%Z /\
  pde_loop params R_field (range t) st0 = Ok (Completed, st) /\
  np.isfinite_all (E_new params R_field t st.(E) st.(E_prev)) = false.
Proof.
  rewrite range_steps_from. intros H.
  destruct (pde_loop_diverged_from _ _ _ _ _ _ _ H) as (Ht & Hpre & Hbad).
  split; [lia|]. split; [|exact Hbad].
  rewrite range_steps_from. rewrite Z.sub_0_r in Hpre. exact Hpre.
Qed.

(** The last recorded amplitude of a run of at least one step. *)
Lemma run_last_amplitude params s fin st R_field s' :
  (1 <= params.(time_steps))%Z ->
  run_with_status params s = Ok (fin, st, R_field, s') ->
  length st.(max_amplitudes) = Z.to_nat params.(time_steps) /\
  match fin with
  | Completed => np.max (np.abs st.(E)) = Ok (last st.(max_amplitudes) 0)
  | Diverged _ => last st.(max_amplitudes) 0 = 0
  end.
Proof.
  intros HT Hrun. unfold run_with_status in Hrun.
  destruct (define_ricci_3d params) as [R|]; [|discriminate].
  destruct (initialize_field_3d params s) as [[[F0 Fp0] s1]|]; [|discriminate].
  cbn [bind] in Hrun. rewrite zeros_ok in Hrun by lia. cbn [bind] in Hrun.
  change {| E := F0; E_prev := Fp0;
            max_amplitudes := repeat 0 (Z.to_nat (time_steps params));
            energy_over_time := repeat 0 (Z.to_nat (time_steps params)) |}
    with (entry_state params F0 Fp0) in Hrun.
  destruct (pde_loop params R (range (time_steps params)) (entry_state params F0 Fp0))
    as [[fin' st'']|] eqn:HL; [|discriminate].
  cbn [bind] in Hrun. injection Hrun as <- <- _ _.
  destruct (pde_loop_metrics _ _ _ _ _ _ HL) as (L1 & _ & Hn).
  cbn [entry_state max_amplitudes] in L1. rewrite repeat_length in L1.
  split; [exact L1|].
  rewrite last_nth, L1.
  destruct fin' as [|t].
  - replace (time_steps params) with (time_steps params - 1 + 1)%Z in HL by lia.
    rewrite range_succ, pde_loop_app in HL by lia.
    destruct (pde_loop params R (range (time_steps params - 1)) _)
      as [[fin1 st1]|] eqn:Hpre; [|discriminate].
    cbn [bind] in HL. destruct fin1; [|discriminate].
    cbn [pde_loop] in HL.
    destruct (np.isfinite_all _); cbn [negb] in HL; [|discriminate].
    destruct (np.max (np.abs (E_new params R (time_steps params - 1) (E st1) (E_prev st1))))
      as [m|] eqn:Hm; [|discriminate].
    cbn [bind] in HL. injection HL as <-. cbn [E max_amplitudes].
    rewrite Hm. f_equal. symmetry.
    replace (Z.to_nat (time_steps params) - 1)%nat
      with (Z.to_nat (time_steps params - 1)) by lia.
    apply nth_list_set_same.
    destruct (pde_loop_metrics _ _ _ _ _ _ Hpre) as (L2 & _ & _).
    cbn [entry_state max_amplitudes] in L2. rewrite repeat_length in L2. lia.
  - destruct (pde_loop_diverged _ _ _ _ _ _ HL) as (Ht & Hpre & _).
    destruct (pde_loop_metrics _ _ _ _ _ _ Hpre) as (_ & _ & Hn').
    destruct (Hn' (Z.to_nat (time_steps params) - 1)%nat) as [-> _].
    + intros t' Ht'. apply in_range in Ht'. lia.
    + cbn [entry_state max_amplitudes]. apply nth_repeat.
Qed.
End Metrics.

(** Every amplitude a run records is a finite number between [0] and
    [1e5], and both metric arrays have [time_steps] entries. *)
Theorem recorded_amplitudes_in_range {ext : Extern}
    params alpha_val beta_val s F amps en R_field s' :
  run_single_sim_realtime params alpha_val beta_val s = Ok ((F, amps, en, R_field), s') ->
  length amps = Z.to_nat params.(time_steps) /\
  length en = Z.to_nat params.(time_steps) /\
  Forall (fun m => is_finite m = true /\ (0 <=? m) = true /\ (m <=? 1e5) = true) amps.
Proof.
  unfold run_single_sim_realtime, run_with_status.
  destruct (define_ricci_3d params) as [R|]; [|discriminate].
  destruct (initialize_field_3d params s) as [[[F0 Fp0] s1]|]; [|discriminate].
  cbn [bind]. unfold np.zeros. destruct (Z.ltb_spec params.(time_steps) 0); [discriminate|].
  cbn [bind].
  destruct (pde_loop params R (range (time_steps params)) _) as [[fin st]|] eqn:HL;
    [|discriminate].
  cbn [bind]. intros Hret. injection Hret as <- <- <- _ _.
  destruct (pde_loop_metrics _ _ _ _ _ _ HL) as (L1 & L2 & _).
  cbn [max_amplitudes energy_over_time] in L1, L2. rewrite repeat_length in L1, L2.
  split; [exact L1|]. split; [exact L2|].
  eapply pde_loop_amplitudes; [|exact HL]. cbn [max_amplitudes].
  apply Forall_repeat. repeat split; reflexivity.
Qed.

Lemma recorded_amplitudes_in_range_witness :
  Forall (fun m => is_finite m = true /\ (0 <=? m) = true /\ (m <=? 1e5) = true)
    (snd (fst (fst small_run))).
Proof.
  refine (proj2 (proj2 (recorded_amplitudes_in_range (ext := ref_ext) (small_params 2)
            1e-6 1e-7 0%nat (fst (fst (fst small_run))) (snd (fst (fst small_run)))
            (snd (fst small_run)) (snd small_run) 69%nat _))).
  vm_compute; reflexivity.
Defined.

Lemma sweep_rows_last_amp {ext : Extern}
    alpha_list beta_list base_params save_threshold s ws s' :
  (1 <= base_params.(time_steps))%Z ->
  param_sweep_3d alpha_list beta_list base_params save_threshold s = Ok (ws, s') ->
  Forall (fun row => row_last_amp row = Some (row_final_maxE row) \/
                     row_last_amp row = Some 0) ws.(summary).
Proof.
  intros HT H. unfold param_sweep_3d in H. change ws with (fst (ws, s')).
  set (I := fun w : sweep_state * rng =>
              Forall (fun row => row_last_amp row = Some (row_final_maxE row) \/
                                 row_last_amp row = Some 0) (fst w).(summary)).
  apply (for_each_inv I _ _ _ _) with (3 := H); [|constructor].
  intros alpha_ w w' Hw Hin.
  apply (for_each_inv I _ _ _ _) with (3 := Hin); [|exact Hw].
  clear - HT. intros beta_ [ws s] w' Hw. unfold sweep_body.
  match goal with |- context [run_single_sim_realtime ?p _ _ _] => set (sim := p) end.
  rewrite run_single_sim_realtime_eq.
  destruct (run_with_status sim s) as [[[[fin st] R] s1]|] eqn:Hrun; [|discriminate].
  cbn [bind].
  destruct (np.max (np.abs (E st))) as [m|] eqn:Hm; [|discriminate]. cbn [bind].
  intros Hret. injection Hret as <-. unfold I. cbn [fst summary].
  apply Forall_app. split; [exact Hw|]. constructor; [|constructor].
  destruct (run_last_amplitude sim s fin st R s1 HT Hrun) as [Hlen Hlast].
  unfold row_last_amp, row_final_maxE. cbn [fst snd].
  destruct (max_amplitudes st) as [|a0 l0] eqn:El.
  - cbn [length] in Hlen. change (time_steps sim) with (time_steps base_params) in Hlen. lia.
  - destruct fin as [|t].
    + left. rewrite Hm in Hlast. injection Hlast as ->. reflexivity.
    + right. rewrite Hlast. reflexivity.
Qed.



(** A sweep over an empty list runs nothing and raises nothing, whatever
    the parameters are. *)
Theorem sweep_of_nothing {ext : Extern} base_params save_threshold s :
  (forall beta_list,
     param_sweep_3d [] beta_list base_params save_threshold s =
       Ok ({| summary := []; last_saved_amp := None; decisions := [] |}, s)) /\
  (forall alpha_list,
     param_sweep_3d alpha_list [] base_params save_threshold s =
       Ok ({| summary := []; last_saved_amp := None; decisions := [] |}, s)).
Proof.
  split; [reflexivity|].
  intros alpha_list. unfold param_sweep_3d.
  induction alpha_list as [|a l IH]; [reflexivity | exact IH].
Qed.

(** ** The save decision on an unchanged amplitude *)

Lemma ltb_zero_sign x z s :
  Prim2SF z = S754_zero s -> (x <? z) = (x <? 0).
Proof.
  intros Hz. rewrite !ltb_spec, Hz. change (Prim2SF 0) with (S754_zero false).
  unfold SFltb. destruct (Prim2SF x) as [sx|sx| |sx mx ex]; reflexivity.
Qed.

Lemma ltb_nan_r x z : Prim2SF z = S754_nan -> (x <? z) = false.
Proof.
  intros Hz. rewrite ltb_spec, Hz. unfold SFltb.
  destruct (Prim2SF x) as [sx|sx| |sx mx ex]; reflexivity.
Qed.

Lemma sub_self x :
  Prim2SF (x - x) =
    match Prim2SF x with
    | S754_zero _ | S754_finite _ _ _ => S754_zero false
    | _ => S754_nan
    end.
Proof.
  rewrite sub_spec. unfold SF64sub.
  destruct (Prim2SF x) as [s|s| |s m e]; cbn [SFsub].
  - destruct s; reflexivity.
  - destruct s; reflexivity.
  - reflexivity.
  - rewrite Z.min_id, shl_align_id by lia. cbn [fst].
    replace (cond_Zopp s (Z.pos m) - cond_Zopp s (Z.pos m))%Z with 0%Z by lia.
    reflexivity.
Qed.

(** Python's [max(last, 1e-30)] of a finite number is finite and not zero. *)
Lemma pymax_floor x :
  is_finite x = true ->
  exists s m e, Prim2SF (pymax x 1e-30) = S754_finite s m e.
Proof.
  intros Fx. unfold pymax. rewrite ltb_spec.
  assert (E : exists m e, Prim2SF 1e-30 = S754_finite false m e)
    by (eexists; eexists; vm_compute; reflexivity).
  destruct E as (m0 & e0 & E). rewrite E.
  rewrite is_finite_SF in Fx.
  destruct (Prim2SF x) as [s|s| |s m e] eqn:Ex; try discriminate.
  - cbn [SFltb SFcompare]. rewrite E. eauto.
  - destruct (SFltb _ _); [rewrite E | rewrite Ex]; eauto.
Qed.

Lemma should_save_same x save_threshold :
  (save_threshold <? 0) = false ->
  should_save (Some x) x save_threshold = false.
Proof.
  intros Ht. unfold should_save.
  pose proof (sub_self x) as Hs.
  destruct (is_finite x) eqn:Fx.
  - destruct (pymax_floor x Fx) as (sd & md & ed & Hd).
    assert (Hz : Prim2SF (abs (x - x) / pymax x 1e-30) = S754_zero (xorb false sd)).
    { rewrite div_spec, abs_spec, Hs, Hd. rewrite is_finite_SF in Fx.
      destruct (Prim2SF x); try discriminate; reflexivity. }
    rewrite (ltb_zero_sign _ _ _ Hz). exact Ht.
  - apply ltb_nan_r. rewrite div_spec, abs_spec, Hs. rewrite is_finite_SF in Fx.
    destruct (Prim2SF x); try discriminate; reflexivity.
Qed.

(** In the trace of decisions, an amplitude that repeats the one before it
    is skipped. *)
Lemma save_trace_repeat save_threshold l last i :
  (save_threshold <? 0) = false ->
  (i + 1 < length l)%nat ->
  nth i l 0 = nth (i + 1) l 0 ->
  nth (i + 1) (fst (save_trace last save_threshold l)) true = false.
Proof.
  intros Ht. revert last i. induction l as [|x l IH]; intros last i Hi Heq.
  - cbn in Hi. lia.
  - cbn [save_trace].
    destruct (save_trace (if should_save last x save_threshold then Some x else last)
                save_threshold l) as [ds last'] eqn:Hrec.
    cbn [fst]. destruct i as [|i].
    + destruct l as [|y l]; [cbn in Hi; lia|]. cbn in Heq. subst y.
      cbn [save_trace] in Hrec.
      destruct (save_trace _ save_threshold l) as [ds2 last2].
      injection Hrec as <- _. cbn [Nat.add nth].
      destruct (should_save last x save_threshold) eqn:Hsave.
      * apply should_save_same. exact Ht.
      * exact Hsave.
    + cbn [Nat.add nth].
      specialize (IH (if should_save last x save_threshold then Some x else last) i).
      rewrite Hrec in IH. apply IH; [cbn in Hi; lia | exact Heq].
Qed.

Section RepeatedPairs.
Context {ext : Extern}.

(** The final amplitude of a row is decided by its pair: a run does not
    depend on the state in which it finds the random generator. *)
Lemma sweep_rows_by_pair alpha_list beta_list base_params save_threshold s ws s' :
  param_sweep_3d alpha_list beta_list base_params save_threshold s = Ok (ws, s') ->
  forall r1 r2, In r1 ws.(summary) -> In r2 ws.(summary) ->
    row_pair r1 = row_pair r2 -> row_final_maxE r1 = row_final_maxE r2.
Proof.
  intros H.
  set (sim := fun a b =>
    {| alpha := a; beta := b;
       c := base_params.(c); omega := base_params.(omega);
       nx := base_params.(nx); ny := base_params.(ny); nz := base_params.(nz);
       dx := base_params.(dx); dy := base_params.(dy); dz := base_params.(dz);
       dt := base_params.(dt); time_steps := base_params.(time_steps);
       mass := base_params.(mass);
       damping := base_params.(damping);
       output_dir := base_params.(output_dir);
       realtime_interval := base_params.(realtime_interval);
       enable_realtime_plotting := base_params.(enable_realtime_plotting);
       random_init := base_params.(random_init) |}).
  set (f := fun p : float * float =>
    match run_single_sim_realtime (sim (fst p) (snd p)) (fst p) (snd p) s with
    | Ok ((F, _, _, _), _) =>
        match np.max (np.abs F) with Ok m => m | Raise _ => 0 end
    | Raise _ => 0
    end).
  assert (HI : Forall (fun row => row_final_maxE row = f (row_pair row)) ws.(summary)).
  { unfold param_sweep_3d in H. change ws with (fst (ws, s')).
    set (I := fun w : sweep_state * rng =>
                Forall (fun row => row_final_maxE row = f (row_pair row)) (fst w).(summary)).
    apply (for_each_inv I _ _ _ _) with (3 := H); [|constructor].
    intros alpha_ w w' Hw Hin.
    apply (for_each_inv I _ _ _ _) with (3 := Hin); [|exact Hw].
    clear. intros beta_ [ws0 s0] w' Hw. unfold sweep_body.
    fold (sim alpha_ beta_).
    pose proof (run_single_sim_realtime_any_state (sim alpha_ beta_) alpha_ beta_ s0 s) as Hs.
    destruct (run_single_sim_realtime (sim alpha_ beta_) alpha_ beta_ s0)
      as [[[[[F amps] en] R] s1]|] eqn:Hrun; [|discriminate].
    cbn [bind].
    destruct (np.max (np.abs F)) as [m|] eqn:Hm; [|discriminate]. cbn [bind].
    intros Hret. injection Hret as <-. unfold I. cbn [fst summary].
    apply Forall_app. split; [exact Hw|]. constructor; [|constructor].
    unfold row_final_maxE, row_pair, f. cbn [fst snd].
    destruct (run_single_sim_realtime (sim alpha_ beta_) alpha_ beta_ s)
      as [[[[[F' amps'] en'] R'] s1']|]; cbn [same_outcome] in Hs; [|contradiction].
    injection Hs as <- _ _ _. rewrite Hm. reflexivity. }
  rewrite Forall_forall in HI.
  intros r1 r2 H1 H2 Hp. rewrite (HI r1 H1), (HI r2 H2), Hp. reflexivity.
Qed.
End RepeatedPairs.

(** A threshold that is not negative never saves the same amplitude twice in
    a row: whatever [x] is, the decision against the saved amplitude [x] is
    to skip. *)
Theorem same_amplitude_is_skipped x save_threshold :
  (save_threshold <? 0) = false ->
  should_save (Some x) x save_threshold = false /\
  save_trace (Some x) save_threshold [x; x] = ([false; false], Some x).
Proof.
  intros Ht. pose proof (should_save_same x save_threshold Ht) as H.
  split; [exact H|]. cbn [save_trace]. rewrite H. cbv iota. rewrite H. reflexivity.
Qed.

Lemma same_amplitude_is_skipped_witness :
  should_save (Some 1e5) 1e5 0.01 = false.
Proof. apply (proj1 (same_amplitude_is_skipped 1e5 0.01 eq_refl)). Defined.

(** In a sweep whose threshold is not negative, a pair that repeats the pair
    run just before it is never saved. *)
Theorem repeated_pair_is_skipped {ext : Extern}
    alpha_list beta_list base_params save_threshold s ws s' i :
  (save_threshold <? 0) = false ->
  param_sweep_3d alpha_list beta_list base_params save_threshold s = Ok (ws, s') ->
  (i + 1 < length (list_prod alpha_list beta_list))%nat ->
  nth i (list_prod alpha_list beta_list) (0, 0) =
    nth (i + 1) (list_prod alpha_list beta_list) (0, 0) ->
  nth (i + 1) ws.(decisions) true = false.
Proof.
  intros Ht H Hi Heq.
  pose proof (sweep_rows_by_pair _ _ _ _ _ _ _ H) as Hfun.
  unfold param_sweep_3d in H.
  destruct (outer_loop_step _ _ _ _ _ _ H) as [Htr Hp]; [reflexivity|].
  unfold traced in Htr. cbn [fst] in Htr. cbn [fst summary map app] in Hp.
  assert (Hlen : length ws.(summary) = length (list_prod alpha_list beta_list))
    by (rewrite <- Hp; symmetry; apply length_map).
  set (d := (0, 0, 0, None) : summary_row).
  assert (Hpair : forall j, (j < length ws.(summary))%nat ->
            row_pair (nth j ws.(summary) d) = nth j (list_prod alpha_list beta_list) (0, 0)).
  { intros j Hj. rewrite <- Hp. symmetry. apply nth_map_in. exact Hj. }
  assert (Hamp : forall j, (j < length ws.(summary))%nat ->
            nth j (map row_final_maxE ws.(summary)) 0 = row_final_maxE (nth j ws.(summary) d)).
  { intros j Hj. apply nth_map_in. exact Hj. }
  replace ws.(decisions)
    with (fst (save_trace None save_threshold (map row_final_maxE ws.(summary))))
    by (rewrite <- Htr; reflexivity).
  apply save_trace_repeat; [exact Ht | rewrite length_map; lia|].
  rewrite !Hamp by lia. apply Hfun; [apply nth_In; lia | apply nth_In; lia|].
  rewrite !Hpair by lia. exact Heq.
Qed.

Lemma repeated_pair_is_skipped_witness :
  nth 1 twin_sweep.(decisions) true = false.
Proof.
  refine (repeated_pair_is_skipped (ext := ref_ext) [1e-6] [1e-7; 1e-7]
            (small_params 2) 0.01 0%nat twin_sweep 69%nat 0%nat _ _ _ _).
  - reflexivity.
  - vm_compute; reflexivity.
  - simpl; lia.
  - reflexivity.
Defined.

(** ** Parameters that are not numbers *)










Section NanStep.
Context {ext : Extern}.

End NanStep.



(** * The plotted run *)

(** ** The plotted loop against the computation *)

Section PlotLoop.
Context {ext : Extern}.

(** A plotted loop that returns has computed what the loop computes. *)
Lemma plot_pde_loop_sound params R_field z ts st frames fin st' frames' :
  Plot.pde_loop params R_field z ts st frames = Plot.Return (fin, st', frames') ->
  pde_loop params R_field ts st = Ok (fin, st').
Proof.
  revert st frames. induction ts as [|t ts IH]; intros st frames; cbn [Plot.pde_loop pde_loop].
  - intros H. injection H as <- <- _. reflexivity.
  - destruct (negb (np.isfinite_all (E_new params R_field t (E st) (E_prev st)))).
    + intros H. injection H as <- <- _. reflexivity.
    + destruct (np.max _) as [m|]; [|discriminate]. cbn [Plot.lift Plot.bind bind].
      destruct (if enable_realtime_plotting params then _ else _) as [fr|];
        [|discriminate].
      cbn [Plot.bind]. apply IH.
Qed.

(** Without plotting the plotted loop is the loop. *)
Lemma plot_pde_loop_off params R_field z ts st frames :
  params.(enable_realtime_plotting) = false ->
  Plot.pde_loop params R_field z ts st frames =
    match pde_loop params R_field ts st with
    | Ok (fin, st') => Plot.Return (fin, st', frames)
    | Raise e => Plot.Throw (Plot.Numeric e)
    end.
Proof.
  intros Hoff. revert st frames.
  induction ts as [|t ts IH]; intros st frames; cbn [Plot.pde_loop pde_loop].
  - reflexivity.
  - destruct (negb (np.isfinite_all (E_new params R_field t (E st) (E_prev st))));
      [reflexivity|].
    destruct (np.max _) as [m|]; [|reflexivity]. cbn [Plot.lift Plot.bind bind].
    rewrite Hoff. cbn [Plot.bind]. apply IH.
Qed.
End PlotLoop.

(** ** The slice at [z_mid] *)

Lemma z_mid_in_range n : (1 <= n)%Z -> (0 <= n / 2 < n)%Z.
Proof.
  intros H. split; [apply Z.div_pos; lia | apply Z.div_lt; lia].
Qed.

Lemma take_z_ok A n :
  (1 <= n)%Z ->
  Plot.take_z A n (n / 2) =
    Plot.Return (map (map (fun row => nth (Z.to_nat (n / 2)) row 0)) A).
Proof.
  intros H. destruct (z_mid_in_range n H) as [H0 H1]. unfold Plot.take_z.
  destruct (Z.leb_spec (- n) (n / 2)); [|lia].
  destruct (Z.ltb_spec (n / 2) n); [|lia].
  destruct (Z.ltb_spec (n / 2) 0); [lia|]. reflexivity.
Qed.

Lemma take_y_ok A n :
  (1 <= n)%Z ->
  Plot.take_y A n (n / 2) =
    Plot.Return (map (fun plane => nth (Z.to_nat (n / 2)) plane []) A).
Proof.
  intros H. destruct (z_mid_in_range n H) as [H0 H1]. unfold Plot.take_y.
  destruct (Z.leb_spec (- n) (n / 2)); [|lia].
  destruct (Z.ltb_spec (n / 2) n); [|lia].
  destruct (Z.ltb_spec (n / 2) 0); [lia|]. reflexivity.
Qed.


(** The slice of an array with a cell has a cell. *)
Lemma slice_nonempty a b n3 A (f : list float -> float) :
  has_shape (S a) (S b) n3 A -> concat (Plot.abs2 (map (map f) A)) <> [].
Proof.
  intros [Hl HF]. destruct A as [|p A]; [discriminate|].
  inversion HF as [|? ? [Hp _] _]; subst.
  destruct p as [|r p]; [discriminate|]. cbn. discriminate.
Qed.

Lemma capture_ok params a b E :
  (1 <= params.(nz))%Z ->
  has_shape (S a) (S b) (Z.to_nat params.(nz)) E ->
  exists f, Plot.capture params (params.(nz) / 2) E = Plot.Return f.
Proof.
  intros Hz HE. unfold Plot.capture. rewrite take_z_ok by exact Hz. cbn [Plot.bind].
  pose proof (slice_nonempty _ _ _ _ (fun row => nth (Z.to_nat (params.(nz) / 2)) row 0) HE)
    as Hne.
  unfold Plot.amin, Plot.amax.
  destruct (concat _) as [|x xs]; [congruence|]. cbn [Plot.bind]. eauto.
Qed.

(** ** The frames of a plotted loop *)

Section PlotFrames.
Context {ext : Extern}.

Lemma plot_pde_loop_frames params R_field z n :
  params.(enable_realtime_plotting) = true ->
  forall a st frames fin st' frames',
  Plot.pde_loop params R_field z (steps_from a n) st frames
    = Plot.Return (fin, st', frames') ->
  let k := match fin with Completed => n | Diverged t => Z.to_nat (t - a) end in
  (forall t, fin = Diverged t -> (a <= t < a + Z.of_nat n)%Z) /\
  (params.(realtime_interval) = 0%Z -> k = 0%nat) /\
  exists new, frames' = frames ++ new /\
    Forall2 (fun t f => (a <= t)%Z /\ exists st_t,
               pde_loop params R_field (steps_from a (Z.to_nat (t - a) + 1)) st
                 = Ok (Completed, st_t) /\
               Plot.capture params z st_t.(E) = Plot.Return f)
      (filter (fun t => (t mod params.(realtime_interval) =? 0)%Z) (steps_from a k)) new.
Proof.
  intros Hon. induction n as [|n IH]; intros a st frames fin st' frames'.
  - cbn. intros H. injection H as <- <- <-.
    split; [discriminate|]. split; [reflexivity|].
    exists []. rewrite app_nil_r. split; [reflexivity | constructor].
  - rewrite steps_from_cons. cbn [Plot.pde_loop].
    destruct (np.isfinite_all (E_new params R_field a (E st) (E_prev st))) eqn:Hfin;
      cbn [negb].
    + destruct (np.max (np.abs (E_new params R_field a (E st) (E_prev st))))
        as [m|] eqn:Hm; [|discriminate].
      cbn [Plot.lift Plot.bind]. rewrite Hon. unfold Plot.py_mod.
      destruct (Z.eqb_spec params.(realtime_interval) 0) as [H0|H0]; [discriminate|].
      cbn [Plot.bind].
      set (st1 := {| E := E_new params R_field a (E st) (E_prev st);
                     E_prev := E st;
                     max_amplitudes := list_set (max_amplitudes st) (Z.to_nat a) m;
                     energy_over_time :=
                       list_set (energy_over_time st) (Z.to_nat a)
                         (0.5 * np.sum (amap sq (E_new params R_field a (E st) (E_prev st))))
                  |}).
      assert (Hstep : forall j, pde_loop params R_field (a :: steps_from (a + 1) j) st
                                = pde_loop params R_field (steps_from (a + 1) j) st1).
      { intros j. cbn [pde_loop]. rewrite Hfin. cbn [negb]. rewrite Hm. reflexivity. }
      (* the frame of this step, if any *)
      assert (Hcase : forall fr1 new1,
                Plot.pde_loop params R_field z (steps_from (a + 1) n) st1 fr1
                  = Plot.Return (fin, st', frames') ->
                fr1 = frames ++ new1 ->
                Forall2 (fun t f => (a <= t)%Z /\ exists st_t,
                           pde_loop params R_field (steps_from a (Z.to_nat (t - a) + 1)) st
                             = Ok (Completed, st_t) /\
                           Plot.capture params z st_t.(E) = Plot.Return f)
                  (filter (fun t => (t mod params.(realtime_interval) =? 0)%Z) [a]) new1 ->
                let k := match fin with
                         | Completed => S n
                         | Diverged t => Z.to_nat (t - a)
                         end in
                (forall t, fin = Diverged t -> (a <= t < a + Z.of_nat (S n))%Z) /\
                (params.(realtime_interval) = 0%Z -> k = 0%nat) /\
                exists new, frames' = frames ++ new /\
                  Forall2 (fun t f => (a <= t)%Z /\ exists st_t,
                             pde_loop params R_field (steps_from a (Z.to_nat (t - a) + 1)) st
                               = Ok (Completed, st_t) /\
                             Plot.capture params z st_t.(E) = Plot.Return f)
                    (filter (fun t => (t mod params.(realtime_interval) =? 0)%Z)
                       (steps_from a k)) new).
      { intros fr1 new1 Hrec Hfr Hhead k.
        destruct (IH _ _ _ _ _ _ Hrec) as (Hdiv & _ & new' & Hnew & Htail).
        split; [intros t Ht; specialize (Hdiv t Ht); lia|].
        split; [intros; contradiction|].
        exists (new1 ++ new'). split; [rewrite Hnew, Hfr, app_assoc; reflexivity|].
        assert (Hk : steps_from a k =
                     [a] ++ steps_from (a + 1)
                              match fin with
                              | Completed => n
                              | Diverged t => Z.to_nat (t - (a + 1))
                              end).
        { unfold k. destruct fin as [|t].
          - rewrite steps_from_cons. reflexivity.
          - specialize (Hdiv t eq_refl).
            replace (Z.to_nat (t - a)) with (S (Z.to_nat (t - (a + 1)))) by lia.
            rewrite steps_from_cons. reflexivity. }
        rewrite Hk, filter_app. apply Forall2_app; [exact Hhead|].
        eapply Forall2_impl; [|exact Htail].
        intros t f (Hat & st_t & Hloop & Hcap). split; [lia|].
        exists st_t. split; [|exact Hcap].
        replace (Z.to_nat (t - a) + 1)%nat with (S (Z.to_nat (t - (a + 1)) + 1)) by lia.
        rewrite steps_from_cons, Hstep. exact Hloop. }
      destruct (Z.eqb_spec (a mod params.(realtime_interval)) 0) as [Hr|Hr].
      * destruct (Plot.capture params z (E_new params R_field a (E st) (E_prev st)))
          as [f|] eqn:Hcap; [|discriminate].
        cbn [Plot.bind]. intros Hrec. apply (Hcase _ [f] Hrec eq_refl).
        cbn [filter]. destruct (Z.eqb_spec (a mod params.(realtime_interval)) 0); [|lia].
        constructor; [|constructor]. split; [lia|]. exists st1.
        rewrite Z.sub_diag. cbn [Z.to_nat Nat.add]. rewrite steps_from_cons.
        split; [|exact Hcap]. rewrite Hstep. reflexivity.
      * cbn [Plot.bind]. intros Hrec. apply (Hcase _ [] Hrec).
        -- rewrite app_nil_r. reflexivity.
        -- cbn [filter]. destruct (Z.eqb_spec (a mod params.(realtime_interval)) 0); [lia|].
           constructor.
    + intros H. injection H as <- <- <-. rewrite Z.sub_diag. cbn [Z.to_nat].
      split; [intros t Ht; injection Ht as <-; lia|].
      split; [reflexivity|].
      exists []. rewrite app_nil_r. split; [reflexivity | constructor].
Qed.
End PlotFrames.

(** ** How many frames a run takes *)

Lemma NoDup_range n : NoDup (range n).
Proof.
  unfold range. generalize (seq_NoDup (Z.to_nat n) 0).
  induction 1 as [|x l Hx Hl IH]; cbn [map]; constructor; [|exact IH].
  intros Hin. apply in_map_iff in Hin as (y & Hy & Hin).
  apply Nat2Z.inj in Hy. subst y. contradiction.
Qed.

Lemma length_all_zero (l : list Z) :
  NoDup l -> (forall x, In x l -> x = 0%Z) -> (length l <= 1)%nat.
Proof.
  intros Hnd H0. destruct l as [|x [|y l]]; cbn [length]; try lia.
  exfalso. inversion Hnd as [|? ? Hx _]; subst. apply Hx.
  rewrite (H0 x) by (left; reflexivity). rewrite <- (H0 y) by (right; left; reflexivity).
  left. reflexivity.
Qed.

(** At least two of the steps [0 .. n-1] are multiples of [m] exactly when
    [n] exceeds the magnitude of [m]. *)
Lemma two_multiples m n :
  m <> 0%Z ->
  ((1 < length (filter (fun t => (t mod m =? 0)%Z) (range n)))%nat <-> (Z.abs m < n)%Z).
Proof.
  intros Hm. split.
  - intros Hlen. destruct (Z.lt_ge_cases (Z.abs m) n) as [H|H]; [exact H|]. exfalso.
    assert (Hle : (length (filter (fun t => (t mod m =? 0)%Z) (range n)) <= 1)%nat).
    { apply length_all_zero; [apply NoDup_filter, NoDup_range|].
      intros t Ht. apply filter_In in Ht as [Hin Hmod].
      apply in_range in Hin. apply Z.eqb_eq in Hmod.
      apply Z.mod_divide in Hmod; [|exact Hm]. destruct Hmod as [k Hk].
      destruct (Z.eq_dec k 0) as [->|Hk0]; [lia|].
      assert (Hk1 : (1 <= k \/ k <= -1)%Z) by lia.
      destruct (Z.abs_spec m) as [[Hs Ea]|[Hs Ea]]; rewrite Ea in H; nia. }
    lia.
  - intros H.
    rewrite (range_split (Z.abs m + 1) n) by lia.
    rewrite (range_succ (Z.abs m)) by lia.
    rewrite (range_split 1 (Z.abs m)) by lia.
    rewrite !filter_app, !length_app.
    assert (H0 : filter (fun t => (t mod m =? 0)%Z) (range 1) = [0%Z]).
    { cbn. first [reflexivity | rewrite Z.mod_0_l by exact Hm; reflexivity]. }
    assert (H1 : filter (fun t => (t mod m =? 0)%Z) [Z.abs m] = [Z.abs m]).
    { cbn [filter].
      replace (Z.abs m mod m)%Z with 0%Z; [reflexivity|].
      symmetry. apply Z.mod_divide; [exact Hm|]. apply Z.divide_abs_r. apply Z.divide_refl. }
    rewrite H0, H1. cbn [length]. lia.
Qed.

(** ** The plotted run, unfolded *)

Section PlotRun.
Context {ext : Extern}.

Lemma plot_run_with_status_eq params s R_field F0 Fp0 s1 :
  define_ricci_3d params = Ok R_field ->
  initialize_field_3d params s = Ok ((F0, Fp0), s1) ->
  (0 <= params.(time_steps))%Z ->
  Plot.run_with_status params s =
    Plot.bind
      (if params.(enable_realtime_plotting)
       then Plot.bind (Plot.take_z F0 params.(nz) (params.(nz) / 2))
              (fun slice => Plot.Return (Plot.abs2 slice))
       else Plot.Return [])
      (fun _ =>
         Plot.bind
           (Plot.pde_loop params R_field (params.(nz) / 2) (range params.(time_steps))
              (entry_state params F0 Fp0) [])
           (fun r => match r with
                     | (fin, st, frames) => Plot.Return (fin, st, R_field, frames, s1)
                     end)).
Proof.
  intros HR HI HT. unfold Plot.run_with_status. rewrite HR, HI. cbn [Plot.lift Plot.bind].
  rewrite (zeros_ok _ HT). reflexivity.
Qed.

Lemma plot_run_single_eq params alpha_val beta_val s :
  Plot.run_single_sim_realtime params alpha_val beta_val s =
    Plot.bind (Plot.run_with_status params s)
      (fun r => match r with
                | (_, st, R_field, frames, s1) =>
                    Plot.Return ((st.(E), st.(max_amplitudes), st.(energy_over_time),
                                  R_field), Plot.gif_of params frames, s1)
                end).
Proof. reflexivity. Qed.

(** A plotted run that returns has run the computation. *)
Lemma plot_run_with_status_sound params s fin st R_field frames s' :
  Plot.run_with_status params s = Plot.Return (fin, st, R_field, frames, s') ->
  run_with_status params s = Ok (fin, st, R_field, s').
Proof.
  unfold Plot.run_with_status, run_with_status.
  destruct (define_ricci_3d params) as [R|]; [|discriminate].
  destruct (initialize_field_3d params s) as [[[F0 Fp0] s1]|]; [|discriminate].
  cbn [Plot.lift Plot.bind bind].
  destruct (np.zeros params.(time_steps)) as [z|]; [|discriminate].
  cbn [Plot.lift Plot.bind bind].
  destruct (if enable_realtime_plotting params then _ else _) as [x|]; [|discriminate].
  cbn [Plot.bind].
  destruct (Plot.pde_loop _ _ _ _ _ _) as [[[fin' st''] frames'']|] eqn:HL; [|discriminate].
  cbn [Plot.bind]. intros H. injection H as <- <- <- _ <-.
  rewrite (plot_pde_loop_sound _ _ _ _ _ _ _ _ _ HL). reflexivity.
Qed.

Lemma plot_run_with_status_off params s :
  params.(enable_realtime_plotting) = false ->
  Plot.run_with_status params s =
    match run_with_status params s with
    | Ok (fin, st, R_field, s') => Plot.Return (fin, st, R_field, [], s')
    | Raise e => Plot.Throw (Plot.Numeric e)
    end.
Proof.
  intros Hoff. unfold Plot.run_with_status, run_with_status.
  destruct (define_ricci_3d params) as [R|]; [|reflexivity].
  destruct (initialize_field_3d params s) as [[[F0 Fp0] s1]|]; [|reflexivity].
  cbn [Plot.lift Plot.bind bind].
  destruct (np.zeros params.(time_steps)) as [z|]; [|reflexivity].
  cbn [Plot.lift Plot.bind bind]. rewrite Hoff. cbn [Plot.bind].
  rewrite plot_pde_loop_off by exact Hoff.
  destruct (pde_loop _ _ _ _) as [[fin st]|]; reflexivity.
Qed.

(** With a grid that has a cell and, when the heat map is on, an interval
    that is not zero, the plotted loop raises nothing. *)
Lemma plot_pde_loop_ok params R_field a b ts st frames :
  (1 <= params.(nz))%Z ->
  (params.(enable_realtime_plotting) = true -> params.(realtime_interval) <> 0%Z) ->
  has_shape (S a) (S b) (Z.to_nat params.(nz)) R_field ->
  has_shape (S a) (S b) (Z.to_nat params.(nz)) st.(E) ->
  has_shape (S a) (S b) (Z.to_nat params.(nz)) st.(E_prev) ->
  exists r, Plot.pde_loop params R_field (params.(nz) / 2) ts st frames = Plot.Return r.
Proof.
  intros Hz Hi HR. revert st frames.
  induction ts as [|t ts IH]; intros st frames HE HEp; cbn [Plot.pde_loop]; [eauto|].
  destruct (negb _); [eauto|].
  pose proof (E_new_shape params R_field _ _ _ HR t _ _ HE HEp) as HN.
  destruct (np_max_ok (np.abs (E_new params R_field t st.(E) st.(E_prev)))) as [m ->].
  { replace (Z.to_nat params.(nz)) with (S (Z.to_nat params.(nz) - 1)) in HN by lia.
    apply (flat_nonempty a b (Z.to_nat params.(nz) - 1)). apply has_shape_amap, HN. }
  cbn [Plot.lift Plot.bind].
  assert (Hfr : exists fr,
            (if params.(enable_realtime_plotting)
             then Plot.bind (Plot.py_mod t params.(realtime_interval))
                    (fun r => if (r =? 0)%Z
                              then Plot.bind
                                     (Plot.capture params (params.(nz) / 2)
                                        (E_new params R_field t st.(E) st.(E_prev)))
                                     (fun f => Plot.Return (frames ++ [f]))
                              else Plot.Return frames)
             else Plot.Return frames) = Plot.Return fr).
  { destruct params.(enable_realtime_plotting); [|eauto].
    unfold Plot.py_mod.
    destruct (Z.eqb_spec params.(realtime_interval) 0) as [H0|H0];
      [exfalso; apply (Hi eq_refl H0)|].
    cbn [Plot.bind]. destruct (_ =? 0)%Z; [|eauto].
    destruct (capture_ok params a b _ Hz HN) as [f ->]. cbn [Plot.bind]. eauto. }
  destruct Hfr as [fr ->]. cbn [Plot.bind]. apply IH; cbn [E E_prev]; assumption.
Qed.
End PlotRun.

(** ** What plotting adds to a run *)

Section PlotTheory.
Context {ext : Extern}.

Lemma plot_run_total params s :
  (1 <= params.(nx))%Z -> (1 <= params.(ny))%Z -> (1 <= params.(nz))%Z ->
  (0 <= params.(time_steps))%Z ->
  (params.(enable_realtime_plotting) = true -> params.(realtime_interval) <> 0%Z) ->
  exists r, Plot.run_with_status params s = Plot.Return r.
Proof.
  intros Hx Hy Hz HT Hi.
  destruct (define_ricci_3d_ok params) as [R_field HR]; try lia.
  destruct (initialize_field_3d_ok params s) as (F & s1 & HI); try lia.
  pose proof (define_ricci_3d_grid _ _ HR) as HRg.
  destruct (initialize_field_3d_grid _ _ _ _ _ HI) as [HF _].
  rewrite (plot_run_with_status_eq _ _ _ _ _ _ HR HI HT).
  rewrite take_z_ok by exact Hz.
  assert (Hsetup : exists x,
            (if params.(enable_realtime_plotting)
             then Plot.bind
                    (Plot.Return
                       (map (map (fun row => nth (Z.to_nat (params.(nz) / 2)) row 0)) F))
                    (fun slice => Plot.Return (Plot.abs2 slice))
             else Plot.Return []) = Plot.Return x)
    by (destruct params.(enable_realtime_plotting); cbn [Plot.bind]; eauto).
  destruct Hsetup as [x ->]. cbn [Plot.bind].
  unfold grid in *.
  replace (Z.to_nat params.(nx)) with (S (Z.to_nat params.(nx) - 1)) in * by lia.
  replace (Z.to_nat params.(ny)) with (S (Z.to_nat params.(ny) - 1)) in * by lia.
  destruct (plot_pde_loop_ok params R_field _ _ (range params.(time_steps))
              (entry_state params F F) [] Hz Hi HRg HF HF) as [[[fin st] frames] ->].
  cbn [Plot.bind]. eauto.
Qed.


End PlotTheory.

Lemma plotting_sound_aux {ext : Extern} params alpha_val beta_val s :
  (forall out gif s',
     Plot.run_single_sim_realtime params alpha_val beta_val s = Plot.Return (out, gif, s') ->
     run_single_sim_realtime params alpha_val beta_val s = Ok (out, s')) /\
  (params.(enable_realtime_plotting) = false ->
   Plot.run_single_sim_realtime params alpha_val beta_val s =
     match run_single_sim_realtime params alpha_val beta_val s with
     | Ok (out, s') => Plot.Return (out, None, s')
     | Raise e => Plot.Throw (Plot.Numeric e)
     end).
Proof.
  split.
  - intros out gif s'. rewrite plot_run_single_eq, run_single_sim_realtime_eq.
    destruct (Plot.run_with_status params s) as [[[[[fin st] R] frames] s1]|] eqn:H;
      [|discriminate].
    cbn [Plot.bind]. intros Hret. injection Hret as <- _ <-.
    rewrite (plot_run_with_status_sound _ _ _ _ _ _ _ H). reflexivity.
  - intros Hoff. rewrite plot_run_single_eq, run_single_sim_realtime_eq.
    rewrite plot_run_with_status_off by exact Hoff.
    destruct (run_with_status params s) as [[[[fin st] R] s1]|]; [|reflexivity].
    cbn [Plot.bind bind]. unfold Plot.gif_of. rewrite Hoff. reflexivity.
Qed.





(** The frames of a plotted run: one for every completed step that the
    interval divides, showing the middle slice of the field after that step;
    and a GIF is written exactly when more steps were completed than the
    magnitude of the interval, so that there are at least two frames. *)
Theorem frames_follow_interval {ext : Extern}
    params s R_field F0 Fp0 s1 fin st frames s' :
  params.(enable_realtime_plotting) = true ->
  define_ricci_3d params = Ok R_field ->
  initialize_field_3d params s = Ok ((F0, Fp0), s1) ->
  Plot.run_with_status params s = Plot.Return (fin, st, R_field, frames, s') ->
  (params.(realtime_interval) = 0%Z -> Plot.completed_steps params fin = 0%Z) /\
  Forall2 (fun t f => exists st_t,
             pde_loop params R_field (range (t + 1)) (entry_state params F0 Fp0)
               = Ok (Completed, st_t) /\
             Plot.capture params (params.(nz) / 2) st_t.(E) = Plot.Return f)
    (Plot.frame_steps params (Plot.completed_steps params fin)) frames /\
  (Plot.gif_of params frames = Some frames <->
   (Z.abs params.(realtime_interval) < Plot.completed_steps params fin)%Z) /\
  (Plot.gif_of params frames = None <->
   (Plot.completed_steps params fin <= Z.abs params.(realtime_interval))%Z).
Proof.
  intros Hon HR HI Hrun.
  assert (HT : (0 <= params.(time_steps))%Z).
  { destruct (Z.le_gt_cases 0 params.(time_steps)) as [H|H]; [exact H|].
    unfold Plot.run_with_status in Hrun. rewrite HR, HI in Hrun.
    cbn [Plot.lift Plot.bind] in Hrun. unfold np.zeros in Hrun.
    destruct (Z.ltb_spec params.(time_steps) 0); [discriminate | lia]. }
  rewrite (plot_run_with_status_eq _ _ _ _ _ _ HR HI HT) in Hrun.
  destruct (if enable_realtime_plotting params then _ else _) as [x|]; [|discriminate].
  cbn [Plot.bind] in Hrun. rewrite range_steps_from in Hrun.
  destruct (Plot.pde_loop _ _ _ _ _ _) as [[[fin' st''] frames'']|] eqn:HL; [|discriminate].
  cbn [Plot.bind] in Hrun. injection Hrun as <- <- <-.
  destruct (plot_pde_loop_frames params R_field _ _ Hon _ _ _ _ _ _ HL)
    as (Hdiv & Hzero & new & Hnew & Hfr).
  cbn [app] in Hnew. subst new.
  (* the completed steps, as a number of steps and as a list *)
  set (n := Plot.completed_steps params fin').
  assert (Hn : (0 <= n)%Z /\
               match fin' with
               | Completed => Z.to_nat params.(time_steps)
               | Diverged t => Z.to_nat (t - 0)
               end = Z.to_nat n).
  { unfold n, Plot.completed_steps. destruct fin' as [|t]; [split; [lia | reflexivity]|].
    specialize (Hdiv t eq_refl). split; [lia | f_equal; lia]. }
  destruct Hn as [Hn0 Hk]. rewrite Hk in Hzero, Hfr. rewrite <- range_steps_from in Hfr.
  assert (Hframes : Forall2 (fun t f => exists st_t,
              pde_loop params R_field (range (t + 1)) (entry_state params F0 Fp0)
                = Ok (Completed, st_t) /\
              Plot.capture params (params.(nz) / 2) st_t.(E) = Plot.Return f)
            (Plot.frame_steps params n) frames'').
  { unfold Plot.frame_steps. eapply Forall2_impl; [|exact Hfr].
    intros t f (Ht & st_t & Hloop & Hcap). exists st_t. split; [|exact Hcap].
    rewrite range_steps_from.
    replace (Z.to_nat (t + 1)) with (Z.to_nat (t - 0) + 1)%nat by lia. exact Hloop. }
  assert (Hz : params.(realtime_interval) = 0%Z -> n = 0%Z)
    by (intros H0; specialize (Hzero H0); lia).
  split; [exact Hz|]. split; [exact Hframes|].
  pose proof (Forall2_length Hframes) as Hlen. unfold Plot.frame_steps in Hlen.
  assert (Hcount : ((1 < length frames'')%nat <-> (Z.abs params.(realtime_interval) < n)%Z)).
  { destruct (Z.eq_dec params.(realtime_interval) 0) as [H0|H0].
    - rewrite (Hz H0), H0 in *. cbn in Hlen. rewrite <- Hlen. cbn. lia.
    - rewrite <- Hlen. apply two_multiples. exact H0. }
  unfold Plot.gif_of. rewrite Hon. cbn [andb].
  destruct (Nat.ltb_spec 1 (length frames'')) as [H1|H1].
  - split; [split; [intros _; apply Hcount; exact H1 | reflexivity]|].
    split; [discriminate|]. intros Hle. apply Hcount in H1. lia.
  - split; [split; [discriminate|]|].
    + intros Hlt. apply Hcount in Hlt. lia.
    + split; [intros _|reflexivity].
      destruct (Z.le_gt_cases n (Z.abs params.(realtime_interval))) as [Hc|Hc]; [exact Hc|].
      apply Hcount in Hc. lia.
Qed.

Lemma frames_follow_interval_witness :
  length (snd plot_run) = 2%nat /\
  Plot.gif_of (plot_params 2 3) (snd plot_run) = Some (snd plot_run).
Proof.
  destruct (frames_follow_interval (ext := ref_ext) (plot_params 2 3) 0%nat
              small_R small_F0 small_F0 69%nat
              (fst (fst (fst plot_run))) (snd (fst (fst plot_run))) (snd plot_run) 69%nat)
    as (_ & _ & Hgif & _).
  - reflexivity.
  - vm_compute; reflexivity.
  - vm_compute; reflexivity.
  - vm_compute; reflexivity.
  - split; [reflexivity|]. apply Hgif. vm_compute; reflexivity.
Defined.



(** ** The plotted sweep *)

Section PlotSweep.
Context {ext : Extern}.

Lemma plot_sweep_body_sound base_params thr alpha_ beta_ ws gifs s ws' gifs' s' :
  Plot.sweep_body base_params thr alpha_ beta_ (ws, gifs, s)
    = Plot.Return (ws', gifs', s') ->
  sweep_body base_params thr alpha_ beta_ (ws, s) = Ok (ws', s') /\
  length gifs' = S (length gifs).
Proof.
  unfold Plot.sweep_body, sweep_body.
  match goal with |- context [Plot.run_single_sim_realtime ?p _ _ _] => set (sim := p) end.
  destruct (Plot.run_single_sim_realtime sim alpha_ beta_ s)
    as [[[[[[F amps] en] R] gif] s1]|] eqn:Hrun; [|discriminate].
  rewrite (proj1 (plotting_sound_aux sim alpha_ beta_ s) _ _ _ Hrun).
  cbn [Plot.bind bind].
  destruct (np.max (np.abs F)) as [m|]; [|discriminate]. cbn [Plot.lift Plot.bind bind].
  destruct (if should_save _ _ _ then _ else _) as [x|]; [|discriminate].
  cbn [Plot.bind]. intros H. injection H as <- <- <-.
  split; [reflexivity|]. rewrite length_app. cbn [length]. lia.
Qed.

Lemma plot_sweep_body_ok base_params thr alpha_ beta_ w :
  (1 <= base_params.(nx))%Z -> (1 <= base_params.(ny))%Z ->
  (1 <= base_params.(nz))%Z -> (0 <= base_params.(time_steps))%Z ->
  (base_params.(enable_realtime_plotting) = true ->
   base_params.(realtime_interval) <> 0%Z) ->
  exists w', Plot.sweep_body base_params thr alpha_ beta_ w = Plot.Return w'.
Proof.
  intros Hx Hy Hz HT Hi. unfold Plot.sweep_body. destruct w as [[ws gifs] s].
  match goal with |- context [Plot.run_single_sim_realtime ?p _ _ _] => set (sim := p) end.
  destruct (plot_run_total sim s Hx Hy Hz HT Hi) as [[[[[fin st] R] frames] s1] Hrun].
  rewrite plot_run_single_eq, Hrun. cbn [Plot.bind].
  pose proof (plot_run_with_status_sound _ _ _ _ _ _ _ Hrun) as Hplain.
  destruct (run_with_status_ok sim s Hx Hy Hz HT) as (fin' & st' & R' & s1' & Hok & Hg).
  rewrite Hplain in Hok. injection Hok as <- <- <- <-.
  unfold grid in Hg. change (nx sim) with (nx base_params) in Hg.
  change (ny sim) with (ny base_params) in Hg. change (nz sim) with (nz base_params) in Hg.
  destruct (np_max_ok (np.abs (E st))) as [m ->].
  { eapply has_shape_pos; [exact Hx|exact Hy|exact Hz|]. apply has_shape_amap, Hg. }
  cbn [Plot.lift Plot.bind].
  change (nz sim) with (nz base_params). change (ny sim) with (ny base_params).
  rewrite take_z_ok, take_y_ok by assumption. cbn [Plot.bind].
  destruct (should_save _ _ _); cbn [Plot.bind]; eauto.
Qed.

Lemma plot_for_each_sound {A : Type}
    (pbody : A -> Plot.sweep_log -> Plot.outcome Plot.sweep_log)
    (body : A -> sweep_state * rng -> result (sweep_state * rng)) (k : nat) l :
  (forall a ws gifs s ws' gifs' s',
     pbody a (ws, gifs, s) = Plot.Return (ws', gifs', s') ->
     body a (ws, s) = Ok (ws', s') /\ length gifs' = (k + length gifs)%nat) ->
  forall ws gifs s ws' gifs' s',
  Plot.for_each pbody l (ws, gifs, s) = Plot.Return (ws', gifs', s') ->
  for_each body l (ws, s) = Ok (ws', s') /\
  length gifs' = (length l * k + length gifs)%nat.
Proof.
  intros Hb. induction l as [|a l IH]; intros ws gifs s ws' gifs' s';
    cbn [Plot.for_each for_each].
  - intros H. injection H as <- <- <-. split; [reflexivity | cbn; lia].
  - destruct (pbody a (ws, gifs, s)) as [[[ws1 gifs1] s1]|] eqn:Ha; [|discriminate].
    cbn [Plot.bind]. intros H. destruct (Hb _ _ _ _ _ _ _ Ha) as [-> Hl1].
    cbn [bind]. destruct (IH _ _ _ _ _ _ H) as [-> Hl]. split; [reflexivity|].
    rewrite Hl, Hl1. cbn [length]. lia.
Qed.

Lemma plot_for_each_ok {A S : Type} (body : A -> S -> Plot.outcome S) l s :
  (forall a x, exists x', body a x = Plot.Return x') ->
  exists s', Plot.for_each body l s = Plot.Return s'.
Proof.
  intros Hb. revert s. induction l as [|a l IH]; intros s; cbn [Plot.for_each]; [eauto|].
  destruct (Hb a s) as [x ->]. cbn [Plot.bind]. apply IH.
Qed.

Lemma plot_sweep_sound alpha_list beta_list base_params thr s ws gifs s' :
  Plot.param_sweep_3d alpha_list beta_list base_params thr s = Plot.Return (ws, gifs, s') ->
  param_sweep_3d alpha_list beta_list base_params thr s = Ok (ws, s') /\
  length gifs = (length alpha_list * length beta_list)%nat.
Proof.
  unfold Plot.param_sweep_3d, param_sweep_3d. intros H.
  apply (plot_for_each_sound
           (fun alpha_ => Plot.for_each (Plot.sweep_body base_params thr alpha_) beta_list)
           (fun alpha_ => for_each (sweep_body base_params thr alpha_) beta_list)
           (length beta_list)) in H.
  - destruct H as [-> Hl]. split; [reflexivity|]. rewrite Hl. cbn [length]. lia.
  - intros a ws0 gifs0 s0 ws1 gifs1 s1 Hin.
    apply (plot_for_each_sound (Plot.sweep_body base_params thr a)
             (sweep_body base_params thr a) 1) in Hin.
    + destruct Hin as [-> Hl]. split; [reflexivity | lia].
    + intros b ws2 gifs2 s2 ws3 gifs3 s3 Hb.
      destruct (plot_sweep_body_sound _ _ _ _ _ _ _ _ _ _ Hb) as [-> Hl].
      split; [reflexivity | lia].
Qed.

Lemma plot_sweep_ok alpha_list beta_list base_params thr s :
  (1 <= base_params.(nx))%Z -> (1 <= base_params.(ny))%Z ->
  (1 <= base_params.(nz))%Z -> (0 <= base_params.(time_steps))%Z ->
  (base_params.(enable_realtime_plotting) = true ->
   base_params.(realtime_interval) <> 0%Z) ->
  exists w, Plot.param_sweep_3d alpha_list beta_list base_params thr s = Plot.Return w.
Proof.
  intros Hx Hy Hz HT Hi. unfold Plot.param_sweep_3d.
  apply plot_for_each_ok. intros alpha_ x. apply plot_for_each_ok.
  intros beta_ y. now apply plot_sweep_body_ok.
Qed.
End PlotSweep.

(** ** Grids without a cell *)

Section EmptyGrid.
Context {ext : Extern}.



End EmptyGrid.





(** ** The main function *)

Lemma format_rows_ok rows :
  Forall (fun row => row_last_amp row = Some (row_final_maxE row) \/
                     row_last_amp row = Some 0) rows ->
  Plot.for_each (fun row _ => Plot.format_row row) rows tt = Plot.Return tt.
Proof.
  induction 1 as [|row rows Hrow _ IH]; cbn [Plot.for_each]; [reflexivity|].
  unfold Plot.format_row at 1. destruct Hrow as [-> | ->]; cbn [Plot.bind]; exact IH.
Qed.

Lemma save_trace_first thr x l :
  hd_error (fst (save_trace None thr (x :: l))) = Some true.
Proof.
  cbn [save_trace should_save]. destruct (save_trace _ thr l). reflexivity.
Qed.

(** The main function returns, whatever the cosine, the sine, the sum and
    the random generator are: its forty runs, four values of alpha outside
    and ten of beta inside, each give a row with a last amplitude, so that
    the summary is formatted without a [TypeError]; each run leaves an
    entry for its GIF, and the first run is saved. *)
Theorem main_sweep_returns {ext : Extern} s :
  exists ws gifs s',
    Plot.run_3d_extended_realtime_sweep s = Plot.Return (ws, gifs, s') /\
    param_sweep_3d Plot.alpha_list Plot.beta_list Plot.base_params 0.01 s = Ok (ws, s') /\
    map row_pair ws.(summary) = list_prod Plot.alpha_list Plot.beta_list /\
    length ws.(summary) = 40%nat /\ length gifs = 40%nat /\
    Forall (fun row => exists la, row_last_amp row = Some la) ws.(summary) /\
    hd_error ws.(decisions) = Some true.
Proof.
  destruct (plot_sweep_ok Plot.alpha_list Plot.beta_list Plot.base_params 0.01 s)
    as [[[ws gifs] s'] H].
  { unfold Plot.base_params; cbn [nx]; lia. }
  { unfold Plot.base_params; cbn [ny]; lia. }
  { unfold Plot.base_params; cbn [nz]; lia. }
  { unfold Plot.base_params; cbn [time_steps]; lia. }
  { intros _. unfold Plot.base_params; cbn [realtime_interval]; lia. }
  destruct (plot_sweep_sound _ _ _ _ _ _ _ _ H) as [Hplain Hgifs].
  assert (Hla : Forall (fun row => row_last_amp row = Some (row_final_maxE row) \/
                                   row_last_amp row = Some 0) ws.(summary)).
  { apply (sweep_rows_last_amp _ _ _ _ _ _ _) with (2 := Hplain).
    unfold Plot.base_params; cbn [time_steps]; lia. }
  pose proof Hplain as Hloop. unfold param_sweep_3d in Hloop.
  destruct (outer_loop_step _ _ _ _ _ _ Hloop) as [Ht Hp]; [reflexivity|].
  cbn [fst summary map app] in Hp. unfold traced in Ht. cbn [fst] in Ht.
  exists ws, gifs, s'. split; [|split; [exact Hplain|split; [exact Hp|]]].
  - unfold Plot.run_3d_extended_realtime_sweep. rewrite H. cbn [Plot.bind].
    rewrite (format_rows_ok _ Hla). reflexivity.
  - split; [|split; [exact Hgifs|split]].
    + rewrite <- (length_map row_pair), Hp. reflexivity.
    + eapply Forall_impl; [|exact Hla]. intros row [Hr|Hr]; eauto.
    + destruct (summary ws) as [|row rows]; [discriminate Hp|].
      cbn [map] in Ht.
      pose proof (save_trace_first 0.01 (row_final_maxE row) (map row_final_maxE rows)) as Hd.
      rewrite <- Ht in Hd. exact Hd.
Qed.
